(** * Magnolia documentation search: indexer, search client and context assembler

    A shallow embedding of the retrieval pipeline of the documentation
    preview site:

    - [Indexer]: [estimateTokens], [estimateSectionTokens],
      [buildChunkHeader], [buildChunkContent], [buildSingleChunk],
      [buildChunkFromSections], [createLlmChunks], [pathToUrl],
      [categorizeUrl], [slugify], [extractSections] and [finalizeSection]
      of [native-search/src/indexer.js];
    - [IndexerRecords]: [createSearchRecord] of the same file, which
      produces the records the search client loads;
    - [MagnoliaSearch]: [load], [_buildInvertedIndex], [_tokenize],
      [search], [_findCandidates], [_scoreDocument], [_fuzzyMatch],
      [_levenshtein], [getCategories], [getVersions], [highlight] and
      [_escapeRegex] of the search client;
    - [MagnoliaAI]: [_extractKeywords] and [buildContext] of the AI
      assistant.

    Conventions of the embedding.

    - A JavaScript string is a [string] whose characters are the code
      units 0..255 (Latin-1); code units above 255 are outside the model.
    - Integers ([length], token counts, indices) are [Z] or [nat].
    - The few places where the source computes with fractions
      ([* 0.1], [* 1.3], [* 0.5], [* 1.2], [* 1.1], [distance / maxLength])
      are modelled with exact rationals [Q]; the doubles of the source
      agree with them on every comparison and rounding the code performs
      for inputs of realistic size (see the remarks at each definition). *)

From Stdlib Require Import List Arith ZArith QArith Qround Qminmax Lia Lqa Bool Ascii String.
From Stdlib Require Import DecimalString DecimalNat Sorted Permutation.
Import ListNotations.

Local Close Scope Q_scope.
Local Open Scope string_scope.

(** ** JavaScript string primitives used by the sources *)

Module JS.

(** [\s] of a JavaScript regular expression and the characters removed by
    [String.prototype.trim], restricted to code units below 256:
    TAB, LF, VT, FF, CR, SPACE and NO-BREAK SPACE. *)
Definition isWhiteSpace (c : ascii) : bool :=
  let n := N_of_ascii c in
  (((9 <=? n) && (n <=? 13)) || (n =? 32) || (n =? 160))%N.

(** [String.prototype.toLowerCase] on one code unit below 256. *)
Definition toLowerChar (c : ascii) : ascii :=
  let n := N_of_ascii c in
  if (((65 <=? n) && (n <=? 90))
      || ((192 <=? n) && (n <=? 222) && negb (n =? 215)))%N
  then ascii_of_N (n + 32) else c.

Fixpoint mapChars (f : ascii -> ascii) (s : string) : string :=
  match s with
  | EmptyString => EmptyString
  | String c s' => String (f c) (mapChars f s')
  end.

Definition toLowerCase (s : string) : string := mapChars toLowerChar s.

(** [s.startsWith(t)] *)
Definition startsWith (s t : string) : bool := String.prefix t s.

(** [s.includes(t)] *)
Fixpoint includes (s t : string) : bool :=
  String.prefix t s ||
  match s with
  | EmptyString => false
  | String _ s' => includes s' t
  end.

(** [(s.match(/[...]/g) || []).length] for a character class. *)
Fixpoint countChars (p : ascii -> bool) (s : string) : nat :=
  match s with
  | EmptyString => 0
  | String c s' => (if p c then 1 else 0) + countChars p s'
  end.

(** [(s.match(new RegExp(pat, 'g')) || []).length] for a pattern that
    matches the literal text [pat]: matches are found left to right and
    the scan resumes after the end of each match ([skip] is the number of
    characters of the last match still to be passed over). *)
Fixpoint countMatchesFrom (pat : string) (skip : nat) (s : string) : nat :=
  match s with
  | EmptyString =>
      if (pat =? "") && (skip =? 0)%nat then 1 else 0
  | String _ s' =>
      match skip with
      | S k => countMatchesFrom pat k s'
      | O =>
          if String.prefix pat s
          then S (countMatchesFrom pat (pred (String.length pat)) s')
          else countMatchesFrom pat 0 s'
      end
  end.

Definition countMatches (pat s : string) : nat := countMatchesFrom pat 0 s.

Fixpoint trimStart (s : string) : string :=
  match s with
  | EmptyString => EmptyString
  | String c s' => if isWhiteSpace c then trimStart s' else s
  end.

Fixpoint trimEnd (s : string) : string :=
  match s with
  | EmptyString => EmptyString
  | String c s' =>
      let t := trimEnd s' in
      if isWhiteSpace c && (t =? "") then EmptyString else String c t
  end.

(** [s.trim()] *)
Definition trim (s : string) : string := trimEnd (trimStart s).

(** [parts.join(sep)] *)
Fixpoint join (sep : string) (parts : list string) : string :=
  match parts with
  | [] => ""
  | [p] => p
  | p :: rest => p ++ sep ++ join sep rest
  end.

(** [c.repeat(n)] for a one-character string. *)
Fixpoint repeatChar (c : ascii) (n : nat) : string :=
  match n with
  | O => EmptyString
  | S k => String c (repeatChar c k)
  end.

(** [s.split(/\s+/)]: the pieces between maximal runs of white space; a
    leading or trailing run yields an empty first or last piece, and the
    empty string yields one empty piece.  [cur] is the piece being read,
    [inWs] tells whether the previous character was white space. *)
Fixpoint splitWsFrom (cur : string) (inWs : bool) (s : string) : list string :=
  match s with
  | EmptyString => [cur]
  | String c s' =>
      if isWhiteSpace c
      then if inWs then splitWsFrom cur true s'
           else cur :: splitWsFrom "" true s'
      else splitWsFrom (cur ++ String c "") false s'
  end.

Definition splitWs (s : string) : list string := splitWsFrom "" false s.

(** Truthiness of a string value: only the empty string is falsy. *)
Definition truthy (s : string) : bool := negb (s =? "").

(** [String(n)] for a non-negative integer. *)
Definition ofNat (n : nat) : string := NilEmpty.string_of_uint (Nat.to_uint n).

(** [s.endsWith(t)] *)
Definition endsWith (s t : string) : bool :=
  (String.length t <=? String.length s)%nat
  && (substring (String.length s - String.length t) (String.length t) s =? t).

(** [s.slice(0, n)] for a non-negative [n]. *)
Definition sliceTo (n : nat) (s : string) : string := substring 0 n s.

(** [s.replace(/suffix$/, replacement)] for a literal [suffix]: only a
    match that ends the string is replaced. *)
Definition replaceSuffix (suffix replacement s : string) : string :=
  if endsWith s suffix
  then sliceTo (String.length s - String.length suffix) s ++ replacement
  else s.

End JS.

(** ** The indexer: token estimates and chunking *)

Module Indexer.

Definition isMarkdownChar (c : ascii) : bool :=
  existsb (Ascii.eqb c)
    ["#"; "*"; "_"; "`"; "["; "]"; "("; ")"]%char.

(** [text.split(/\s+/).filter(w => w.length > 0)] *)
Definition words (text : string) : list string :=
  filter (fun w => (0 <? String.length w)%nat) (JS.splitWs text).

(** [estimateTokens(text)].  [Math.ceil(markdownChars * 0.1)] and
    [Math.ceil(tokens * 1.3)] are taken over the rationals.  For an
    integer [n] below 2^48 the double product [n * 0.1] ([n * 1.3]) is
    exactly [n / 10] ([13 n / 10]) when that is an integer, and lies
    strictly between the two neighbouring integers otherwise, so
    [Math.ceil] returns the same integer on the double and on the
    rational. *)
Definition estimateTokens (text : string) : Z :=
  if negb (JS.truthy text) then 0%Z
  else
    let tokens := 0%Z in
    let tokens := (tokens + Z.of_nat (List.length (words text)))%Z in
    let markdownChars := Z.of_nat (JS.countChars isMarkdownChar text) in
    let tokens := (tokens + Qceiling (inject_Z markdownChars * (1 # 10))%Q)%Z in
    let codeBlocks := Z.of_nat (JS.countMatches "[Code]" text) in
    let tokens := (tokens + Qceiling (inject_Z (codeBlocks * 50)))%Z in
    let tables := Z.of_nat (JS.countMatches "[Table]" text) in
    let tokens := (tokens + Qceiling (inject_Z (tables * 20)))%Z in
    Qceiling (inject_Z tokens * (13 # 10))%Q.

(** The estimate as the specification words it: words, plus 10% of the
    markdown characters, plus 50 per [[Code]] and 20 per [[Table]] marker,
    the sum scaled by 1.3 and rounded up once at the end. *)
Definition estimateTokens_spec (text : string) : Z :=
  let wordCount := Z.of_nat (List.length (words text)) in
  let markdownChars := Z.of_nat (JS.countChars isMarkdownChar text) in
  let codeBlocks := Z.of_nat (JS.countMatches "[Code]" text) in
  let tables := Z.of_nat (JS.countMatches "[Table]" text) in
  Qceiling ((inject_Z wordCount
             + (1 # 10) * inject_Z markdownChars
             + inject_Z (50 * codeBlocks)
             + inject_Z (20 * tables)) * (13 # 10))%Q.

(** The number of words of a text, counted directly: the positions at
    which a non-white-space character starts a maximal run. *)
Fixpoint countWordStarts (prevWs : bool) (s : string) : nat :=
  match s with
  | EmptyString => 0
  | String c s' =>
      if JS.isWhiteSpace c then countWordStarts true s'
      else (if prevWs then 1 else 0) + countWordStarts false s'
  end.

Definition wordCount (text : string) : nat := countWordStarts true text.

(** *** Page data *)

Module PageMetadata.
Record t := {
  title : string;
  category : string;
  version : string;
  breadcrumb : list string;
  description : string
}.
End PageMetadata.

(** A finalized section ([finalizeSection]); [heading] is [null] for the
    text that precedes the first heading of a page. *)
Module PageSection.
Record t := {
  heading : option string;
  headingLevel : nat;
  anchor : string;
  content : string;
  contentPreview : string
}.
End PageSection.

(** An LLM chunk; a field that is [undefined] in the source is [None]. *)
Module LlmChunk.
Record t := {
  id : string;
  url : string;
  title : string;
  category : string;
  version : string;
  content : string;
  tokenEstimate : Z;
  chunkIndex : option Z;
  chunkTotal : option Z;
  sectionRange : option string;
  sectionStartIndex : option Z;
  sectionEndIndex : option Z
}.

(** [chunk.chunkTotal = total] *)
Definition setChunkTotal (total : Z) (c : t) : t :=
  {| id := id c; url := url c; title := title c; category := category c;
     version := version c; content := content c;
     tokenEstimate := tokenEstimate c; chunkIndex := chunkIndex c;
     chunkTotal := Some total; sectionRange := sectionRange c;
     sectionStartIndex := sectionStartIndex c;
     sectionEndIndex := sectionEndIndex c |}.
End LlmChunk.

(** [x || dflt] for an optional string: [null] and [""] are falsy. *)
Definition orElse (x : option string) (dflt : string) : string :=
  match x with
  | Some s => if JS.truthy s then s else dflt
  | None => dflt
  end.

(** [estimateSectionTokens(section)] *)
Definition estimateSectionTokens (section : PageSection.t) : Z :=
  let tokens := 0%Z in
  let tokens :=
    match PageSection.heading section with
    | Some h => if JS.truthy h then (tokens + estimateTokens h)%Z else tokens
    | None => tokens
    end in
  let tokens :=
    if JS.truthy (PageSection.content section)
    then (tokens + estimateTokens (PageSection.content section))%Z
    else tokens in
  tokens.

(** [buildChunkHeader(metadata, url)] *)
Definition buildChunkHeader (metadata : PageMetadata.t) (url : string) : string :=
  let lines :=
    [ "# " ++ PageMetadata.title metadata;
      "";
      "URL: " ++ url;
      "Category: " ++ PageMetadata.category metadata;
      "Version: " ++ PageMetadata.version metadata;
      match PageMetadata.breadcrumb metadata with
      | [] => ""
      | bc => "Path: " ++ JS.join " > " bc
      end;
      "";
      if JS.truthy (PageMetadata.description metadata)
      then "Summary: " ++ PageMetadata.description metadata else "";
      "";
      "---";
      "" ] in
  JS.join (String "010" "") lines.

(** The lines one section adds in [buildChunkContent]. *)
Definition sectionLines (section : PageSection.t) : list string :=
  ((match PageSection.heading section with
    | Some h =>
        if JS.truthy h
        then [ (JS.repeatChar "#" (Nat.min (PageSection.headingLevel section + 1) 4)
                 ++ " " ++ h)%string; "" ]
        else []
    | None => []
    end)
   ++ (if JS.truthy (PageSection.content section)
       then [ PageSection.content section; "" ] else []))%list.

(** [buildChunkContent(header, sections)] *)
Definition buildChunkContent (header : string) (sections : list PageSection.t)
  : string :=
  let lines := header :: flat_map sectionLines sections in
  JS.trim (JS.join (String "010" "") lines).

Definition MAX_CHUNK_TOKENS : Z := 1500.

(** The chunk under construction in [createLlmChunks]. *)
Record CurrentChunk := {
  sections : list PageSection.t;
  tokens : Z;
  startIndex : nat
}.

Section Chunking.

(** [crypto.createHash('md5').update(s).digest('hex').slice(0, 12)]: the
    platform's hash, not part of the repository. *)
Variable md5hex12 : string -> string.

(** [buildSingleChunk(header, sections, url, metadata, chunkIndex, chunkTotal)] *)
Definition buildSingleChunk (header : string) (sections : list PageSection.t)
    (url : string) (metadata : PageMetadata.t) (chunkIndex chunkTotal : Z)
  : LlmChunk.t :=
  let content := buildChunkContent header sections in
  let baseId := md5hex12 url in
  {| LlmChunk.id :=
       if (chunkTotal =? 1)%Z then baseId
       else baseId ++ "-" ++ JS.ofNat (Z.to_nat chunkIndex);
     LlmChunk.url := url;
     LlmChunk.title := PageMetadata.title metadata;
     LlmChunk.category := PageMetadata.category metadata;
     LlmChunk.version := PageMetadata.version metadata;
     LlmChunk.content := content;
     LlmChunk.tokenEstimate := estimateTokens content;
     LlmChunk.chunkIndex := if (chunkTotal =? 1)%Z then None else Some chunkIndex;
     LlmChunk.chunkTotal := if (chunkTotal =? 1)%Z then None else Some chunkTotal;
     LlmChunk.sectionRange := None;
     LlmChunk.sectionStartIndex := None;
     LlmChunk.sectionEndIndex := None |}.

(** The [sectionRange] description of [buildChunkFromSections]; it is only
    called with a non-empty list (on an empty one the source would fail
    reading [sections[0].heading]). *)
Definition sectionRangeOf (sections : list PageSection.t) : option string :=
  match sections with
  | [] => None
  | [s] => Some (orElse (PageSection.heading s) "Introduction")
  | s :: _ =>
      Some (orElse (PageSection.heading s) "Introduction" ++ " ... "
            ++ orElse (PageSection.heading (last sections s)) "End")
  end.

(** [buildChunkFromSections(header, sections, url, metadata, chunkIndex,
    startSectionIndex, endSectionIndex)] *)
Definition buildChunkFromSections (header : string)
    (sections : list PageSection.t) (url : string) (metadata : PageMetadata.t)
    (chunkIndex startSectionIndex endSectionIndex : Z) : LlmChunk.t :=
  let content := buildChunkContent header sections in
  let baseId := md5hex12 url in
  {| LlmChunk.id := baseId ++ "-" ++ JS.ofNat (Z.to_nat chunkIndex);
     LlmChunk.url := url;
     LlmChunk.title := PageMetadata.title metadata;
     LlmChunk.category := PageMetadata.category metadata;
     LlmChunk.version := PageMetadata.version metadata;
     LlmChunk.content := content;
     LlmChunk.tokenEstimate := estimateTokens content;
     LlmChunk.chunkIndex := Some chunkIndex;
     LlmChunk.chunkTotal := None;
     LlmChunk.sectionRange := sectionRangeOf sections;
     LlmChunk.sectionStartIndex := Some startSectionIndex;
     LlmChunk.sectionEndIndex := Some endSectionIndex |}.

(** One iteration of the splitting loop of [createLlmChunks], at index [i]. *)
Definition splitStep (header : string) (headerTokens : Z) (url : string)
    (metadata : PageMetadata.t)
    (st : list LlmChunk.t * CurrentChunk) (i : nat) (section : PageSection.t)
  : list LlmChunk.t * CurrentChunk :=
  let (chunks, currentChunk) := st in
  let sectionTokens := estimateSectionTokens section in
  if ((tokens currentChunk + sectionTokens >? MAX_CHUNK_TOKENS)%Z
      && (0 <? List.length (sections currentChunk))%nat)
  then
    let chunkIndex := Z.of_nat (List.length chunks) in
    ((chunks ++
       [buildChunkFromSections header (sections currentChunk) url metadata
          chunkIndex (Z.of_nat (startIndex currentChunk)) (Z.of_nat i - 1)])%list,
     {| sections := [section];
        tokens := (headerTokens + sectionTokens)%Z;
        startIndex := i |})
  else
    (chunks,
     {| sections := (sections currentChunk ++ [section])%list;
        tokens := (tokens currentChunk + sectionTokens)%Z;
        startIndex := startIndex currentChunk |}).

(** [for (let i = ...; i < sections.length; i++)] over the sections that
    remain from index [i] on. *)
Fixpoint splitLoop (header : string) (headerTokens : Z) (url : string)
    (metadata : PageMetadata.t) (i : nat) (rest : list PageSection.t)
    (st : list LlmChunk.t * CurrentChunk) : list LlmChunk.t * CurrentChunk :=
  match rest with
  | [] => st
  | section :: rest' =>
      splitLoop header headerTokens url metadata (S i) rest'
        (splitStep header headerTokens url metadata st i section)
  end.

(** [totalTokens] of [createLlmChunks]: header plus all sections. *)
Definition pageTokens (headerTokens : Z) (sections : list PageSection.t) : Z :=
  fold_left (fun total section => (total + estimateSectionTokens section)%Z)
    sections headerTokens.

(** [createLlmChunks(metadata, sections, url)]; the parameter [sections]
    is [sections0] here, [sections] being the field of the current chunk. *)
Definition createLlmChunks (metadata : PageMetadata.t)
    (sections0 : list PageSection.t) (url : string) : list LlmChunk.t :=
  let header := buildChunkHeader metadata url in
  let headerTokens := estimateTokens header in
  let totalTokens := pageTokens headerTokens sections0 in
  if (totalTokens <=? MAX_CHUNK_TOKENS)%Z then
    [buildSingleChunk header sections0 url metadata 0 1]
  else
    let (chunks, currentChunk) :=
      splitLoop header headerTokens url metadata 0 sections0
        ([], {| sections := []; tokens := headerTokens; startIndex := 0 |}) in
    let chunks :=
      if (0 <? List.length (sections currentChunk))%nat then
        (chunks ++
          [buildChunkFromSections header (sections currentChunk) url metadata
             (Z.of_nat (List.length chunks))
             (Z.of_nat (startIndex currentChunk))
             (Z.of_nat (List.length sections0) - 1)])%list
      else chunks in
    let totalChunks := Z.of_nat (List.length chunks) in
    map (LlmChunk.setChunkTotal totalChunks) chunks.

End Chunking.

(** *** From the built site to sections *)

(** [pathToUrl(relativePath)], with [this.baseUrl]. *)
Definition pathToUrl (baseUrl relativePath : string) : string :=
  let url :=
    JS.mapChars (fun c => if Ascii.eqb c "\" then "/"%char else c)
      relativePath in
  let url := JS.replaceSuffix "index.html" "" url in
  let url := JS.replaceSuffix ".html" "/" url in
  let url := if negb (JS.endsWith url "/") then url ++ "/" else url in
  let url := if negb (JS.startsWith url "/") then "/" ++ url else url in
  baseUrl ++ url.

(** [categorizeUrl(url)]: the category and the version. *)
Definition categorizeUrl (url : string) : string * string :=
  if JS.includes url "/product-docs/6.2/" then ("Magnolia 6.2", "6.2")
  else if JS.includes url "/product-docs/6.3/" then ("Magnolia 6.3", "6.3")
  else if JS.includes url "/product-docs/" then ("Magnolia 6.4", "latest")
  else if JS.includes url "/paas/" || JS.includes url "/cockpit/"
  then ("DX Cloud", "cloud")
  else if JS.includes url "/support/" then ("Support", "general")
  else if JS.includes url "/magnolia-cli/" then ("CLI", "general")
  else if JS.includes url "/headless/" then ("Headless", "general")
  else ("Modules", "modules").

Definition isLowerAlnum (c : ascii) : bool :=
  let n := N_of_ascii c in
  (((97 <=? n) && (n <=? 122)) || ((48 <=? n) && (n <=? 57)))%N.

(** [s.replace(/[^a-z0-9]+/g, '-')]: every maximal run of other
    characters becomes one hyphen; [inRun] tells whether the previous
    character belonged to such a run. *)
Fixpoint hyphenateRuns (inRun : bool) (s : string) : string :=
  match s with
  | EmptyString => EmptyString
  | String c s' =>
      if isLowerAlnum c then String c (hyphenateRuns false s')
      else if inRun then hyphenateRuns true s'
      else String "-" (hyphenateRuns true s')
  end.

Definition stripLeadingHyphen (s : string) : string :=
  match s with
  | String c s' => if Ascii.eqb c "-" then s' else s
  | EmptyString => EmptyString
  end.

Fixpoint stripTrailingHyphen (s : string) : string :=
  match s with
  | EmptyString => EmptyString
  | String c EmptyString => if Ascii.eqb c "-" then EmptyString else s
  | String c s' => String c (stripTrailingHyphen s')
  end.

(** [s.replace(/^-|-$/g, '')]: the scan removes a hyphen at the start,
    then a hyphen at the end of what follows it. *)
Definition stripEdgeHyphens (s : string) : string :=
  stripTrailingHyphen (stripLeadingHyphen s).

(** [slugify(text)] *)
Definition slugify (text : string) : string :=
  stripEdgeHyphens (hyphenateRuns false (JS.toLowerCase text)).

(** The section under construction in [extractSections]. *)
Module RawSection.
Record t := {
  heading : option string;
  headingLevel : nat;
  anchor : string;
  content : list string
}.
End RawSection.

(** [finalizeSection(section)] *)
Definition finalizeSection (section : RawSection.t) : PageSection.t :=
  let contentText := JS.trim (JS.join " " (RawSection.content section)) in
  {| PageSection.heading := RawSection.heading section;
     PageSection.headingLevel := RawSection.headingLevel section;
     PageSection.anchor := RawSection.anchor section;
     PageSection.content := contentText;
     PageSection.contentPreview :=
       JS.sliceTo 150 contentText
       ++ (if (150 <? String.length contentText)%nat then "..." else "") |}.

(** What [extractSections] reads of the page: the elements that
    [contentArea.find('h1, h2, h3, h4, p, li, dt, dd, pre, table')]
    yields, in document order, each with the values the loop asks of it:
    the tag, [$el.text()], the [id] attribute of a heading, the texts of
    the [th] and [td] cells of a table. *)
Inductive HeadingTag := H1 | H2 | H3 | H4.

Inductive ContentElement :=
| EHeading (tag : HeadingTag) (text : string) (id : option string)
| EPre (text : string)
| ETable (cells : list string)
| EBlock (text : string).

(** [parseInt(tagName.charAt(1))] *)
Definition levelOf (tag : HeadingTag) : nat :=
  match tag with H1 => 1 | H2 => 2 | H3 => 3 | H4 => 4 end.

(** The text a content element contributes. *)
Definition elementText (el : ContentElement) : string :=
  match el with
  | EPre text => "[Code] " ++ JS.sliceTo 200 (JS.trim text)
  | ETable cells =>
      "[Table] " ++ JS.sliceTo 300 (JS.join " | " (map JS.trim cells))
  | EBlock text => JS.trim text
  | EHeading _ _ _ => ""
  end.

(** The callback of [.each] in [extractSections]. *)
Definition extractStep (st : list PageSection.t * RawSection.t)
    (el : ContentElement) : list PageSection.t * RawSection.t :=
  let (sections, currentSection) := st in
  match el with
  | EHeading tag text id =>
      let sections :=
        if (0 <? List.length (RawSection.content currentSection))%nat
        then (sections ++ [finalizeSection currentSection])%list
        else sections in
      let headingText := JS.trim text in
      let anchor := orElse id (slugify headingText) in
      (sections,
       {| RawSection.heading := Some headingText;
          RawSection.headingLevel := levelOf tag;
          RawSection.anchor := anchor;
          RawSection.content := [] |})
  | _ =>
      let text := elementText el in
      if (10 <? String.length text)%nat
      then (sections,
            {| RawSection.heading := RawSection.heading currentSection;
               RawSection.headingLevel := RawSection.headingLevel currentSection;
               RawSection.anchor := RawSection.anchor currentSection;
               RawSection.content :=
                 (RawSection.content currentSection ++ [text])%list |})
      else (sections, currentSection)
  end.

(** [extractSections($)]; [None] when the page has no content area. *)
Definition extractSections (contentArea : option (list ContentElement))
  : list PageSection.t :=
  match contentArea with
  | None => []
  | Some elements =>
      let (sections, currentSection) :=
        fold_left extractStep elements
          ([], {| RawSection.heading := None;
                  RawSection.headingLevel := 0;
                  RawSection.anchor := "";
                  RawSection.content := [] |}) in
      if (0 <? List.length (RawSection.content currentSection))%nat
      then (sections ++ [finalizeSection currentSection])%list
      else sections
  end.

End Indexer.

(** ** The search client *)

Module MagnoliaSearch.

(** A record of the search index, as [createSearchRecord] writes it.  A
    missing string field reads as the empty string, which the source
    treats alike ([doc.title || ''], [doc._searchText || '']); [heading]
    is [null] for a section without a heading. *)
Module SearchRecord.
Record t := {
  id : string;
  url : string;
  title : string;
  heading : option string;
  headingLevel : nat;
  content : string;
  fullContent : string;
  category : string;
  version : string;
  breadcrumb : list string;
  _searchText : string
}.
End SearchRecord.

(** The configuration object; the constructor sets it and no method of
    the class writes to it. *)
Record FieldWeights := {
  w_title : Q;
  w_heading : Q;
  w_content : Q;
  w_breadcrumb : Q
}.

Record Config := {
  minQueryLength : nat;
  maxResults : nat;
  fuzzyThreshold : Q;
  fieldWeights : FieldWeights
}.

Definition config : Config :=
  {| minQueryLength := 2;
     maxResults := 20;
     fuzzyThreshold := (4 # 10)%Q;
     fieldWeights :=
       {| w_title := 10%Q; w_heading := 8%Q; w_content := 3%Q;
          w_breadcrumb := 2%Q |} |}.

(** *** The inverted index: an object without prototype used as a map

    The entries are kept in insertion order.  [Object.keys] lists the keys
    that are array indices (canonical decimal numerals up to 2^32 - 2) in
    ascending numeric order first, then the other keys in insertion
    order. *)
Definition JsObject (A : Type) : Type := list (string * A).

Definition objHas {A} (o : JsObject A) (k : string) : bool :=
  existsb (fun e => fst e =? k) o.

Fixpoint objGet {A} (o : JsObject A) (k : string) : option A :=
  match o with
  | [] => None
  | (k', v) :: o' => if k' =? k then Some v else objGet o' k
  end.

(** [o[k] = v]: overwrite in place, or append a new key. *)
Fixpoint objSet {A} (o : JsObject A) (k : string) (v : A) : JsObject A :=
  match o with
  | [] => [(k, v)]
  | (k', v') :: o' =>
      if k' =? k then (k', v) :: o' else (k', v') :: objSet o' k v
  end.

Definition isDigit (c : ascii) : bool :=
  let n := N_of_ascii c in ((48 <=? n) && (n <=? 57))%N.

Fixpoint allChars (p : ascii -> bool) (s : string) : bool :=
  match s with
  | EmptyString => true
  | String c s' => p c && allChars p s'
  end.

Fixpoint decimalValue (acc : N) (s : string) : N :=
  match s with
  | EmptyString => acc
  | String c s' => decimalValue (10 * acc + (N_of_ascii c - 48))%N s'
  end.

Definition isArrayIndex (k : string) : bool :=
  match k with
  | EmptyString => false
  | String c rest =>
      allChars isDigit k
      && ((rest =? "") || negb (Ascii.eqb c "0"))
      && (decimalValue 0 k <=? 4294967294)%N
  end.

Fixpoint insertByIndex (k : string) (sorted : list string) : list string :=
  match sorted with
  | [] => [k]
  | k' :: rest =>
      if (decimalValue 0 k <=? decimalValue 0 k')%N then k :: sorted
      else k' :: insertByIndex k rest
  end.

Definition sortByIndex (ks : list string) : list string :=
  fold_right insertByIndex [] ks.

(** [Object.keys(o)] *)
Definition objKeys {A} (o : JsObject A) : list string :=
  let ks := map fst o in
  (sortByIndex (filter isArrayIndex ks)
   ++ filter (fun k => negb (isArrayIndex k)) ks)%list.

(** *** The engine *)

(** A callback passed to the constructor, by what a call of it does. *)
Inductive Callback := Returns | Throws.

(** The engine while [this.index] is an array of records. *)
Record Engine := {
  index : list SearchRecord.t;
  loaded : bool;
  indexUrl : string;
  invertedIndex : JsObject (list nat);
  onReady : Callback
}.

(** [new MagnoliaSearch(options)]; [invertedIndex] is not set before
    [load], an object without entries stands for it; [onReady] is
    [options.onReady || function() {}]. *)
Definition newEngineWith (optIndexUrl : option string)
    (optOnReady : option Callback) : Engine :=
  {| index := [];
     loaded := false;
     indexUrl := Indexer.orElse optIndexUrl "/search-data/search-index.min.json";
     invertedIndex := [];
     onReady := match optOnReady with Some f => f | None => Returns end |}.

(** [new MagnoliaSearch({ indexUrl })], or [new MagnoliaSearch()]: no
    [onReady] is given. *)
Definition newEngine (optIndexUrl : option string) : Engine :=
  newEngineWith optIndexUrl None.

Definition isTokenChar (c : ascii) : bool :=
  let n := N_of_ascii c in
  (((97 <=? n) && (n <=? 122)) || ((48 <=? n) && (n <=? 57)))%N
  || JS.isWhiteSpace c.

(** [_tokenize(text)] *)
Definition _tokenize (text : string) : list string :=
  filter (fun word => (2 <=? String.length word)%nat)
    (JS.splitWs
       (JS.mapChars (fun c => if isTokenChar c then c else " "%char)
          (JS.toLowerCase text))).

Definition isReservedWord (word : string) : bool :=
  (word =? "constructor") || (word =? "__proto__") || (word =? "prototype").

(** The body of the inner loop of [_buildInvertedIndex] for one word. *)
Definition addPosting (inv : JsObject (list nat)) (docIndex : nat)
    (word : string) : JsObject (list nat) :=
  if isReservedWord word then inv
  else
    let inv := if negb (objHas inv word) then objSet inv word [] else inv in
    match objGet inv word with
    | Some arr =>
        if negb (existsb (Nat.eqb docIndex) arr)
        then objSet inv word (arr ++ [docIndex])%list
        else inv
    | None => inv
    end.

(** The outer loop of [_buildInvertedIndex], from document [docIndex] on. *)
Fixpoint indexDocs (docIndex : nat) (docs : list SearchRecord.t)
    (inv : JsObject (list nat)) : JsObject (list nat) :=
  match docs with
  | [] => inv
  | doc :: docs' =>
      let text := SearchRecord._searchText doc in
      let words := _tokenize text in
      indexDocs (S docIndex) docs'
        (fold_left (fun inv word => addPosting inv docIndex word) words inv)
  end.

(** [_buildInvertedIndex()] *)
Definition _buildInvertedIndex (st : Engine) : Engine :=
  {| index := index st;
     loaded := loaded st;
     indexUrl := indexUrl st;
     invertedIndex := indexDocs 0 (index st) [];
     onReady := onReady st |}.

(** *** Loading *)

(** A parsed body that is not an array of records: [null], or an array
    in which a [null] follows the records [before]; [after] holds the
    elements behind that [null], records or further [null]s. *)
Inductive MalformedIndex :=
| IndexNull
| IndexNullAt (before : list SearchRecord.t)
    (after : list (option SearchRecord.t)).

(** What [response.json()] resolves to: an array of records or a
    malformed value.  A body that parses to a value of yet another shape
    (a number, a string, an object, an array holding such values) is
    outside the model. *)
Inductive JsonBody :=
| JsonRecords (records : list SearchRecord.t)
| JsonMalformed (value : MalformedIndex).

(** What [fetch] and [response.json()] can do: the fetch rejects, or it
    resolves to a response with its [ok] flag whose body either fails to
    parse ([None]) or parses to a value. *)
Inductive FetchOutcome :=
| FetchRejects
| FetchResponse (ok : bool) (json : option JsonBody).

Inductive Effect :=
| EFetch (url : string)
| EConsoleError
| EConsoleLog
| EOnReady.

Inductive Settled := Resolved | Rejected.

(** The engine while [this.index] holds a malformed value. *)
Record MalformedEngine := {
  heldIndex : MalformedIndex;
  heldLoaded : bool;
  heldIndexUrl : string;
  heldInvertedIndex : JsObject (list nat);
  heldOnReady : Callback
}.

(** The engine as [load] leaves it. *)
Inductive EngineState :=
| WellFormed (st : Engine)
| Malformed (st : MalformedEngine).

(** What [_buildInvertedIndex()] makes of the inverted index before it
    throws on a malformed index.  It first replaces the inverted index
    by a new object.  On [null], reading [this.index.length] throws at
    once.  In an array the records before the first [null] are indexed;
    then reading [doc._searchText] of [null] throws. *)
Definition indexedBeforeThrow (value : MalformedIndex) : JsObject (list nat) :=
  match value with
  | IndexNull => []
  | IndexNullAt before _ => indexDocs 0 before []
  end.

(** [load()], run to completion against the given network behaviour; the
    result is how the promise settles, the engine afterwards, and the
    effects performed in order.  [this.index] and [this.loaded] are
    assigned before [_buildInvertedIndex()] and [onReady()] run inside
    the same [try]: when one of the two throws, the [catch] logs and
    rethrows, and the assignments stay. *)
Definition load (st : Engine) (net : string -> FetchOutcome)
  : Settled * EngineState * list Effect :=
  if loaded st then (Resolved, WellFormed st, [])
  else
    match net (indexUrl st) with
    | FetchRejects =>
        (Rejected, WellFormed st, [EFetch (indexUrl st); EConsoleError])
    | FetchResponse ok json =>
        if negb ok
        then (Rejected, WellFormed st, [EFetch (indexUrl st); EConsoleError])
        else
          match json with
          | None =>
              (Rejected, WellFormed st, [EFetch (indexUrl st); EConsoleError])
          | Some (JsonRecords records) =>
              let st := {| index := records; loaded := loaded st;
                           indexUrl := indexUrl st;
                           invertedIndex := invertedIndex st;
                           onReady := onReady st |} in
              let st := {| index := index st; loaded := true;
                           indexUrl := indexUrl st;
                           invertedIndex := invertedIndex st;
                           onReady := onReady st |} in
              let st := _buildInvertedIndex st in
              match onReady st with
              | Returns =>
                  (Resolved, WellFormed st,
                   [EFetch (indexUrl st); EConsoleLog; EOnReady])
              | Throws =>
                  (Rejected, WellFormed st,
                   [EFetch (indexUrl st); EConsoleLog; EOnReady;
                    EConsoleError])
              end
          | Some (JsonMalformed value) =>
              (Rejected,
               Malformed
                 {| heldIndex := value;
                    heldLoaded := true;
                    heldIndexUrl := indexUrl st;
                    heldInvertedIndex := indexedBeforeThrow value;
                    heldOnReady := onReady st |},
               [EFetch (indexUrl st); EConsoleError])
          end
    end.

(** *** Fuzzy matching *)

(** Cells 1.. of one row of the matrix of [_levenshtein], for the
    character [bc] of [b]: [diag] is the cell above-left, [left] the cell
    just computed, [above] the cells of the previous row from the current
    column on. *)
Fixpoint levRow (bc : ascii) (a : string) (diag left : nat) (above : list nat)
  : list nat :=
  match a, above with
  | String ac a', up :: above' =>
      let cell :=
        if Ascii.eqb bc ac then diag
        else Nat.min (diag + 1) (Nat.min (left + 1) (up + 1)) in
      cell :: levRow bc a' up cell above'
  | _, _ => []
  end.

(** Rows [i], [i+1], ... of the matrix, for the remaining characters of
    [b]; [prev] is row [i - 1].  The result is the last row. *)
Fixpoint levRows (a b : string) (i : nat) (prev : list nat) : list nat :=
  match b with
  | EmptyString => prev
  | String bc b' =>
      levRows a b' (S i) (i :: levRow bc a (hd 0 prev) i (tl prev))
  end.

(** [_levenshtein(a, b)] *)
Definition _levenshtein (a b : string) : nat :=
  let row0 := seq 0 (S (String.length a)) in
  last (levRows a b 1 row0) 0.

Definition absDiff (m n : nat) : nat := Nat.max m n - Nat.min m n.

(** [_fuzzyMatch(a, b)].  For two empty strings [distance / maxLength] is
    [0 / 0], a NaN, and the comparison is false.  Otherwise the quotient
    is taken in [Q].  The doubles give the same answer for strings shorter
    than 2^48: a quotient equal to 2/5 rounds to the double of the literal
    [0.4], so both sides of [>=] are the same double; any other quotient
    differs from 2/5 by at least [1 / (5 * maxLength)], far more than the
    rounding of the division and the two subtractions. *)
Definition _fuzzyMatch (a b : string) : bool :=
  if (2 <? absDiff (String.length a) (String.length b))%nat then false
  else
    let distance := _levenshtein a b in
    let maxLength := Nat.max (String.length a) (String.length b) in
    if (maxLength =? 0)%nat then false
    else
      let similarity :=
        (1 - inject_Z (Z.of_nat distance) / inject_Z (Z.of_nat maxLength))%Q in
      Qle_bool (1 - fuzzyThreshold config)%Q similarity.

(** *** Candidate expansion *)

(** [candidates.add(idx)] on a [Set], kept in insertion order. *)
Definition setAdd (candidates : list nat) (idx : nat) : list nat :=
  if existsb (Nat.eqb idx) candidates then candidates
  else (candidates ++ [idx])%list.

(** [this.invertedIndex[w].forEach(idx => candidates.add(idx))] *)
Definition addPostings (inv : JsObject (list nat)) (w : string)
    (candidates : list nat) : list nat :=
  match objGet inv w with
  | Some arr => fold_left setAdd arr candidates
  | None => candidates
  end.

(** The body of [queryTerms.forEach] in [_findCandidates]. *)
Definition expandTerm (inv : JsObject (list nat)) (candidates : list nat)
    (term : string) : list nat :=
  (* exact matches *)
  let candidates := addPostings inv term candidates in
  (* prefix matches *)
  let candidates :=
    fold_left
      (fun candidates indexedWord =>
         if JS.startsWith indexedWord term || JS.startsWith term indexedWord
         then addPostings inv indexedWord candidates else candidates)
      (objKeys inv) candidates in
  (* fuzzy matches for longer terms *)
  if (4 <=? String.length term)%nat then
    fold_left
      (fun candidates indexedWord =>
         if _fuzzyMatch term indexedWord
         then addPostings inv indexedWord candidates else candidates)
      (objKeys inv) candidates
  else candidates.

(** [_findCandidates(queryTerms)] *)
Definition _findCandidates (st : Engine) (queryTerms : list string) : list nat :=
  fold_left (expandTerm (invertedIndex st)) queryTerms [].

(** *** Scoring *)

(** The body of [queryTerms.forEach] in [_scoreDocument].  The query
    terms come from [_tokenize], so [new RegExp(term, 'g')] matches the
    literal text of the term. *)
Definition scoreTerm (title heading content breadcrumb : string) (score : Q)
    (term : string) : Q :=
  (* title matches *)
  let score :=
    if JS.includes title term then
      let score := (score + w_title (fieldWeights config))%Q in
      if JS.startsWith title term then (score + 15)%Q else score
    else score in
  (* heading matches *)
  let score :=
    if JS.truthy heading && JS.includes heading term
    then (score + w_heading (fieldWeights config))%Q else score in
  (* content matches *)
  let score :=
    if JS.includes content term then
      let score := (score + w_content (fieldWeights config))%Q in
      let count := JS.countMatches term content in
      (score + Qmin (inject_Z (Z.of_nat count) * (1 # 2)) 5)%Q
    else score in
  (* breadcrumb matches *)
  if JS.includes breadcrumb term
  then (score + w_breadcrumb (fieldWeights config))%Q else score.

(** [_scoreDocument(doc, queryTerms, fullQuery)].  The score is a
    rational.  The sums of the source are exact in doubles (multiples of
    0.5); its two multiplications round, so two scores that are equal or
    differ by less than the rounding may compare differently in the
    source; the statements below never rest on such a comparison. *)
Definition _scoreDocument (doc : SearchRecord.t) (queryTerms : list string)
    (fullQuery : string) : Q :=
  let score := 0%Q in
  let title := JS.toLowerCase (SearchRecord.title doc) in
  let heading := JS.toLowerCase (Indexer.orElse (SearchRecord.heading doc) "") in
  let content :=
    JS.toLowerCase
      (if JS.truthy (SearchRecord.fullContent doc)
       then SearchRecord.fullContent doc else SearchRecord.content doc) in
  let breadcrumb := JS.toLowerCase (JS.join " " (SearchRecord.breadcrumb doc)) in
  (* exact phrase match bonus *)
  let score := if JS.includes title fullQuery then (score + 100)%Q else score in
  let score := if JS.includes heading fullQuery then (score + 80)%Q else score in
  (* per-term scoring *)
  let score := fold_left (scoreTerm title heading content breadcrumb)
                 queryTerms score in
  (* boost shorter titles *)
  let score :=
    if (String.length title <? 30)%nat then (score * (12 # 10))%Q else score in
  (* boost heading level 1 & 2 *)
  if negb (SearchRecord.headingLevel doc =? 0)%nat
     && (SearchRecord.headingLevel doc <=? 2)%nat
  then (score * (11 # 10))%Q else score.

(** *** Searching *)

Module SearchOptions.
Record t := {
  version : option string;
  category : option string;
  maxResults : option nat
}.
End SearchOptions.

(** [x || null] for an optional string: the filter that is in force. *)
Definition orNull (x : option string) : option string :=
  match x with
  | Some s => if JS.truthy s then Some s else None
  | None => None
  end.

(** A returned record: the fields of the stored record, spread into a new
    object, and the injected [_score]. *)
Record SearchResult := {
  doc : SearchRecord.t;
  _score : Q
}.

(** A call either returns a value or throws. *)
Inductive Completion (A : Type) :=
| Return (a : A)
| Throw.
Arguments Return {A} a.
Arguments Throw {A}.

(** The callback of [candidates.map] in [search]: [None] is the [null] of
    a filtered-out record.  Reading a property of [this.index[docIndex]]
    throws when the index has no such position. *)
Definition scoreCandidate (st : Engine)
    (filterVersion filterCategory : option string)
    (queryTerms : list string) (query : string) (docIndex : nat)
  : Completion (option (SearchRecord.t * Q)) :=
  match nth_error (index st) docIndex with
  | None => Throw
  | Some doc =>
      if match filterVersion with
         | Some v => negb (SearchRecord.version doc =? v)
         | None => false
         end
      then Return None
      else if match filterCategory with
              | Some c => negb (SearchRecord.category doc =? c)
              | None => false
              end
      then Return None
      else Return (Some (doc, _scoreDocument doc queryTerms query))
  end.

(** [candidates.map(...)], stopping at the first callback that throws. *)
Fixpoint mapCandidates {A B} (f : A -> Completion B) (l : list A)
  : Completion (list B) :=
  match l with
  | [] => Return []
  | x :: l' =>
      match f x with
      | Throw => Throw
      | Return y =>
          match mapCandidates f l' with
          | Throw => Throw
          | Return ys => Return (y :: ys)
          end
      end
  end.

(** [.filter(Boolean)] *)
Fixpoint filterBoolean {A} (l : list (option A)) : list A :=
  match l with
  | [] => []
  | Some x :: l' => x :: filterBoolean l'
  | None :: l' => filterBoolean l'
  end.

(** [scored.sort((a, b) => b.score - a.score)]: a stable sort; [a] stays
    before [b] unless the comparator is positive. *)
Fixpoint insertScored (a : SearchRecord.t * Q)
    (sorted : list (SearchRecord.t * Q)) : list (SearchRecord.t * Q) :=
  match sorted with
  | [] => [a]
  | b :: rest =>
      if Qle_bool (snd b - snd a)%Q 0 then a :: sorted
      else b :: insertScored a rest
  end.

Definition sortScored (scored : list (SearchRecord.t * Q))
  : list (SearchRecord.t * Q) :=
  fold_right insertScored [] scored.

(** [search(query, options)]; [query] is [None] for [null] or [undefined]. *)
Definition search (st : Engine) (query : option string)
    (options : SearchOptions.t) : Completion (list SearchResult) :=
  if negb (loaded st) then Return []
  else
    let query := JS.toLowerCase (JS.trim (Indexer.orElse query "")) in
    if (String.length query <? minQueryLength config)%nat then Return []
    else
      let filterVersion := orNull (SearchOptions.version options) in
      let filterCategory := orNull (SearchOptions.category options) in
      let maxResults :=
        match SearchOptions.maxResults options with
        | Some (S n) => S n
        | _ => maxResults config
        end in
      let queryTerms := _tokenize query in
      if (List.length queryTerms =? 0)%nat then Return []
      else
        let candidates := _findCandidates st queryTerms in
        match mapCandidates
                (scoreCandidate st filterVersion filterCategory queryTerms query)
                candidates with
        | Throw => Throw
        | Return scored =>
            let scored := sortScored (filterBoolean scored) in
            Return (map (fun item => {| doc := fst item; _score := snd item |})
                      (firstn maxResults scored))
        end.

(** *** Facets and highlighting *)

(** [[...new Set(values)]]: the distinct values, in order of first
    occurrence. *)
Definition distinct (values : list string) : list string :=
  fold_left
    (fun seen v => if existsb (String.eqb v) seen then seen
                   else (seen ++ [v])%list)
    values [].

(** [values.sort()] on strings: ascending by code units, stable. *)
Fixpoint insertString (a : string) (sorted : list string) : list string :=
  match sorted with
  | [] => [a]
  | b :: rest =>
      if (a <=? b)%string then a :: sorted else b :: insertString a rest
  end.

Definition sortStrings (values : list string) : list string :=
  fold_right insertString [] values.

(** [getCategories()] *)
Definition getCategories (st : Engine) : list string :=
  if negb (loaded st) then []
  else sortStrings (distinct (map SearchRecord.category (index st))).

(** [getVersions()] *)
Definition getVersions (st : Engine) : list string :=
  if negb (loaded st) then []
  else sortStrings (distinct (map SearchRecord.version (index st))).

Definition isRegexSpecial (c : ascii) : bool :=
  existsb (Ascii.eqb c)
    ["."; "*"; "+"; "?"; "^"; "$"; "{"; "}"; "("; ")"; "|"; "["; "]"; "\"]%char.

(** [_escapeRegex(str)]: a backslash before every special character. *)
Fixpoint _escapeRegex (str : string) : string :=
  match str with
  | EmptyString => EmptyString
  | String c str' =>
      if isRegexSpecial c then String "\" (String c (_escapeRegex str'))
      else String c (_escapeRegex str')
  end.

(** [term] matches at the start of [s] under the [i] flag: code units
    below 256 are equal up to case when their lowercase forms are. *)
Fixpoint prefixIgnoreCase (term s : string) : bool :=
  match term, s with
  | EmptyString, _ => true
  | String a term', String b s' =>
      Ascii.eqb (JS.toLowerChar a) (JS.toLowerChar b)
      && prefixIgnoreCase term' s'
  | String _ _, EmptyString => false
  end.

(** The replacement of the matches of a non-empty literal [term] by
    [opening ++ match ++ closing], scanning left to right; [skip] is the
    number of characters of the current match still to be copied. *)
Fixpoint wrapFrom (term opening closing : string) (skip : nat) (s : string)
  : string :=
  match s with
  | EmptyString => EmptyString
  | String c s' =>
      match skip with
      | S k =>
          String c ((if (k =? 0)%nat then closing else "")
                    ++ wrapFrom term opening closing k s')
      | O =>
          if prefixIgnoreCase term s
          then opening
               ++ String c
                    ((if (String.length term =? 1)%nat then closing else "")
                     ++ wrapFrom term opening closing
                          (String.length term - 1) s')
          else String c (wrapFrom term opening closing 0 s')
      end
  end.

(** The same for the empty pattern, which matches before every character
    and at the end. *)
Fixpoint wrapEverywhere (both : string) (s : string) : string :=
  match s with
  | EmptyString => both
  | String c s' => both ++ String c (wrapEverywhere both s')
  end.

(** [result.replace(new RegExp(`(${this._escapeRegex(term)})`, 'gi'),
    `<${tag}>$1</${tag}>`)]: the escaped term is a pattern that matches
    the text of [term]; [tag] is taken without a dollar sign, so that
    [$1] is the only substitution of the replacement string. *)
Definition wrapMatches (term tag result : string) : string :=
  let opening := "<" ++ tag ++ ">" in
  let closing := "</" ++ tag ++ ">" in
  if term =? "" then wrapEverywhere (opening ++ closing) result
  else wrapFrom term opening closing 0 result.

(** [highlight(text, query, tag)] *)
Definition highlight (text query tag : string) : string :=
  if negb (JS.truthy text) || negb (JS.truthy query) then text
  else
    let terms := _tokenize query in
    fold_left (fun result term => wrapMatches term tag result) terms text.

End MagnoliaSearch.

(** ** The indexer: search records *)

Module IndexerRecords.

Import Indexer.

Section Records.

Variable md5hex12 : string -> string.

(** [[...].filter(Boolean)] on optional strings. *)
Fixpoint filterTruthy (l : list (option string)) : list string :=
  match l with
  | [] => []
  | Some s :: l' => if JS.truthy s then s :: filterTruthy l' else filterTruthy l'
  | None :: l' => filterTruthy l'
  end.

(** [createSearchRecord(metadata, section, url)] *)
Definition createSearchRecord (metadata : PageMetadata.t)
    (section : PageSection.t) (url : string) : MagnoliaSearch.SearchRecord.t :=
  let fullUrl :=
    if JS.truthy (PageSection.anchor section)
    then url ++ "#" ++ PageSection.anchor section else url in
  let id := md5hex12 fullUrl in
  let searchableText :=
    JS.toLowerCase
      (JS.join " "
         (filterTruthy [ Some (PageMetadata.title metadata);
                         PageSection.heading section;
                         Some (PageSection.content section) ])) in
  {| MagnoliaSearch.SearchRecord.id := id;
     MagnoliaSearch.SearchRecord.url := fullUrl;
     MagnoliaSearch.SearchRecord.title := PageMetadata.title metadata;
     MagnoliaSearch.SearchRecord.heading := PageSection.heading section;
     MagnoliaSearch.SearchRecord.headingLevel := PageSection.headingLevel section;
     MagnoliaSearch.SearchRecord.content := PageSection.contentPreview section;
     MagnoliaSearch.SearchRecord.fullContent := PageSection.content section;
     MagnoliaSearch.SearchRecord.category := PageMetadata.category metadata;
     MagnoliaSearch.SearchRecord.version := PageMetadata.version metadata;
     MagnoliaSearch.SearchRecord.breadcrumb := PageMetadata.breadcrumb metadata;
     MagnoliaSearch.SearchRecord._searchText := searchableText |}.

End Records.

End IndexerRecords.

(** ** The AI assistant: context assembly *)

Module MagnoliaAI.

Record Config := {
  maxContextChunks : nat;
  maxContextTokens : Z;
  minRelevanceScore : Q
}.

(** The configuration the constructor sets; no method writes to it. *)
Definition config : Config :=
  {| maxContextChunks := 5;
     maxContextTokens := 8000;
     minRelevanceScore := (3 # 10)%Q |}.

(** An element of the list [findRelevantChunks] returns. *)
Record Relevant := {
  chunk : Indexer.LlmChunk.t;
  score : Q
}.

Record Source := {
  title : string;
  url : string
}.

Record Context := {
  context : string;
  tokenEstimate : Z;
  sources : list Source
}.

(** The separator put before every chunk: two line feeds, a rule, two
    line feeds. *)
Definition separator : string :=
  String "010" (String "010" ("---" ++ String "010" (String "010" ""))).

(** The [for ... of] loop of [buildContext], with its [break]. *)
Fixpoint contextLoop (chunks : list Indexer.LlmChunk.t) (context : string)
    (totalTokens : Z) : string * Z :=
  match chunks with
  | [] => (context, totalTokens)
  | chunk :: rest =>
      if (totalTokens + Indexer.LlmChunk.tokenEstimate chunk
            >? maxContextTokens config)%Z
      then (context, totalTokens)
      else contextLoop rest
             (context ++ separator ++ Indexer.LlmChunk.content chunk)
             (totalTokens + Indexer.LlmChunk.tokenEstimate chunk)%Z
  end.

(** [buildContext(relevantChunks)] *)
Definition buildContext (relevantChunks : list Relevant) : Context :=
  let chunks := map chunk relevantChunks in
  let (context, totalTokens) := contextLoop chunks "" 0%Z in
  {| context := JS.trim context;
     tokenEstimate := totalTokens;
     sources :=
       map (fun c => {| title := Indexer.LlmChunk.title c;
                        url := Indexer.LlmChunk.url c |}) chunks |}.

(** *** Keywords *)

(** The stop words of [_extractKeywords]. *)
Definition stopwords : list string :=
  [ "the"; "a"; "an"; "and"; "or"; "but"; "in"; "on"; "at"; "to"; "for";
    "of"; "with"; "by"; "from"; "as"; "is"; "was"; "are"; "were"; "been";
    "be"; "have"; "has"; "had"; "do"; "does"; "did"; "will"; "would";
    "could"; "should"; "may"; "might"; "must"; "can"; "this"; "that";
    "these"; "those"; "it"; "its"; "you"; "your"; "we"; "our"; "they";
    "their"; "which"; "what"; "who"; "when"; "where"; "how"; "all";
    "each"; "every"; "both"; "few"; "more"; "most"; "other"; "some";
    "such"; "no"; "not"; "only"; "same"; "so"; "than"; "too"; "very" ].

(** The constant [words] of [_extractKeywords]:
    [text.replace(/[^a-z0-9\s]/g, ' ').split(/\s+/)
       .filter(word => word.length >= 3 && !stopwords.has(word))]. *)
Definition keywordWords (text : string) : list string :=
  filter
    (fun word =>
       (3 <=? String.length word)%nat
       && negb (existsb (String.eqb word) stopwords))
    (JS.splitWs
       (JS.mapChars
          (fun c => if MagnoliaSearch.isTokenChar c then c else " "%char)
          text)).

(** [freq[word] = (freq[word] || 0) + 1] for a word that [freq] holds as
    an own property or that is no property at all. *)
Definition countWord (freq : MagnoliaSearch.JsObject nat) (word : string)
  : MagnoliaSearch.JsObject nat :=
  match MagnoliaSearch.objGet freq word with
  | Some n => MagnoliaSearch.objSet freq word (n + 1)
  | None => MagnoliaSearch.objSet freq word 1
  end.

(** [Object.entries(o)]: the entries in the order of [Object.keys]. *)
Definition objEntries {A} (o : MagnoliaSearch.JsObject A) : list (string * A) :=
  flat_map
    (fun k => match MagnoliaSearch.objGet o k with
              | Some v => [(k, v)]
              | None => []
              end)
    (MagnoliaSearch.objKeys o).

(** [entries.sort((a, b) => b[1] - a[1])] on numeric counts: a stable
    sort; [a] stays before [b] unless the comparator is positive. *)
Fixpoint insertEntry (a : string * nat) (sorted : list (string * nat))
  : list (string * nat) :=
  match sorted with
  | [] => [a]
  | b :: rest =>
      if (snd b <=? snd a)%nat then a :: sorted
      else b :: insertEntry a rest
  end.

Definition sortEntries (entries : list (string * nat)) : list (string * nat) :=
  fold_right insertEntry [] entries.

(** [_extractKeywords(text)].  [freq] is an ordinary object: for the
    word [constructor], the only property name of [Object.prototype]
    that consists of lower-case letters, [freq[word]] reads the
    inherited function, the count becomes a string and the comparator
    of the sort returns [NaN]; the order of the result is then left to
    the engine's sorting algorithm.  The model returns [None] for such
    a text. *)
Definition _extractKeywords (text : string) : option (list string) :=
  let words := keywordWords text in
  if existsb (String.eqb "constructor") words then None
  else
    let freq := fold_left countWord words [] in
    Some (map fst (firstn 50 (sortEntries (objEntries freq)))).

End MagnoliaAI.

(** ** Specification predicates *)

Module Coverage.

Import Indexer.

(** The [len] sections of a page from index [start] on. *)
Definition sectionSlice (sections : list PageSection.t) (start len : nat)
  : list PageSection.t :=
  firstn len (skipn start sections).

(** Chunk [c] is the chunk number [k] of a split page and holds exactly
    the [len] sections from index [start] on: its index fields say so and
    its content is built from those sections under the page header. *)
Definition coversRange (header : string) (sections : list PageSection.t)
    (c : LlmChunk.t) (k start len : nat) : Prop :=
  (0 < len)%nat
  /\ LlmChunk.chunkIndex c = Some (Z.of_nat k)
  /\ LlmChunk.sectionStartIndex c = Some (Z.of_nat start)
  /\ LlmChunk.sectionEndIndex c = Some (Z.of_nat (start + len) - 1)%Z
  /\ LlmChunk.content c
     = buildChunkContent header (sectionSlice sections start len).

(** The chunks, numbered from [k], hold consecutive non-empty ranges of
    sections of the lengths [lens], the first starting at index [start]
    and the last ending just before index [stop]. *)
Fixpoint tiles (header : string) (sections : list PageSection.t)
    (k start : nat) (chunks : list LlmChunk.t) (lens : list nat) (stop : nat)
  : Prop :=
  match chunks, lens with
  | [], [] => start = stop
  | c :: chunks', len :: lens' =>
      coversRange header sections c k start len
      /\ tiles header sections (S k) (start + len) chunks' lens' stop
  | _, _ => False
  end.

(** The consecutive slices of the lengths [lens], from index [start]
    on. *)
Fixpoint slices (sections : list PageSection.t) (start : nat)
    (lens : list nat) : list (list PageSection.t) :=
  match lens with
  | [] => []
  | len :: lens' =>
      sectionSlice sections start len :: slices sections (start + len) lens'
  end.

(** The single chunk of an unsplit page holds all its sections and has no
    index fields. *)
Definition holdsWholePage (header : string) (sections : list PageSection.t)
    (c : LlmChunk.t) : Prop :=
  LlmChunk.content c = buildChunkContent header sections
  /\ LlmChunk.chunkIndex c = None
  /\ LlmChunk.chunkTotal c = None
  /\ LlmChunk.sectionStartIndex c = None
  /\ LlmChunk.sectionEndIndex c = None.

(** The state of the splitting loop once the sections [done] have been
    visited: the closed chunks tile the sections before the current chunk,
    and the current chunk holds the sections after them. *)
Definition splitInv (header : string) (secs done : list PageSection.t)
    (st : list LlmChunk.t * CurrentChunk) : Prop :=
  exists pre lens,
    done = (pre ++ sections (snd st))%list
    /\ startIndex (snd st) = List.length pre
    /\ tiles header secs 0 0 (fst st) lens (List.length pre)
    /\ (sections (snd st) = [] -> done = [] /\ fst st = []).

(** As long as no chunk has been closed, the current chunk carries the
    header and every section visited so far; and once a section has been
    visited the current chunk is never empty. *)
Definition firstChunkInv (headerTokens : Z) (done : list PageSection.t)
    (st : list LlmChunk.t * CurrentChunk) : Prop :=
  (done <> [] -> sections (snd st) <> [])
  /\ (fst st = [] -> tokens (snd st) = pageTokens headerTokens done).

End Coverage.

(** ** Specification predicates of the search client *)

Module Expansion.

Import MagnoliaSearch.

(** Record position [idx] is listed under the indexed term [w]. *)
Definition posting (inv : JsObject (list nat)) (w : string) (idx : nat) : Prop :=
  exists arr, objGet inv w = Some arr /\ In idx arr.

(** One of the two terms is a prefix of the other. *)
Definition prefixRelated (term w : string) : Prop :=
  JS.startsWith w term = true \/ JS.startsWith term w = true.

(** The Levenshtein distance of two texts given by their characters, by
    the classic recurrence: the distance to the empty text is the length;
    equal first characters cost nothing; otherwise substituting, deleting
    or inserting a character costs 1.  On the characters taken from the
    last to the first it is the recurrence over prefixes, which gives the
    same distance. *)
Fixpoint editDistance (ra : list ascii) : list ascii -> nat :=
  fix against (rb : list ascii) : nat :=
    match ra, rb with
    | [], _ => List.length rb
    | _, [] => List.length ra
    | x :: ra', y :: rb' =>
        if Ascii.eqb y x then editDistance ra' rb'
        else Nat.min (editDistance ra' rb' + 1)
               (Nat.min (editDistance ra' rb + 1) (against rb' + 1))
    end.

(** The non-empty prefixes of [pre ++ suf] that extend [pre], shortest
    first, each reversed; [rpre] is [pre] reversed. *)
Fixpoint prefixesFrom (rpre : list ascii) (suf : string) : list (list ascii) :=
  match suf with
  | EmptyString => []
  | String c suf' => (c :: rpre) :: prefixesFrom (c :: rpre) suf'
  end.

(** The row of the matrix for the prefix of [b] given reversed as [rb]:
    the distances from every prefix of [a], the empty one first. *)
Definition matrixRow (a : string) (rb : list ascii) : list nat :=
  editDistance [] rb :: map (fun rp => editDistance rp rb) (prefixesFrom [] a).

(** The characters of a string, last first. *)
Definition reversed (s : string) : list ascii := rev (list_ascii_of_string s).

(** The Levenshtein distance of two strings. *)
Definition levenshteinDistance (a b : string) : nat :=
  editDistance (list_ascii_of_string a) (list_ascii_of_string b).

(** The documented fuzzy rule: the query token has at least 4 characters,
    the lengths differ by at most 2, and the Levenshtein distance divided
    by the longer length is at most 0.4. *)
Definition fuzzyRule (q w : string) : Prop :=
  (4 <= String.length q)%nat
  /\ (absDiff (String.length q) (String.length w) <= 2)%nat
  /\ (inject_Z (Z.of_nat (levenshteinDistance q w))
      / inject_Z (Z.of_nat (Nat.max (String.length q) (String.length w)))
      <= 4 # 10)%Q.

End Expansion.

Module Scoring.

Import MagnoliaSearch.

(** The fields [_scoreDocument] reads, lowercased as it reads them. *)
Definition lowerTitle (d : SearchRecord.t) : string :=
  JS.toLowerCase (SearchRecord.title d).

Definition lowerHeading (d : SearchRecord.t) : string :=
  JS.toLowerCase (Indexer.orElse (SearchRecord.heading d) "").

Definition lowerContent (d : SearchRecord.t) : string :=
  JS.toLowerCase
    (if JS.truthy (SearchRecord.fullContent d)
     then SearchRecord.fullContent d else SearchRecord.content d).

Definition lowerBreadcrumb (d : SearchRecord.t) : string :=
  JS.toLowerCase (JS.join " " (SearchRecord.breadcrumb d)).

(** The sum of the per-token contributions of a document. *)
Definition perTokenTotal (d : SearchRecord.t) (queryTerms : list string) : Q :=
  fold_left
    (scoreTerm (lowerTitle d) (lowerHeading d) (lowerContent d)
       (lowerBreadcrumb d))
    queryTerms 0%Q.

(** The bonus [_scoreDocument] gives for the full query in the heading. *)
Definition headingBonus (d : SearchRecord.t) (fullQuery : string) : Q :=
  if JS.includes (lowerHeading d) fullQuery then 80%Q else 0%Q.

(** Two records that agree on every field but the title. *)
Definition sameExceptTitle (d1 d2 : SearchRecord.t) : Prop :=
  SearchRecord.id d1 = SearchRecord.id d2
  /\ SearchRecord.url d1 = SearchRecord.url d2
  /\ SearchRecord.heading d1 = SearchRecord.heading d2
  /\ SearchRecord.headingLevel d1 = SearchRecord.headingLevel d2
  /\ SearchRecord.content d1 = SearchRecord.content d2
  /\ SearchRecord.fullContent d1 = SearchRecord.fullContent d2
  /\ SearchRecord.category d1 = SearchRecord.category d2
  /\ SearchRecord.version d1 = SearchRecord.version d2
  /\ SearchRecord.breadcrumb d1 = SearchRecord.breadcrumb d2
  /\ SearchRecord._searchText d1 = SearchRecord._searchText d2.

End Scoring.

Module Consistency.

Import MagnoliaSearch.

(** Every position listed in the inverted index is a position of the
    record array. *)
Definition postingsInRange (st : Engine) : Prop :=
  forall w arr idx,
    objGet (invertedIndex st) w = Some arr -> In idx arr ->
    (idx < List.length (index st))%nat.

(** The ways a fetch fails to deliver the index: the request fails, the
    response is not a success, or the body does not parse. *)
Definition fetchFails (o : FetchOutcome) : Prop :=
  o = FetchRejects
  \/ (exists json, o = FetchResponse false json)
  \/ (exists ok, o = FetchResponse ok None).

(** The engine of a state in which the index is an array of records; a
    new engine stands for the others. *)
Definition engineOf (state : EngineState) : Engine :=
  match state with
  | WellFormed st => st
  | Malformed _ => newEngine None
  end.

(** No position is listed twice under a word. *)
Definition postingsDistinct (inv : JsObject (list nat)) : Prop :=
  forall w arr, objGet inv w = Some arr -> NoDup arr.

(** All positions listed in [inv] are below [n]. *)
Definition postingsBelow (n : nat) (inv : JsObject (list nat)) : Prop :=
  forall w arr idx, objGet inv w = Some arr -> In idx arr -> (idx < n)%nat.

End Consistency.

Module Assembly.

Import MagnoliaAI.

(** The text of a list of chunks: every content preceded by the
    separator. *)
Fixpoint renderChunks (chunks : list Indexer.LlmChunk.t) : string :=
  match chunks with
  | [] => ""
  | c :: rest => separator ++ Indexer.LlmChunk.content c ++ renderChunks rest
  end.

(** The sum of the token estimates of a list of chunks. *)
Definition sumTokens (chunks : list Indexer.LlmChunk.t) : Z :=
  fold_right (fun c acc => (Indexer.LlmChunk.tokenEstimate c + acc)%Z) 0%Z
    chunks.

(** A text that is not empty and does not end in white space, as
    [buildChunkContent] produces it. *)
Definition endsClean (s : string) : Prop :=
  s <> "" /\ JS.trimEnd s = s.

(** The text of a list of chunks without the two line feeds that lead
    it. *)
Definition ruleThenChunks (chunks : list Indexer.LlmChunk.t) : string :=
  match chunks with
  | [] => ""
  | c :: rest =>
      "---" ++ String "010" (String "010" "")
      ++ Indexer.LlmChunk.content c ++ renderChunks rest
  end.

(** The citation of a chunk. *)
Definition sourceOf (c : Indexer.LlmChunk.t) : Source :=
  {| title := Indexer.LlmChunk.title c; url := Indexer.LlmChunk.url c |}.

End Assembly.

(** ** Specification predicates of the chunk budget *)

Module Budget.

Import Indexer Coverage.

(** The summed estimates of some sections. *)
Definition sectionTokens (ss : list PageSection.t) : Z :=
  fold_right (fun section total => (estimateSectionTokens section + total)%Z)
    0%Z ss.

(** A group of two or more sections stays, with the header, within the
    budget of a chunk. *)
Definition withinBudget (headerTokens : Z) (ss : list PageSection.t) : Prop :=
  (2 <= List.length ss)%nat ->
  (headerTokens + sectionTokens ss <= MAX_CHUNK_TOKENS)%Z.

(** The [len] sections from index [start] on are followed by a section
    that would take them, with the header, over the budget. *)
Definition full (headerTokens : Z) (secs : list PageSection.t)
    (start len : nat) : Prop :=
  exists next,
    nth_error secs (start + len) = Some next
    /\ (MAX_CHUNK_TOKENS
        < headerTokens + sectionTokens (sectionSlice secs start len)
          + estimateSectionTokens next)%Z.

(** Every one of the consecutive slices of the lengths [lens] is within
    the budget and full. *)
Fixpoint closed (headerTokens : Z) (secs : list PageSection.t) (start : nat)
    (lens : list nat) : Prop :=
  match lens with
  | [] => True
  | len :: lens' =>
      withinBudget headerTokens (sectionSlice secs start len)
      /\ full headerTokens secs start len
      /\ closed headerTokens secs (start + len) lens'
  end.

(** Every one of the consecutive slices of the lengths [lens] is within
    the budget, and every one but the last is full. *)
Fixpoint packed (headerTokens : Z) (secs : list PageSection.t) (start : nat)
    (lens : list nat) : Prop :=
  match lens with
  | [] => True
  | len :: lens' =>
      withinBudget headerTokens (sectionSlice secs start len)
      /\ (lens' <> [] -> full headerTokens secs start len)
      /\ packed headerTokens secs (start + len) lens'
  end.

(** The state of the splitting loop once the sections [done] have been
    visited: the closed chunks tile the sections before the current
    chunk, each within the budget and full; the current chunk holds the
    sections after them, its running total is the header plus their
    estimates, and it is within the budget. *)
Definition packInv (header : string) (headerTokens : Z)
    (secs done : list PageSection.t) (st : list LlmChunk.t * CurrentChunk)
  : Prop :=
  exists pre lens,
    done = (pre ++ sections (snd st))%list
    /\ startIndex (snd st) = List.length pre
    /\ tiles header secs 0 0 (fst st) lens (List.length pre)
    /\ (sections (snd st) = [] -> done = [] /\ fst st = [])
    /\ closed headerTokens secs 0 lens
    /\ tokens (snd st)
       = (headerTokens + sectionTokens (sections (snd st)))%Z
    /\ withinBudget headerTokens (sections (snd st)).

(** The chunk at position [j] carries the index [j], also as the suffix
    of its id. *)
Definition numbered (baseId : string) (chunks : list LlmChunk.t) : Prop :=
  forall j c,
    nth_error chunks j = Some c ->
    LlmChunk.id c = baseId ++ "-" ++ JS.ofNat j
    /\ LlmChunk.chunkIndex c = Some (Z.of_nat j).

End Budget.

(** ** Sample data *)

Module Samples.

Import Indexer.

(** A reference page with one heading followed by 24 code samples, hence
    with a single section: 1695 estimated tokens, 1710 with the header. *)
Definition codePageMetadata : PageMetadata.t :=
  {| PageMetadata.title := "Maven commands";
     PageMetadata.category := "Modules";
     PageMetadata.version := "modules";
     PageMetadata.breadcrumb := [];
     PageMetadata.description := "" |}.

Definition codePageUrl : string := "https://docs.magnolia-cms.com/modules/maven/".

Definition codePageSection : PageSection.t :=
  let text := JS.join " " (repeat "[Code] mvn clean install" 24) in
  {| PageSection.heading := Some "Maven commands";
     PageSection.headingLevel := 1;
     PageSection.anchor := "maven-commands";
     PageSection.content := text;
     PageSection.contentPreview := substring 0 150 text ++ "..." |}.

(** A query that repeats one token thirty times, a record whose title is
    that query, and the same record with the short title [ab]. *)
Definition repeatedQuery : string := JS.join " " (repeat "ab" 30).

Definition recordTitled (title : string) : MagnoliaSearch.SearchRecord.t :=
  {| MagnoliaSearch.SearchRecord.id := "0123456789ab";
     MagnoliaSearch.SearchRecord.url := "https://docs.magnolia-cms.com/ab/";
     MagnoliaSearch.SearchRecord.title := title;
     MagnoliaSearch.SearchRecord.heading := None;
     MagnoliaSearch.SearchRecord.headingLevel := 0;
     MagnoliaSearch.SearchRecord.content := "";
     MagnoliaSearch.SearchRecord.fullContent := "";
     MagnoliaSearch.SearchRecord.category := "Modules";
     MagnoliaSearch.SearchRecord.version := "modules";
     MagnoliaSearch.SearchRecord.breadcrumb := [];
     MagnoliaSearch.SearchRecord._searchText := "" |}.

(** Three records of a small index. *)
Definition sampleRecord (title content version searchText : string)
  : MagnoliaSearch.SearchRecord.t :=
  {| MagnoliaSearch.SearchRecord.id := "0123456789ab";
     MagnoliaSearch.SearchRecord.url := "https://docs.magnolia-cms.com/cli/";
     MagnoliaSearch.SearchRecord.title := title;
     MagnoliaSearch.SearchRecord.heading := Some "Prerequisites";
     MagnoliaSearch.SearchRecord.headingLevel := 2;
     MagnoliaSearch.SearchRecord.content := content;
     MagnoliaSearch.SearchRecord.fullContent := content;
     MagnoliaSearch.SearchRecord.category := "Magnolia " ++ version;
     MagnoliaSearch.SearchRecord.version := version;
     MagnoliaSearch.SearchRecord.breadcrumb := ["Developing"; "CLI"];
     MagnoliaSearch.SearchRecord._searchText := searchText |}.

Definition sampleIndex : list MagnoliaSearch.SearchRecord.t :=
  [ sampleRecord "Installing Magnolia CLI"
      "You need Java 17 and Maven installed." "6.3"
      "installing magnolia cli prerequisites you need java 17 and maven installed.";
    sampleRecord "Installing Magnolia CLI"
      "You need Java 11 and Maven installed." "6.2"
      "installing magnolia cli prerequisites you need java 11 and maven installed.";
    sampleRecord "Java modules"
      "Write modules in Java." "6.3"
      "java modules prerequisites write modules in java." ].

(** A network that serves [sampleIndex]. *)
Definition sampleNet (url : string) : MagnoliaSearch.FetchOutcome :=
  MagnoliaSearch.FetchResponse true
    (Some (MagnoliaSearch.JsonRecords sampleIndex)).

(** A network whose response body is [null]; the sample index with its
    second record replaced by [null], and a network that serves it. *)
Definition nullNet (url : string) : MagnoliaSearch.FetchOutcome :=
  MagnoliaSearch.FetchResponse true
    (Some (MagnoliaSearch.JsonMalformed MagnoliaSearch.IndexNull)).

Definition nullRecordIndex : MagnoliaSearch.MalformedIndex :=
  MagnoliaSearch.IndexNullAt (firstn 1 sampleIndex)
    (map Some (skipn 2 sampleIndex)).

Definition nullRecordNet (url : string) : MagnoliaSearch.FetchOutcome :=
  MagnoliaSearch.FetchResponse true
    (Some (MagnoliaSearch.JsonMalformed nullRecordIndex)).

(** The engine after [load] from [sampleNet]. *)
Definition sampleEngine : MagnoliaSearch.Engine :=
  Consistency.engineOf
    (snd (fst (MagnoliaSearch.load (MagnoliaSearch.newEngine None) sampleNet))).

(** A chunk as [llm-chunks.json] holds it, and a ranked list of two
    chunks of 5000 tokens each. *)
Definition sampleChunk (title content : string) (tokenEstimate : Z)
  : Indexer.LlmChunk.t :=
  {| Indexer.LlmChunk.id := "0123456789ab";
     Indexer.LlmChunk.url := "https://docs.magnolia-cms.com/" ++ title ++ "/";
     Indexer.LlmChunk.title := title;
     Indexer.LlmChunk.category := "Modules";
     Indexer.LlmChunk.version := "modules";
     Indexer.LlmChunk.content := content;
     Indexer.LlmChunk.tokenEstimate := tokenEstimate;
     Indexer.LlmChunk.chunkIndex := None;
     Indexer.LlmChunk.chunkTotal := None;
     Indexer.LlmChunk.sectionRange := None;
     Indexer.LlmChunk.sectionStartIndex := None;
     Indexer.LlmChunk.sectionEndIndex := None |}.

Definition twoLargeChunks : list MagnoliaAI.Relevant :=
  [ {| MagnoliaAI.chunk := sampleChunk "caching" "# Caching: how pages are cached" 5000;
       MagnoliaAI.score := 40%Q |};
    {| MagnoliaAI.chunk := sampleChunk "security" "# Security: users and roles" 5000;
       MagnoliaAI.score := 35%Q |} ].

End Samples.

(** A page as the indexer sees it, the record of its first section and
    an engine that has loaded the records of the page.  [md5] stands for
    the hash of the platform. *)
Module SamplePage.

Import Indexer.

Definition md5 (text : string) : string := "0123456789ab".

Definition url : string :=
  pathToUrl "https://docs.magnolia-cms.com" "magnolia-cli/install.html".

Definition metadata : PageMetadata.t :=
  {| PageMetadata.title := "Installing Magnolia CLI";
     PageMetadata.category := fst (categorizeUrl url);
     PageMetadata.version := snd (categorizeUrl url);
     PageMetadata.breadcrumb := ["Developing"; "CLI"];
     PageMetadata.description := "" |}.

Definition elements : list ContentElement :=
  [ EHeading H2 " Prerequisites " None;
    EBlock "You need Java 17 and Maven installed.";
    EBlock "See below.";
    EHeading H2 "Installation" (Some "install");
    EPre "npm install @magnolia/cli -g" ].

Definition sections : list PageSection.t := extractSections (Some elements).

Definition records : list MagnoliaSearch.SearchRecord.t :=
  map (fun section =>
         IndexerRecords.createSearchRecord md5 metadata section url)
    sections.

Definition net (indexUrl : string) : MagnoliaSearch.FetchOutcome :=
  MagnoliaSearch.FetchResponse true (Some (MagnoliaSearch.JsonRecords records)).

Definition engine : MagnoliaSearch.Engine :=
  Consistency.engineOf
    (snd (fst (MagnoliaSearch.load (MagnoliaSearch.newEngine None) net))).

End SamplePage.

(** ** Further specification predicates *)

Module Shapes.

Import MagnoliaSearch.

(** A token: at least two characters, all of them lower-case letters or
    digits. *)
Definition isToken (w : string) : bool :=
  (2 <=? String.length w)%nat && allChars Indexer.isLowerAlnum w.

(** The character-level normalisation of [_tokenize]:
    [.replace(/[^a-z0-9\s]/g, ' ')] on one character. *)
Definition normChar (c : ascii) : ascii :=
  if isTokenChar c then c else " "%char.

(** The word [w] is indexed for the record [d]: it is a token of its
    search text and not one of the three skipped words. *)
Definition indexedWord (d : SearchRecord.t) (w : string) : Prop :=
  In w (_tokenize (SearchRecord._searchText d)) /\ isReservedWord w = false.

(** The limit [search] applies: [options.maxResults || config.maxResults]. *)
Definition effectiveMaxResults (options : SearchOptions.t) : nat :=
  match SearchOptions.maxResults options with
  | Some (S n) => S n
  | _ => maxResults config
  end.

(** The record passes the filters in force. *)
Definition passesFilters (options : SearchOptions.t) (d : SearchRecord.t)
  : Prop :=
  (forall v, orNull (SearchOptions.version options) = Some v ->
             SearchRecord.version d = v)
  /\ (forall c, orNull (SearchOptions.category options) = Some c ->
                SearchRecord.category d = c).

(** The results are in descending order of score. *)
Definition scoreDescending (results : list SearchResult) : Prop :=
  StronglySorted (fun a b => (_score b <= _score a)%Q) results.

(** A text that is empty or starts with a character that is not white
    space. *)
Definition startsClean (s : string) : Prop :=
  match s with
  | EmptyString => True
  | String c _ => JS.isWhiteSpace c = false
  end.

(** The term occurs in the text, whatever the case of the letters. *)
Fixpoint occursIgnoreCase (term s : string) : bool :=
  prefixIgnoreCase term s
  || match s with
     | EmptyString => false
     | String _ s' => occursIgnoreCase term s'
     end.

(** One text is the other with characters inserted. *)
Inductive subsequence : string -> string -> Prop :=
| subsequence_nil (b : string) : subsequence "" b
| subsequence_skip (c : ascii) (a b : string) :
    subsequence a b -> subsequence a (String c b)
| subsequence_take (c : ascii) (a b : string) :
    subsequence a b -> subsequence (String c a) (String c b).

(** Letters, digits and hyphens, with no hyphen after a hyphen;
    [prevHyphen] tells whether a hyphen precedes the text. *)
Fixpoint hyphensApart (prevHyphen : bool) (s : string) : bool :=
  match s with
  | EmptyString => true
  | String c s' =>
      if Ascii.eqb c "-" then negb prevHyphen && hyphensApart true s'
      else Indexer.isLowerAlnum c && hyphensApart false s'
  end.

Fixpoint endsInHyphen (s : string) : bool :=
  match s with
  | EmptyString => false
  | String c EmptyString => Ascii.eqb c "-"
  | String _ s' => endsInHyphen s'
  end.

(** A slug: lower-case letters and digits in groups joined by single
    hyphens, with no hyphen at either end. *)
Definition isSlug (s : string) : bool :=
  hyphensApart true s && negb (endsInHyphen s).

Definition notBackslash (c : ascii) : bool := negb (Ascii.eqb c "\").

(** The eight (category, version) pairs of [categorizeUrl]. *)
Definition categoryTable : list (string * string) :=
  [ ("Magnolia 6.2", "6.2"); ("Magnolia 6.3", "6.3");
    ("Magnolia 6.4", "latest"); ("DX Cloud", "cloud");
    ("Support", "general"); ("CLI", "general"); ("Headless", "general");
    ("Modules", "modules") ].










(** The term is found in a field of the record, as the per-term
    scoring of [_scoreDocument] looks for it. *)
Definition termFound (d : SearchRecord.t) (term : string) : bool :=
  JS.includes (Scoring.lowerTitle d) term
  || (JS.truthy (Scoring.lowerHeading d)
      && JS.includes (Scoring.lowerHeading d) term)
  || JS.includes (Scoring.lowerContent d) term
  || JS.includes (Scoring.lowerBreadcrumb d) term.

(** How often [_extractKeywords] counts the word [w] in the text. *)
Definition wordFrequency (text w : string) : nat :=
  count_occ string_dec (MagnoliaAI.keywordWords text) w.

(** The object [freq] holds the number of occurrences of every word of
    [words], under distinct keys. *)
Definition counted (words : list string) (freq : JsObject nat) : Prop :=
  NoDup (map fst freq)
  /\ forall k,
       objGet freq k
       = match count_occ string_dec words k with
         | O => None
         | S n => Some (S n)
         end.

(** The query as [search] normalises it. *)
Definition normalizeQuery (query : option string) : string :=
  JS.toLowerCase (JS.trim (Indexer.orElse query "")).

End Shapes.

(** * Properties *)

(** ** Strings *)

Lemma append_char_nonempty (s : string) (c : ascii) :
  (s ++ String c "" =? "") = false.
Proof. destruct s; reflexivity. Qed.

Lemma mapChars_length (f : ascii -> ascii) (s : string) :
  String.length (JS.mapChars f s) = String.length s.
Proof. induction s; simpl; congruence. Qed.

Lemma toLowerCase_length (s : string) :
  String.length (JS.toLowerCase s) = String.length s.
Proof. apply mapChars_length. Qed.

(** ** Token estimates *)

(** The non-empty pieces of a white-space split are the maximal runs of
    other characters: one per word start, plus the piece being read. *)
Lemma splitWsFrom_count (s : string) :
  forall cur inWs,
    (inWs = true -> cur = "") ->
    List.length (filter (fun w => (0 <? String.length w)%nat)
                   (JS.splitWsFrom cur inWs s))
    = if cur =? "" then Indexer.countWordStarts true s
      else S (Indexer.countWordStarts false s).
Proof.
  induction s as [|c s IH]; intros cur inWs Hcur.
  - destruct cur; reflexivity.
  - cbn [JS.splitWsFrom Indexer.countWordStarts].
    destruct (JS.isWhiteSpace c) eqn:Hc.
    + destruct inWs.
      * rewrite IH by assumption. rewrite (Hcur eq_refl). reflexivity.
      * pose proof (IH "" true (fun _ => eq_refl)) as IH0.
        destruct cur; simpl in IH0 |- *; rewrite IH0; reflexivity.
    + rewrite IH by discriminate.
      rewrite append_char_nonempty.
      destruct (cur =? "") eqn:E; reflexivity.
Qed.

Lemma words_length (text : string) :
  List.length (Indexer.words text) = Indexer.wordCount text.
Proof.
  unfold Indexer.words, JS.splitWs, Indexer.wordCount.
  rewrite splitWsFrom_count by discriminate. reflexivity.
Qed.

Lemma Qceiling_tenth (m : Z) :
  Qceiling (inject_Z m * (1 # 10))%Q = ((m + 9) / 10)%Z.
Proof.
  unfold Qceiling, Qfloor, Qopp, Qmult, inject_Z. cbn [Qnum Qden].
  change (Z.pos (1 * 10)) with 10%Z.
  Z.div_mod_to_equations. lia.
Qed.

Lemma Qceiling_thirteen_tenths (m : Z) :
  Qceiling (inject_Z m * (13 # 10))%Q = ((13 * m + 9) / 10)%Z.
Proof.
  unfold Qceiling, Qfloor, Qopp, Qmult, inject_Z. cbn [Qnum Qden].
  change (Z.pos (1 * 10)) with 10%Z.
  Z.div_mod_to_equations. lia.
Qed.

Lemma Qceiling_inject (m : Z) : Qceiling (inject_Z m) = m.
Proof.
  unfold Qceiling, Qfloor, Qopp, inject_Z. simpl.
  rewrite Z.div_1_r. lia.
Qed.

Example estimateTokens_markers :
  Indexer.estimateTokens "You need [Code] mvn install and a [Table] a | b" = 107%Z.
Proof. vm_compute. reflexivity. Qed.

(** C8, as the specification words it, fails: for the two-character text
    [#a] (one word, one markdown character) the code returns
    [ceil((1 + ceil 0.1) * 1.3) = 3], while one word plus 10% of one
    character, scaled by 1.3 and rounded up, is [ceil(1.43) = 2]. *)
Lemma estimateTokens_spec_differs :
  Indexer.estimateTokens "#a" = 3%Z
  /\ Indexer.estimateTokens_spec "#a" = 2%Z
  /\ Indexer.estimateTokens "#a" <> Indexer.estimateTokens_spec "#a".
Proof. vm_compute. repeat split; discriminate. Qed.

(** C8, amended: for every text, [estimateTokens] is the number of
    white-space-separated words, plus 10% of the number of markdown
    special characters rounded up to a whole number, plus 50 per [[Code]]
    marker, plus 20 per [[Table]] marker, the sum scaled by 1.3 and
    rounded up; the empty text yields 0. *)
Theorem estimateTokens_formula (text : string) :
  Indexer.estimateTokens text
  = ((13 * (Z.of_nat (Indexer.wordCount text)
            + (Z.of_nat (JS.countChars Indexer.isMarkdownChar text) + 9) / 10
            + 50 * Z.of_nat (JS.countMatches "[Code]" text)
            + 20 * Z.of_nat (JS.countMatches "[Table]" text)) + 9) / 10)%Z
  /\ Indexer.estimateTokens "" = 0%Z.
Proof.
  split; [|reflexivity].
  unfold Indexer.estimateTokens.
  destruct text as [|c text].
  - reflexivity.
  - cbv beta iota delta [JS.truthy String.eqb negb].
    cbv zeta.
    rewrite Qceiling_thirteen_tenths, Qceiling_tenth, !Qceiling_inject.
    rewrite words_length.
    f_equal. lia.
Qed.

(** ** Chunking *)

Section ChunkingFacts.

Import Indexer Coverage.

Variable md5hex12 : string -> string.
Variable metadata : PageMetadata.t.
Variable url : string.

Let header := buildChunkHeader metadata url.
Let headerTokens := estimateTokens header.

Lemma sectionSlice_middle (pre g rest : list PageSection.t) :
  sectionSlice (pre ++ g ++ rest) (List.length pre) (List.length g) = g.
Proof.
  unfold sectionSlice.
  rewrite skipn_app, Nat.sub_diag, skipn_all. simpl.
  rewrite firstn_app, Nat.sub_diag, firstn_all. simpl.
  apply app_nil_r.
Qed.

Lemma tiles_length (secs : list PageSection.t) (chunks : list LlmChunk.t) :
  forall lens k start stop,
    tiles header secs k start chunks lens stop ->
    List.length chunks = List.length lens.
Proof.
  induction chunks as [|c chunks IH]; intros [|len lens] k start stop H;
    simpl in *; try contradiction; auto.
  destruct H as [_ H]. f_equal. eauto.
Qed.

Lemma tiles_snoc (secs : list PageSection.t) (chunks : list LlmChunk.t) :
  forall lens k start mid c len,
    tiles header secs k start chunks lens mid ->
    coversRange header secs c (k + List.length chunks) mid len ->
    tiles header secs k start (chunks ++ [c]) (lens ++ [len]) (mid + len).
Proof.
  induction chunks as [|c0 chunks IH]; intros [|len0 lens] k start mid c len H Hc;
    simpl in *; try contradiction.
  - subst. rewrite Nat.add_0_r in Hc. auto.
  - destruct H as [H0 H]. split; [assumption|].
    apply IH; [assumption|].
    now rewrite Nat.add_succ_l, <- Nat.add_succ_r.
Qed.

Lemma tiles_setChunkTotal (secs : list PageSection.t) (total : Z)
    (chunks : list LlmChunk.t) :
  forall lens k start stop,
    tiles header secs k start chunks lens stop ->
    tiles header secs k start (map (LlmChunk.setChunkTotal total) chunks)
      lens stop.
Proof.
  induction chunks as [|c chunks IH]; intros [|len lens] k start stop H;
    simpl in *; try contradiction; auto.
  destruct H as [H0 H]. split; [exact H0 | auto].
Qed.

Lemma buildChunkFromSections_covers (pre g rest : list PageSection.t) (k i : nat) :
  g <> [] ->
  i = (List.length pre + List.length g)%nat ->
  coversRange header (pre ++ g ++ rest)
    (buildChunkFromSections md5hex12 header g url metadata
       (Z.of_nat k) (Z.of_nat (List.length pre)) (Z.of_nat i - 1))
    k (List.length pre) (List.length g).
Proof.
  intros Hg ->. unfold coversRange. simpl.
  rewrite sectionSlice_middle.
  repeat split.
  destruct g; [contradiction | simpl; lia].
Qed.

Lemma splitStep_inv (done rest : list PageSection.t) (s : PageSection.t)
    (st : list LlmChunk.t * CurrentChunk) :
  splitInv header (done ++ s :: rest) done st ->
  splitInv header (done ++ s :: rest) (done ++ [s])
    (splitStep md5hex12 header headerTokens url metadata st (List.length done) s).
Proof.
  destruct st as [chunks cur].
  intros (pre & lens & Hdone & Hstart & Htiles & Hempty). simpl in *.
  unfold splitStep.
  destruct ((tokens cur + estimateSectionTokens s >? MAX_CHUNK_TOKENS)%Z
            && (0 <? List.length (sections cur))%nat) eqn:Hsplit.
  - apply andb_true_iff in Hsplit. destruct Hsplit as [_ Hne].
    apply Nat.ltb_lt in Hne.
    assert (Hg : sections cur <> []) by (destruct (sections cur); simpl in *; [lia | discriminate]).
    exists (pre ++ sections cur)%list, (lens ++ [List.length (sections cur)])%list.
    simpl. split; [|split; [|split]].
    + now rewrite Hdone.
    + now rewrite <- Hdone.
    + rewrite length_app. apply tiles_snoc; [assumption|].
      simpl. rewrite Hstart, Hdone.
      rewrite <- app_assoc.
      apply buildChunkFromSections_covers; [assumption|].
      now rewrite length_app.
    + discriminate.
  - exists pre, lens. simpl. split; [|split; [|split]].
    + now rewrite Hdone, app_assoc.
    + assumption.
    + assumption.
    + intros H. destruct (sections cur); discriminate.
Qed.

Lemma splitLoop_inv (secs : list PageSection.t) :
  forall rest done st,
    secs = (done ++ rest)%list ->
    splitInv header secs done st ->
    splitInv header secs secs
      (splitLoop md5hex12 header headerTokens url metadata
         (List.length done) rest st).
Proof.
  induction rest as [|s rest IH]; intros done st Hsecs Hinv; simpl.
  - rewrite app_nil_r in Hsecs. now subst.
  - assert (E : S (List.length done) = List.length (done ++ [s]))
      by (rewrite length_app; simpl; lia).
    rewrite E. apply IH.
    + now rewrite <- app_assoc.
    + subst secs. now apply splitStep_inv.
Qed.

Lemma tiles_sum (secs : list PageSection.t) (chunks : list LlmChunk.t) :
  forall lens k start stop,
    tiles header secs k start chunks lens stop ->
    (start + list_sum lens)%nat = stop.
Proof.
  induction chunks as [|c chunks IH]; intros [|len lens] k start stop H;
    simpl in *; try contradiction.
  - lia.
  - destruct H as [_ H]. apply IH in H. lia.
Qed.

Lemma firstn_plus {A} (a b : nat) :
  forall l : list A,
    firstn (a + b) l = (firstn a l ++ firstn b (skipn a l))%list.
Proof.
  induction a as [|a IH]; intros [|x l]; simpl;
    try reflexivity.
  - now rewrite firstn_nil.
  - now rewrite IH.
Qed.

Lemma skipn_plus {A} (a b : nat) :
  forall l : list A, skipn (a + b) l = skipn b (skipn a l).
Proof.
  induction a as [|a IH]; intros [|x l]; simpl; try reflexivity.
  - now rewrite skipn_nil.
  - apply IH.
Qed.

(** Consecutive slices put end to end are one slice. *)
Lemma slices_concat (secs : list PageSection.t) (lens : list nat) :
  forall start,
    List.concat (slices secs start lens)
    = sectionSlice secs start (list_sum lens).
Proof.
  unfold sectionSlice.
  induction lens as [|len lens IH]; intros start; simpl.
  - reflexivity.
  - rewrite IH. unfold sectionSlice.
    now rewrite firstn_plus, skipn_plus.
Qed.

(** The slices of a tiling from 0 to the number of sections, put end to
    end, are the sections of the page. *)
Lemma tiles_reconstruct (secs : list PageSection.t) (chunks : list LlmChunk.t)
    (lens : list nat) :
  tiles header secs 0 0 chunks lens (List.length secs) ->
  List.concat (slices secs 0 lens) = secs.
Proof.
  intros H. apply tiles_sum in H. simpl in H.
  rewrite slices_concat. unfold sectionSlice. simpl.
  rewrite H. apply firstn_all.
Qed.

(** The chunks of a page: one chunk holding the whole page, or a tiling
    of the section indices. *)
Lemma createLlmChunks_tiles (secs : list PageSection.t) :
  let chunks := createLlmChunks md5hex12 metadata secs url in
  (exists c, chunks = [c] /\ holdsWholePage header secs c)
  \/ (exists lens,
        tiles header secs 0 0 chunks lens (List.length secs)
        /\ Forall (fun c => LlmChunk.chunkTotal c
                            = Some (Z.of_nat (List.length chunks))) chunks).
Proof.
  unfold createLlmChunks. fold header. fold headerTokens.
  destruct (pageTokens headerTokens secs <=? MAX_CHUNK_TOKENS)%Z.
  - left. eexists. split; [reflexivity|]. unfold holdsWholePage. simpl. auto.
  - right.
    pose proof (splitLoop_inv secs secs [] 
                  ([], {| sections := []; tokens := headerTokens; startIndex := 0 |})
                  eq_refl) as Hinv.
    simpl in Hinv.
    destruct (splitLoop md5hex12 header headerTokens url metadata 0 secs
                ([], {| sections := []; tokens := headerTokens; startIndex := 0 |}))
      as [chunks cur] eqn:Hloop.
    destruct Hinv as (pre & lens & Hdone & Hstart & Htiles & Hempty).
    { exists [], []. simpl. repeat split; auto. }
    simpl in *.
    destruct (0 <? List.length (sections cur))%nat eqn:Hne.
    + apply Nat.ltb_lt in Hne.
      assert (Hg : sections cur <> [])
        by (destruct (sections cur); simpl in *; [lia | discriminate]).
      exists (lens ++ [List.length (sections cur)])%list. split.
      * apply tiles_setChunkTotal.
        assert (Hlen : List.length secs
                       = (List.length pre + List.length (sections cur))%nat)
          by (rewrite <- length_app; now f_equal).
        assert (Hsecs : secs = (pre ++ sections cur ++ [])%list)
          by (now rewrite app_nil_r).
        rewrite Hlen at 2. rewrite Hsecs at 1.
        apply tiles_snoc; [now rewrite <- Hsecs|]. simpl.
        rewrite Hstart.
        apply buildChunkFromSections_covers; assumption.
      * rewrite length_map. apply Forall_forall. intros c Hc.
        apply in_map_iff in Hc. destruct Hc as (c0 & <- & _). reflexivity.
    + apply Nat.ltb_ge in Hne.
      assert (Hnil : sections cur = [])
        by (destruct (sections cur); simpl in *; [reflexivity | lia]).
      destruct (Hempty Hnil) as [Hsecs Hchunks]. subst chunks.
      exists lens. split.
      * simpl. destruct lens; simpl in *; [|contradiction].
        rewrite Hsecs. simpl. congruence.
      * constructor.
Qed.

(** C1: the chunks of a page reconstruct its section sequence.  Either the
    page is unsplit and its single chunk is built from all the sections,
    or every chunk carries its position [chunkIndex] and a non-empty range
    [sectionStartIndex .. sectionEndIndex], the content of each chunk is
    built from exactly the sections of its range, the first range starts
    at 0, each next range starts right after the previous one ends, and
    the last one ends at [n - 1]: the ranges partition [0 .. n-1], and
    the sections of the ranges, put end to end, are the sections of the
    page. *)
Theorem createLlmChunks_coverage (secs : list PageSection.t) :
  let chunks := createLlmChunks md5hex12 metadata secs url in
  (exists c, chunks = [c] /\ holdsWholePage header secs c)
  \/ (exists lens,
        tiles header secs 0 0 chunks lens (List.length secs)
        /\ List.concat (slices secs 0 lens) = secs
        /\ Forall (fun c => LlmChunk.chunkTotal c
                            = Some (Z.of_nat (List.length chunks))) chunks).
Proof.
  cbv zeta.
  destruct (createLlmChunks_tiles secs) as [H | (lens & Ht & Hall)];
    [left; exact H | right].
  exists lens. split; [exact Ht|]. split; [|exact Hall].
  eapply tiles_reconstruct. exact Ht.
Qed.

(** The short circuit of [createLlmChunks]: a page within the budget
    yields exactly one chunk, without [chunkIndex] and [chunkTotal]. *)
Lemma createLlmChunks_short_circuit (secs : list PageSection.t) :
  (pageTokens headerTokens secs <= 1500)%Z ->
  exists c,
    createLlmChunks md5hex12 metadata secs url = [c]
    /\ LlmChunk.chunkIndex c = None
    /\ LlmChunk.chunkTotal c = None
    /\ LlmChunk.id c = md5hex12 url.
Proof.
  intros Hle. unfold createLlmChunks. fold header. fold headerTokens.
  apply Z.leb_le in Hle. unfold MAX_CHUNK_TOKENS. rewrite Hle.
  eexists. split; [reflexivity|]. simpl. auto.
Qed.

(** A page over the budget that consists of one section yields one chunk,
    and that chunk is tagged as chunk 0 of 1. *)
Lemma createLlmChunks_one_section_over_budget (s : PageSection.t) :
  (1500 < pageTokens headerTokens [s])%Z ->
  exists c,
    createLlmChunks md5hex12 metadata [s] url = [c]
    /\ LlmChunk.chunkIndex c = Some 0%Z
    /\ LlmChunk.chunkTotal c = Some 1%Z
    /\ LlmChunk.id c = md5hex12 url ++ "-0".
Proof.
  intros Hgt. unfold createLlmChunks. fold header. fold headerTokens.
  apply Z.leb_gt in Hgt. unfold MAX_CHUNK_TOKENS. rewrite Hgt.
  simpl. rewrite andb_false_r. simpl.
  eexists. split; [reflexivity|]. simpl. auto.
Qed.

Lemma pageTokens_snoc (done : list PageSection.t) (s : PageSection.t) :
  pageTokens headerTokens (done ++ [s])
  = (pageTokens headerTokens done + estimateSectionTokens s)%Z.
Proof. unfold pageTokens. now rewrite fold_left_app. Qed.

Lemma splitLoop_snoc (rest : list PageSection.t) (s : PageSection.t) :
  forall i st,
    splitLoop md5hex12 header headerTokens url metadata i (rest ++ [s]) st
    = splitStep md5hex12 header headerTokens url metadata
        (splitLoop md5hex12 header headerTokens url metadata i rest st)
        (i + List.length rest) s.
Proof.
  induction rest as [|r rest IH]; intros i st; simpl.
  - now rewrite Nat.add_0_r.
  - rewrite IH. now rewrite Nat.add_succ_l, <- Nat.add_succ_r.
Qed.

Lemma splitStep_firstChunkInv (done : list PageSection.t) (s : PageSection.t)
    (i : nat) (st : list LlmChunk.t * CurrentChunk) :
  firstChunkInv headerTokens done st ->
  firstChunkInv headerTokens (done ++ [s])
    (splitStep md5hex12 header headerTokens url metadata st i s).
Proof.
  destruct st as [chunks cur]. intros [Hne Htok]. simpl in *.
  unfold splitStep, firstChunkInv.
  destruct ((tokens cur + estimateSectionTokens s >? MAX_CHUNK_TOKENS)%Z
            && (0 <? List.length (sections cur))%nat); simpl.
  - split; [discriminate|]. intros H. destruct chunks; discriminate.
  - split.
    + intros _ H. destruct (sections cur); discriminate.
    + intros H. rewrite pageTokens_snoc, (Htok H). reflexivity.
Qed.

Lemma splitLoop_firstChunkInv (rest : list PageSection.t) :
  forall done i st,
    firstChunkInv headerTokens done st ->
    firstChunkInv headerTokens (done ++ rest)
      (splitLoop md5hex12 header headerTokens url metadata i rest st).
Proof.
  induction rest as [|s rest IH]; intros done i st Hinv; simpl.
  - now rewrite app_nil_r.
  - replace (done ++ s :: rest)%list with ((done ++ [s]) ++ rest)%list
      by now rewrite <- app_assoc.
    apply IH. now apply splitStep_firstChunkInv.
Qed.

(** A page over the budget with two or more sections is split into two or
    more chunks. *)
Lemma createLlmChunks_split_count (secs : list PageSection.t) :
  (1500 < pageTokens headerTokens secs)%Z ->
  (2 <= List.length secs)%nat ->
  (2 <= List.length (createLlmChunks md5hex12 metadata secs url))%nat.
Proof.
  intros Hgt Hlen.
  destruct (exists_last (l := secs)) as (done & s & ->);
    [intros ->; simpl in Hlen; lia|].
  assert (Hdone : done <> [])
    by (intros ->; simpl in Hlen; lia).
  unfold createLlmChunks. fold header. fold headerTokens.
  pose proof Hgt as Hgt'. apply Z.leb_gt in Hgt'.
  unfold MAX_CHUNK_TOKENS. rewrite Hgt'.
  rewrite splitLoop_snoc.
  pose proof (splitLoop_firstChunkInv done [] 0
                ([], {| sections := []; tokens := headerTokens; startIndex := 0 |}))
    as Hinv.
  simpl in Hinv.
  destruct (splitLoop md5hex12 header headerTokens url metadata 0 done
              ([], {| sections := []; tokens := headerTokens; startIndex := 0 |}))
    as [chunks cur].
  destruct Hinv as [Hne Htok]; [split; [congruence | reflexivity]|].
  simpl in Hne, Htok. specialize (Hne Hdone).
  unfold splitStep.
  assert (Hpos : (0 <? List.length (sections cur))%nat = true)
    by (apply Nat.ltb_lt; destruct (sections cur); simpl; [congruence | lia]).
  rewrite Hpos, andb_true_r.
  destruct (tokens cur + estimateSectionTokens s >? MAX_CHUNK_TOKENS)%Z eqn:Hcmp;
    simpl.
  - rewrite length_map, !length_app. simpl. lia.
  - rewrite length_app. simpl.
    replace (0 <? List.length (sections cur) + 1)%nat with true
      by (symmetry; apply Nat.ltb_lt; lia).
    rewrite length_map, length_app. simpl.
    destruct chunks as [|c chunks]; [|simpl; lia].
    rewrite pageTokens_snoc, <- (Htok eq_refl) in Hgt.
    unfold MAX_CHUNK_TOKENS in Hcmp.
    rewrite Z.gtb_ltb in Hcmp. apply Z.ltb_ge in Hcmp. lia.
Qed.

End ChunkingFacts.

(** C2, the failing input: the page [Samples.codePageSection] has a total
    estimate above 1500 and a single section.  [createLlmChunks] returns
    exactly one chunk for it, and that chunk carries [chunkIndex = 0],
    [chunkTotal = 1] and the suffixed id, although the page was not split
    into two or more chunks. *)
Theorem createLlmChunks_unsplit_page_tagged (md5hex12 : string -> string) :
  let header := Indexer.buildChunkHeader Samples.codePageMetadata
                  Samples.codePageUrl in
  Indexer.pageTokens (Indexer.estimateTokens header) [Samples.codePageSection]
  = 1710%Z
  /\ exists c,
       Indexer.createLlmChunks md5hex12 Samples.codePageMetadata
         [Samples.codePageSection] Samples.codePageUrl = [c]
       /\ Indexer.LlmChunk.chunkIndex c = Some 0%Z
       /\ Indexer.LlmChunk.chunkTotal c = Some 1%Z
       /\ Indexer.LlmChunk.id c = md5hex12 Samples.codePageUrl ++ "-0".
Proof.
  intros header.
  assert (Htok : Indexer.pageTokens (Indexer.estimateTokens header)
                   [Samples.codePageSection] = 1710%Z)
    by (vm_compute; reflexivity).
  split; [exact Htok|].
  apply createLlmChunks_one_section_over_budget.
  fold header. rewrite Htok. lia.
Qed.

(** ** Candidate expansion *)

Section ExpansionFacts.

Import MagnoliaSearch Expansion.

Lemma prefix_refl (s : string) : String.prefix s s = true.
Proof.
  induction s as [|c s IH]; simpl; [reflexivity|].
  destruct (ascii_dec c c); [assumption | contradiction].
Qed.

Lemma setAdd_In (cands : list nat) (y x : nat) :
  In x (setAdd cands y) <-> In x cands \/ x = y.
Proof.
  unfold setAdd. destruct (existsb (Nat.eqb y) cands) eqn:E.
  - apply existsb_exists in E. destruct E as (z & Hz & Hyz).
    apply Nat.eqb_eq in Hyz. subst z.
    split; [auto | intros [H | ->]; assumption].
  - rewrite in_app_iff. simpl. intuition.
Qed.

Lemma fold_setAdd_In (arr : list nat) :
  forall cands x,
    In x (fold_left setAdd arr cands) <-> In x cands \/ In x arr.
Proof.
  induction arr as [|y arr IH]; intros cands x; simpl.
  - tauto.
  - rewrite IH, setAdd_In. intuition.
Qed.

Lemma addPostings_In (inv : JsObject (list nat)) (w : string)
    (cands : list nat) (x : nat) :
  In x (addPostings inv w cands) <-> In x cands \/ posting inv w x.
Proof.
  unfold addPostings, posting.
  destruct (objGet inv w) as [arr|].
  - rewrite fold_setAdd_In. split.
    + intros [H | H]; [auto | right; eauto].
    + intros [H | (arr' & E & H)]; [auto | right; congruence].
  - split; [auto | intros [H | (arr' & E & _)]; [assumption | discriminate]].
Qed.

(** One pass over the indexed terms that adds the postings of the terms
    selected by [p]. *)
Lemma fold_keys_In (inv : JsObject (list nat)) (p : string -> bool)
    (keys : list string) :
  forall cands x,
    In x (fold_left
            (fun candidates indexedWord =>
               if p indexedWord then addPostings inv indexedWord candidates
               else candidates) keys cands)
    <-> In x cands
        \/ exists w, In w keys /\ p w = true /\ posting inv w x.
Proof.
  induction keys as [|k keys IH]; intros cands x; simpl.
  - split; [auto | intros [H | (w & [] & _)]; assumption].
  - rewrite IH. destruct (p k) eqn:Hk.
    + rewrite addPostings_In. split.
      * intros [[H | H] | (w & Hw & Hp & Hx)]; eauto 6.
      * intros [H | (w & [-> | Hw] & Hp & Hx)]; eauto 6.
    + split.
      * intros [H | (w & Hw & Hp & Hx)]; eauto 6.
      * intros [H | (w & [-> | Hw] & Hp & Hx)]; [auto | congruence | eauto 6].
Qed.

Lemma insertByIndex_In (k x : string) (l : list string) :
  In x (insertByIndex k l) <-> x = k \/ In x l.
Proof.
  induction l as [|k' l IH]; simpl.
  - intuition.
  - destruct (decimalValue 0 k <=? decimalValue 0 k')%N; simpl.
    + intuition.
    + rewrite IH. intuition.
Qed.

Lemma sortByIndex_In (x : string) (l : list string) :
  In x (sortByIndex l) <-> In x l.
Proof.
  induction l as [|k l IH]; simpl; [tauto|].
  rewrite insertByIndex_In, IH. intuition.
Qed.

(** [Object.keys] lists exactly the keys of the object. *)
Lemma objKeys_In {A} (o : JsObject A) (w : string) :
  In w (objKeys o) <-> In w (map fst o).
Proof.
  unfold objKeys. rewrite in_app_iff, sortByIndex_In, !filter_In.
  destruct (isArrayIndex w); simpl; intuition discriminate.
Qed.

Lemma objGet_Some_key {A} (o : JsObject A) (w : string) (v : A) :
  objGet o w = Some v -> In w (map fst o).
Proof.
  induction o as [|[k v'] o IH]; simpl; [discriminate|].
  destruct (k =? w) eqn:E.
  - apply String.eqb_eq in E. auto.
  - auto.
Qed.

Lemma posting_key (inv : JsObject (list nat)) (w : string) (x : nat) :
  posting inv w x -> In w (objKeys inv).
Proof.
  intros (arr & H & _). apply objKeys_In. eauto using objGet_Some_key.
Qed.

(** The three rules of one query term. *)
Lemma expandTerm_In (inv : JsObject (list nat)) (cands : list nat)
    (term : string) (x : nat) :
  In x (expandTerm inv cands term)
  <-> In x cands
      \/ exists w,
           posting inv w x
           /\ (prefixRelated term w
               \/ ((4 <= String.length term)%nat /\ _fuzzyMatch term w = true)).
Proof.
  unfold expandTerm, prefixRelated.
  destruct (4 <=? String.length term)%nat eqn:Hlen.
  - apply Nat.leb_le in Hlen.
    rewrite (fold_keys_In inv (fun w => _fuzzyMatch term w)).
    rewrite (fold_keys_In inv
               (fun w => JS.startsWith w term || JS.startsWith term w)).
    rewrite addPostings_In. split.
    + intros [[[H | H] | (w & Hw & Hp & Hx)] | (w & Hw & Hp & Hx)].
      * auto.
      * right. exists term. split; [assumption|]. left. left.
        apply prefix_refl.
      * right. exists w. split; [assumption|]. left.
        now apply orb_true_iff in Hp.
      * right. exists w. auto.
    + intros [H | (w & Hx & [Hp | [_ Hf]])].
      * auto.
      * left. right. exists w. split; [eauto using posting_key|].
        split; [now apply orb_true_iff | assumption].
      * right. exists w. split; [eauto using posting_key | auto].
  - apply Nat.leb_gt in Hlen.
    rewrite (fold_keys_In inv
               (fun w => JS.startsWith w term || JS.startsWith term w)).
    rewrite addPostings_In. split.
    + intros [[H | H] | (w & Hw & Hp & Hx)].
      * auto.
      * right. exists term. split; [assumption|]. left. left.
        apply prefix_refl.
      * right. exists w. split; [assumption|]. left.
        now apply orb_true_iff in Hp.
    + intros [H | (w & Hx & [Hp | [Hge _]])].
      * auto.
      * right. exists w. split; [eauto using posting_key|].
        split; [now apply orb_true_iff | assumption].
      * lia.
Qed.

Lemma fold_expandTerm_In (inv : JsObject (list nat)) (terms : list string) :
  forall cands x,
    In x (fold_left (expandTerm inv) terms cands)
    <-> In x cands
        \/ exists term w,
             In term terms /\ posting inv w x
             /\ (prefixRelated term w
                 \/ ((4 <= String.length term)%nat
                     /\ _fuzzyMatch term w = true)).
Proof.
  induction terms as [|t terms IH]; intros cands x; simpl.
  - split; [auto | intros [H | (term & w & [] & _)]; assumption].
  - rewrite IH, expandTerm_In. split.
    + intros [[H | (w & Hx & Hr)] | (term & w & Ht & Hx & Hr)].
      * auto.
      * right. exists t, w. auto.
      * right. exists term, w. auto.
    + intros [H | (term & w & [-> | Ht] & Hx & Hr)].
      * auto.
      * left. right. exists w. auto.
      * right. exists term, w. auto.
Qed.

(** *** The matrix of [_levenshtein] *)

Lemma editDistance_nil_r (ra : list ascii) : editDistance ra [] = List.length ra.
Proof. destruct ra; reflexivity. Qed.

Lemma editDistance_cons (x y : ascii) (ra rb : list ascii) :
  editDistance (x :: ra) (y :: rb)
  = if Ascii.eqb y x then editDistance ra rb
    else Nat.min (editDistance ra rb + 1)
           (Nat.min (editDistance ra (y :: rb) + 1)
              (editDistance (x :: ra) rb + 1)).
Proof. reflexivity. Qed.

(** One row of the matrix from the row before it. *)
Lemma levRow_editDistance (bc : ascii) (rb : list ascii) (suf : string) :
  forall rpre,
    levRow bc suf (editDistance rpre rb) (editDistance rpre (bc :: rb))
      (map (fun rp => editDistance rp rb) (prefixesFrom rpre suf))
    = map (fun rp => editDistance rp (bc :: rb)) (prefixesFrom rpre suf).
Proof.
  induction suf as [|ac suf IH]; intros rpre.
  - reflexivity.
  - cbn [prefixesFrom map levRow].
    rewrite (editDistance_cons ac bc rpre rb).
    f_equal.
    rewrite <- (editDistance_cons ac bc rpre rb).
    apply IH.
Qed.

Lemma prefixesFrom_lengths (suf : string) :
  forall rpre,
    map (@List.length ascii) (prefixesFrom rpre suf)
    = seq (S (List.length rpre)) (String.length suf).
Proof.
  induction suf as [|c suf IH]; intros rpre; simpl; [reflexivity|].
  f_equal. apply IH.
Qed.

Lemma levRows_editDistance (a b : string) :
  forall rb,
    levRows a b (S (List.length rb)) (matrixRow a rb)
    = matrixRow a (rev (list_ascii_of_string b) ++ rb)%list.
Proof.
  induction b as [|bc b IH]; intros rb.
  - reflexivity.
  - cbn [levRows list_ascii_of_string rev].
    rewrite <- app_assoc. cbn [app].
    assert (Hrow : S (List.length rb)
                   :: levRow bc a (hd 0%nat (matrixRow a rb)) (S (List.length rb))
                        (tl (matrixRow a rb))
                   = matrixRow a (bc :: rb)).
    { unfold matrixRow. cbn [hd tl]. f_equal.
      exact (levRow_editDistance bc rb a []). }
    rewrite Hrow. exact (IH (bc :: rb)).
Qed.

Lemma last_prefixesFrom (f : list ascii -> nat) (suf : string) :
  forall rpre x,
    last (x :: map f (prefixesFrom rpre suf)) 0%nat
    = match suf with
      | EmptyString => x
      | _ => f (rev (list_ascii_of_string suf) ++ rpre)%list
      end.
Proof.
  induction suf as [|c suf IH]; intros rpre x.
  - reflexivity.
  - cbn [prefixesFrom map list_ascii_of_string rev].
    change (last (x :: f (c :: rpre) :: map f (prefixesFrom (c :: rpre) suf)) 0%nat)
      with (last (f (c :: rpre) :: map f (prefixesFrom (c :: rpre) suf)) 0%nat).
    rewrite IH. destruct suf as [|c' suf]; [reflexivity|].
    now rewrite <- app_assoc.
Qed.

(** The matrix computation of [_levenshtein] is the classic edit-distance
    recurrence over the prefixes of the two strings. *)
Lemma _levenshtein_editDistance (a b : string) :
  _levenshtein a b = editDistance (reversed a) (reversed b).
Proof.
  unfold _levenshtein, reversed.
  assert (Hrow0 : seq 0 (S (String.length a)) = matrixRow a []).
  { unfold matrixRow.
    change (seq 0 (S (String.length a)))
      with (0%nat :: seq (S (@List.length ascii [])) (String.length a)).
    rewrite <- (prefixesFrom_lengths a []).
    f_equal. apply map_ext. intros rp. now rewrite editDistance_nil_r. }
  rewrite Hrow0.
  change 1%nat with (S (@List.length ascii [])).
  rewrite levRows_editDistance, app_nil_r.
  unfold matrixRow. rewrite last_prefixesFrom.
  destruct a as [|c a]; [reflexivity|].
  now rewrite app_nil_r.
Qed.

Lemma editDistance_nil_l (rb : list ascii) :
  editDistance [] rb = List.length rb.
Proof. destruct rb; reflexivity. Qed.

(** *** The recurrence from either end

    The recurrence on the first characters also holds on the last ones,
    so the distance of two texts is that of the reversed texts. *)

Lemma editDistance_snoc_nil_l (x y : ascii) (b : list ascii) :
  editDistance [x] (b ++ [y])
  = if Ascii.eqb y x then editDistance [] b
    else Nat.min (editDistance [] b + 1)
           (Nat.min (editDistance [] (b ++ [y]) + 1) (editDistance [x] b + 1)).
Proof.
  induction b as [|b0 b IH].
  - cbn [app]. rewrite editDistance_cons, !editDistance_nil_l.
    cbn [List.length editDistance].
    destruct (Ascii.eqb y x); [reflexivity | simpl; lia].
  - change ((b0 :: b) ++ [y])%list with (b0 :: (b ++ [y]))%list.
    rewrite (editDistance_cons x b0 [] (b ++ [y])), IH.
    rewrite (editDistance_cons x b0 [] b).
    rewrite !editDistance_nil_l. cbn [List.length].
    rewrite length_app. cbn [List.length].
    destruct (Ascii.eqb b0 x), (Ascii.eqb y x); lia.
Qed.

Lemma editDistance_snoc_nil_r (x y : ascii) (a : list ascii) :
  editDistance (a ++ [x]) [y]
  = if Ascii.eqb y x then editDistance a []
    else Nat.min (editDistance a [] + 1)
           (Nat.min (editDistance a [y] + 1) (editDistance (a ++ [x]) [] + 1)).
Proof.
  induction a as [|a0 a IH].
  - cbn [app]. rewrite editDistance_cons, !editDistance_nil_l, !editDistance_nil_r.
    cbn [List.length].
    destruct (Ascii.eqb y x); [reflexivity | simpl; lia].
  - change ((a0 :: a) ++ [x])%list with (a0 :: (a ++ [x]))%list.
    rewrite (editDistance_cons a0 y (a ++ [x]) []), IH.
    rewrite (editDistance_cons a0 y a []).
    rewrite !editDistance_nil_r. cbn [List.length].
    rewrite length_app. cbn [List.length].
    destruct (Ascii.eqb y a0), (Ascii.eqb y x); lia.
Qed.

(** Two nested minima over the same terms are equal. *)
Ltac min_leaf :=
  first [ apply Nat.le_refl
        | eapply Nat.le_trans; [apply Nat.le_min_l|]; min_leaf
        | eapply Nat.le_trans; [apply Nat.le_min_r|]; min_leaf ].

Ltac min_eq :=
  rewrite <- ?Nat.add_min_distr_r;
  apply Nat.le_antisymm; repeat apply Nat.min_glb; min_leaf.

Lemma editDistance_snoc (x y : ascii) (a : list ascii) :
  forall b,
    editDistance (a ++ [x]) (b ++ [y])
    = if Ascii.eqb y x then editDistance a b
      else Nat.min (editDistance a b + 1)
             (Nat.min (editDistance a (b ++ [y]) + 1)
                (editDistance (a ++ [x]) b + 1)).
Proof.
  induction a as [|a0 a IHa]; intros b.
  - apply editDistance_snoc_nil_l.
  - induction b as [|b0 b IHb].
    + apply editDistance_snoc_nil_r.
    + pose proof (IHa (b0 :: b)) as IHab.
      rewrite <- !app_comm_cons in *.
      rewrite (editDistance_cons a0 b0 (a ++ [x]) (b ++ [y])).
      rewrite IHb, (IHa b), IHab.
      rewrite (editDistance_cons a0 b0 a b),
              (editDistance_cons a0 b0 a (b ++ [y])),
              (editDistance_cons a0 b0 (a ++ [x]) b).
      generalize (editDistance a b) (editDistance a (b ++ [y]))
        (editDistance (a ++ [x]) b) (editDistance a (b0 :: b))
        (editDistance a (b0 :: b ++ [y])) (editDistance (a ++ [x]) (b0 :: b))
        (editDistance (a0 :: a) b) (editDistance (a0 :: a) (b ++ [y]))
        (editDistance (a0 :: a ++ [x]) b).
      intros e1 e2 e3 e4 e5 e6 e7 e8 e9.
      destruct (Ascii.eqb b0 a0), (Ascii.eqb y x); min_eq.
Qed.

Lemma editDistance_rev (a : list ascii) :
  forall b, editDistance (rev a) (rev b) = editDistance a b.
Proof.
  induction a as [|x a IHa]; intros b.
  - change (rev []) with (@nil ascii).
    rewrite !editDistance_nil_l. apply length_rev.
  - induction b as [|y b IHb].
    + change (rev []) with (@nil ascii).
      rewrite !editDistance_nil_r. apply length_rev.
    + pose proof (IHa (y :: b)) as IHab.
      change (rev (x :: a)) with (rev a ++ [x])%list in *.
      change (rev (y :: b)) with (rev b ++ [y])%list in *.
      rewrite editDistance_snoc, (IHa b), IHab, IHb.
      rewrite (editDistance_cons x y a b). reflexivity.
Qed.

(** [_levenshtein] computes the Levenshtein distance. *)
Lemma _levenshtein_distance (a b : string) :
  _levenshtein a b = levenshteinDistance a b.
Proof.
  rewrite _levenshtein_editDistance.
  unfold levenshteinDistance, reversed. apply editDistance_rev.
Qed.

(** The comparison of [_fuzzyMatch], over the rationals. *)
Lemma _fuzzyMatch_iff (a b : string) :
  _fuzzyMatch a b = true
  <-> (absDiff (String.length a) (String.length b) <= 2)%nat
      /\ (0 < Nat.max (String.length a) (String.length b))%nat
      /\ (inject_Z (Z.of_nat (_levenshtein a b))
          / inject_Z (Z.of_nat (Nat.max (String.length a) (String.length b)))
          <= 4 # 10)%Q.
Proof.
  unfold _fuzzyMatch.
  destruct (2 <? absDiff (String.length a) (String.length b))%nat eqn:Hd.
  - apply Nat.ltb_lt in Hd. split; [discriminate | lia].
  - apply Nat.ltb_ge in Hd.
    destruct (Nat.max (String.length a) (String.length b) =? 0)%nat eqn:Hm.
    + apply Nat.eqb_eq in Hm. split; [discriminate | lia].
    + apply Nat.eqb_neq in Hm. rewrite Qle_bool_iff.
      simpl fuzzyThreshold.
      set (r := (inject_Z (Z.of_nat (_levenshtein a b))
                 / inject_Z (Z.of_nat (Nat.max (String.length a)
                                         (String.length b))))%Q).
      split.
      * intros H. repeat split; [assumption | lia | lra].
      * intros (_ & _ & H). lra.
Qed.

Lemma fuzzyRule_iff (q w : string) :
  (4 <= String.length q)%nat /\ _fuzzyMatch q w = true <-> fuzzyRule q w.
Proof.
  unfold fuzzyRule. rewrite _fuzzyMatch_iff, _levenshtein_distance. split.
  - intros (H4 & Hd & _ & Hr). auto.
  - intros (H4 & Hd & Hr). repeat split; try assumption. lia.
Qed.

(** The candidates are the records reached through an indexed term that
    is prefix-related to a query token or satisfies the fuzzy rule. *)
Lemma findCandidates_In (st : Engine) (queryTerms : list string) (idx : nat) :
  In idx (_findCandidates st queryTerms)
  <-> exists term w,
        In term queryTerms
        /\ posting (invertedIndex st) w idx
        /\ (prefixRelated term w \/ fuzzyRule term w).
Proof.
  unfold _findCandidates.
  rewrite fold_expandTerm_In. split.
  - intros [[] | (term & w & Ht & Hx & Hr)].
    exists term, w. rewrite <- fuzzyRule_iff. auto.
  - intros (term & w & Ht & Hx & Hr). right.
    exists term, w. rewrite fuzzyRule_iff. auto.
Qed.

(** C3: candidate expansion reaches a record exactly through an indexed
    term that is prefix-related to a query token (an exact hit is the
    case of equal terms) or that fuzzy-matches a query token of length at
    least 4; for such a token, an indexed term fuzzy-matches it exactly
    when the lengths differ by at most 2 and the Levenshtein distance,
    given by its defining recurrence, divided by the longer length is at
    most 0.4; the distance [_levenshtein] computes is that distance; and
    ["javaa"] matches ["java"] with distance 1, longer length 5 and
    similarity 0.8. *)
Theorem fuzzy_candidate_expansion :
  (forall st queryTerms idx,
      In idx (_findCandidates st queryTerms)
      <-> exists term w,
            In term queryTerms
            /\ posting (invertedIndex st) w idx
            /\ (prefixRelated term w \/ fuzzyRule term w))
  /\ (forall q w,
         (4 <= String.length q)%nat ->
         (_fuzzyMatch q w = true
          <-> (absDiff (String.length q) (String.length w) <= 2)%nat
              /\ (inject_Z (Z.of_nat (levenshteinDistance q w))
                  / inject_Z (Z.of_nat (Nat.max (String.length q)
                                          (String.length w)))
                  <= 4 # 10)%Q))
  /\ (forall a b, _levenshtein a b = levenshteinDistance a b)
  /\ (levenshteinDistance "javaa" "java" = 1%nat
      /\ Nat.max (String.length "javaa") (String.length "java") = 5%nat
      /\ (1 - inject_Z 1 / inject_Z 5 == 8 # 10)%Q
      /\ _fuzzyMatch "javaa" "java" = true
      /\ levenshteinDistance "kitten" "sitting" = 3%nat
      /\ _fuzzyMatch "kitten" "sitting" = false).
Proof.
  split; [|split; [|split]].
  - exact findCandidates_In.
  - intros q w H4. rewrite _fuzzyMatch_iff, _levenshtein_distance. split.
    + intros (Hd & _ & Hr). auto.
    + intros (Hd & Hr). repeat split; try assumption. lia.
  - exact _levenshtein_distance.
  - repeat split.
Qed.

(** C3 at the documented example. *)
Lemma fuzzy_candidate_expansion_javaa :
  _fuzzyMatch "javaa" "java" = true
  <-> (absDiff (String.length "javaa") (String.length "java") <= 2)%nat
      /\ (inject_Z (Z.of_nat (levenshteinDistance "javaa" "java"))
          / inject_Z (Z.of_nat (Nat.max (String.length "javaa")
                                  (String.length "java")))
          <= 4 # 10)%Q.
Proof.
  apply (proj1 (proj2 fuzzy_candidate_expansion) "javaa" "java").
  simpl. lia.
Defined.

End ExpansionFacts.

(** ** Scoring *)

Section ScoringFacts.

Import MagnoliaSearch Scoring.

Variables title heading content breadcrumb : string.

Lemma occurrenceBonus_nonneg (count : nat) :
  (0 <= Qmin (inject_Z (Z.of_nat count) * (1 # 2)) 5)%Q.
Proof.
  apply Q.min_glb; [|lra].
  assert (0 <= inject_Z (Z.of_nat count))%Q
    by (change 0%Q with (inject_Z 0); rewrite <- Zle_Qle; lia).
  lra.
Qed.

(** A term adds the same amount whatever the running score. *)
Lemma scoreTerm_shift (score : Q) (term : string) :
  (scoreTerm title heading content breadcrumb score term
   == score + scoreTerm title heading content breadcrumb 0 term)%Q.
Proof.
  unfold scoreTerm. simpl.
  destruct (JS.includes title term), (JS.startsWith title term),
    (JS.truthy heading && JS.includes heading term),
    (JS.includes content term), (JS.includes breadcrumb term); ring.
Qed.

Lemma scoreTerm_nonneg (term : string) :
  (0 <= scoreTerm title heading content breadcrumb 0 term)%Q.
Proof.
  unfold scoreTerm. simpl.
  pose proof (occurrenceBonus_nonneg (JS.countMatches term content)) as Hb.
  destruct (JS.includes title term), (JS.startsWith title term),
    (JS.truthy heading && JS.includes heading term),
    (JS.includes content term), (JS.includes breadcrumb term); lra.
Qed.

Lemma fold_scoreTerm_shift (terms : list string) :
  forall score,
    (fold_left (scoreTerm title heading content breadcrumb) terms score
     == score
        + fold_left (scoreTerm title heading content breadcrumb) terms 0)%Q.
Proof.
  induction terms as [|t terms IH]; intros score; simpl.
  - ring.
  - rewrite (IH (scoreTerm title heading content breadcrumb score t)).
    rewrite (IH (scoreTerm title heading content breadcrumb 0 t)).
    rewrite (scoreTerm_shift score t). ring.
Qed.

Lemma fold_scoreTerm_nonneg (terms : list string) :
  (0 <= fold_left (scoreTerm title heading content breadcrumb) terms 0)%Q.
Proof.
  induction terms as [|t terms IH]; simpl.
  - lra.
  - rewrite fold_scoreTerm_shift.
    pose proof (scoreTerm_nonneg t). lra.
Qed.

End ScoringFacts.

Section ScoreMonotonicity.

Import MagnoliaSearch Scoring.

(** C4 as stated fails.  For the query that repeats the token [ab] thirty
    times, the record whose title is that query and the otherwise
    identical record titled [ab] receive the same per-token contributions
    (750), yet the first scores 100 + 750 = 850 and the second, whose
    title is shorter than 30 characters, 750 * 1.2 = 900. *)
Lemma phrase_match_can_lower_score :
  let q := Samples.repeatedQuery in
  let terms := _tokenize q in
  let d1 := Samples.recordTitled q in
  let d2 := Samples.recordTitled "ab" in
  sameExceptTitle d1 d2
  /\ JS.includes (lowerTitle d1) q = true
  /\ JS.includes (lowerTitle d2) q = false
  /\ (perTokenTotal d1 terms == perTokenTotal d2 terms)%Q
  /\ (_scoreDocument d1 terms q == 850)%Q
  /\ (_scoreDocument d2 terms q == 900)%Q
  /\ ~ (_scoreDocument d2 terms q < _scoreDocument d1 terms q)%Q.
Proof.
  assert (H1 : (_scoreDocument (Samples.recordTitled Samples.repeatedQuery)
                  (_tokenize Samples.repeatedQuery) Samples.repeatedQuery
                == 850)%Q) by (vm_compute; reflexivity).
  assert (H2 : (_scoreDocument (Samples.recordTitled "ab")
                  (_tokenize Samples.repeatedQuery) Samples.repeatedQuery
                == 900)%Q) by (vm_compute; reflexivity).
  cbv zeta. repeat match goal with |- _ /\ _ => split end.
  - unfold sameExceptTitle. simpl. repeat split.
  - vm_compute. reflexivity.
  - vm_compute. reflexivity.
  - vm_compute. reflexivity.
  - exact H1.
  - exact H2.
  - rewrite H1, H2. intros H. lra.
Qed.

(** C4, amended: adding an exact full-query-string match to the title
    strictly increases the score against an otherwise identical document
    whose title lacks it, the per-token contributions being equal,
    exactly when the title with the match is still shorter than 30
    characters whenever the title without it is, or the heading bonus
    plus the per-token total is below 500.  The only pairs that fail are
    those that lose the boost of 1.2 for a short title while that sum
    is 500 or more: then the lost fifth outweighs the bonus of 100.
    (The sums are multiples of 0.5, so the comparison is the same on the
    doubles of the source: at 500 both sides are 600, elsewhere they
    differ by 0.1 or more.) *)
Theorem phrase_match_raises_score (d1 d2 : SearchRecord.t)
    (queryTerms : list string) (fullQuery : string) :
  sameExceptTitle d1 d2 ->
  JS.includes (lowerTitle d1) fullQuery = true ->
  JS.includes (lowerTitle d2) fullQuery = false ->
  (perTokenTotal d1 queryTerms == perTokenTotal d2 queryTerms)%Q ->
  ((_scoreDocument d2 queryTerms fullQuery
    < _scoreDocument d1 queryTerms fullQuery)%Q
   <-> (((String.length (SearchRecord.title d2) < 30)%nat ->
         (String.length (SearchRecord.title d1) < 30)%nat)
        \/ (headingBonus d2 fullQuery + perTokenTotal d2 queryTerms < 500)%Q)).
Proof.
  intros (_ & _ & Hh & Hl & Hc & Hf & _ & _ & Hb & _) Hin1 Hin2 Hpt.
  unfold headingBonus.
  unfold perTokenTotal, lowerHeading, lowerContent, lowerBreadcrumb in *.
  unfold lowerTitle in *.
  unfold _scoreDocument.
  rewrite !toLowerCase_length.
  rewrite Hin1, Hin2, Hh, Hl, Hc, Hf, Hb in *.
  set (t1 := JS.toLowerCase (SearchRecord.title d1)) in *.
  set (t2 := JS.toLowerCase (SearchRecord.title d2)) in *.
  set (h := JS.toLowerCase (Indexer.orElse (SearchRecord.heading d2) "")) in *.
  set (c := JS.toLowerCase
              (if JS.truthy (SearchRecord.fullContent d2)
               then SearchRecord.fullContent d2 else SearchRecord.content d2)) in *.
  set (b := JS.toLowerCase (JS.join " " (SearchRecord.breadcrumb d2))) in *.
  pose proof (fold_scoreTerm_nonneg t2 h c b queryTerms) as Hnn.
  destruct (JS.includes h fullQuery);
    cbv zeta;
    match goal with
    | |- context [fold_left (scoreTerm t2 h c b) queryTerms ?s2] =>
        pose proof (fold_scoreTerm_shift t2 h c b queryTerms s2) as E2
    end;
    match goal with
    | |- context [fold_left (scoreTerm t1 h c b) queryTerms ?s1] =>
        pose proof (fold_scoreTerm_shift t1 h c b queryTerms s1) as E1
    end;
    destruct (Nat.ltb_spec (String.length (SearchRecord.title d2)) 30)
      as [L2 | L2];
    destruct (Nat.ltb_spec (String.length (SearchRecord.title d1)) 30)
      as [L1 | L1];
    destruct (negb (SearchRecord.headingLevel d2 =? 0)%nat
              && (SearchRecord.headingLevel d2 <=? 2)%nat);
    (split;
     [ intros Hlt;
       first [ left; intros _; exact L1
             | left; intros L; exfalso; lia
             | right; lra ]
     | intros [Hkeep | Hsum];
       first [ lra | exfalso; specialize (Hkeep L2); lia ] ]).
Qed.

(** C4, amended, at a concrete pair: for the query [java maven] the
    title [java maven for the impatient reader] (35 characters, no
    short-title boost) scores 135 and the title [maven java] scores 42:
    the match raises the score although the boost is lost. *)
Lemma phrase_match_raises_score_java :
  (_scoreDocument (Samples.recordTitled "maven java")
     (_tokenize "java maven") "java maven"
   < _scoreDocument (Samples.recordTitled "java maven for the impatient reader")
       (_tokenize "java maven") "java maven")%Q
  <-> (((String.length
           (SearchRecord.title (Samples.recordTitled "maven java")) < 30)%nat ->
        (String.length
           (SearchRecord.title
              (Samples.recordTitled "java maven for the impatient reader"))
         < 30)%nat)
       \/ (headingBonus (Samples.recordTitled "maven java") "java maven"
           + perTokenTotal (Samples.recordTitled "maven java")
               (_tokenize "java maven") < 500)%Q).
Proof.
  apply phrase_match_raises_score.
  - unfold sameExceptTitle. simpl. repeat split.
  - vm_compute. reflexivity.
  - vm_compute. reflexivity.
  - vm_compute. reflexivity.
Defined.

Example phrase_match_scores :
  (_scoreDocument (Samples.recordTitled "java maven for the impatient reader")
     (_tokenize "java maven") "java maven" == 135)%Q
  /\ (_scoreDocument (Samples.recordTitled "maven java")
        (_tokenize "java maven") "java maven" == 42)%Q.
Proof. split; vm_compute; reflexivity. Qed.

End ScoreMonotonicity.

(** ** Searching *)

Section SearchFacts.

Import MagnoliaSearch Consistency.

Lemma mapCandidates_In {A B} (f : A -> Completion B) (l : list A) :
  forall ys y,
    mapCandidates f l = Return ys -> In y ys ->
    exists x, In x l /\ f x = Return y.
Proof.
  induction l as [|x l IH]; intros ys y H Hy; simpl in H.
  - inversion H; subst. contradiction.
  - destruct (f x) as [y0|] eqn:Hx; [|discriminate].
    destruct (mapCandidates f l) as [ys0|]; [|discriminate].
    inversion H; subst. destruct Hy as [-> | Hy].
    + exists x. simpl. auto.
    + destruct (IH ys0 y eq_refl Hy) as (x0 & Hin & E).
      exists x0. simpl. auto.
Qed.

Lemma mapCandidates_total {A B} (f : A -> Completion B) (l : list A) :
  (forall x, In x l -> exists y, f x = Return y) ->
  exists ys, mapCandidates f l = Return ys.
Proof.
  induction l as [|x l IH]; intros H; simpl.
  - eauto.
  - destruct (H x (or_introl eq_refl)) as (y & ->).
    destruct IH as (ys & ->); [intros; apply H; simpl; auto|].
    eauto.
Qed.

Lemma filterBoolean_In {A} (l : list (option A)) (x : A) :
  In x (filterBoolean l) <-> In (Some x) l.
Proof.
  induction l as [|[y|] l IH]; simpl.
  - tauto.
  - rewrite IH. split; intros [H | H]; auto; left; congruence.
  - rewrite IH. split; [auto | intros [H | H]; [discriminate | assumption]].
Qed.

Lemma insertScored_In (a x : SearchRecord.t * Q) (l : list (SearchRecord.t * Q)) :
  In x (insertScored a l) <-> x = a \/ In x l.
Proof.
  induction l as [|b l IH]; simpl.
  - intuition.
  - destruct (Qle_bool (snd b - snd a) 0); simpl.
    + intuition.
    + rewrite IH. intuition.
Qed.

Lemma sortScored_In (x : SearchRecord.t * Q) (l : list (SearchRecord.t * Q)) :
  In x (sortScored l) <-> In x l.
Proof.
  induction l as [|a l IH]; simpl; [tauto|].
  rewrite insertScored_In, IH. intuition.
Qed.

Lemma In_firstn {A} (n : nat) :
  forall (l : list A) (x : A), In x (firstn n l) -> In x l.
Proof.
  induction n as [|n IH]; intros [|a l] x H; simpl in *; try contradiction.
  destruct H as [H | H]; auto.
Qed.

(** Every returned record passed [scoreCandidate] for some candidate. *)
Lemma search_result_scored (st : Engine) (query : option string)
    (options : SearchOptions.t) (results : list SearchResult) (r : SearchResult) :
  search st query options = Return results ->
  In r results ->
  exists terms q docIndex,
    scoreCandidate st (orNull (SearchOptions.version options))
      (orNull (SearchOptions.category options)) terms q docIndex
    = Return (Some (doc r, _score r)).
Proof.
  unfold search. intros H Hr.
  destruct (negb (loaded st)); [inversion H; subst; contradiction|].
  set (q := JS.toLowerCase (JS.trim (Indexer.orElse query ""))) in *.
  destruct (String.length q <? minQueryLength config)%nat;
    [inversion H; subst; contradiction|].
  destruct (List.length (_tokenize q) =? 0)%nat;
    [inversion H; subst; contradiction|].
  match type of H with
  | context [mapCandidates ?f ?l] =>
      destruct (mapCandidates f l) as [scored|] eqn:Hmap; [|discriminate]
  end.
  inversion H; subst; clear H.
  apply in_map_iff in Hr. destruct Hr as ([d sc] & <- & Hin).
  apply In_firstn in Hin.
  apply (proj1 (sortScored_In _ _)) in Hin.
  apply (proj1 (filterBoolean_In _ _)) in Hin.
  destruct (mapCandidates_In _ _ _ _ Hmap Hin) as (docIndex & _ & E).
  simpl. eauto.
Qed.

Lemma scoreCandidate_filters (st : Engine) (fv fc : option string)
    (terms : list string) (q : string) (docIndex : nat)
    (d : SearchRecord.t) (sc : Q) :
  scoreCandidate st fv fc terms q docIndex = Return (Some (d, sc)) ->
  (forall v, fv = Some v -> SearchRecord.version d = v)
  /\ (forall c, fc = Some c -> SearchRecord.category d = c).
Proof.
  unfold scoreCandidate.
  destruct (nth_error (index st) docIndex) as [d0|]; [|discriminate].
  destruct fv as [v|], fc as [c|];
    repeat match goal with
           | |- context [negb (?a =? ?b)] =>
               destruct (String.eqb_spec a b); simpl
           end;
    intros H; inversion H; subst;
    split; intros x Hx; inversion Hx; subst; auto.
Qed.

(** *** The inverted index stays within the record array *)

Lemma objGet_objSet {A} (o : JsObject A) (k k' : string) (v : A) :
  objGet (objSet o k v) k' = if k =? k' then Some v else objGet o k'.
Proof.
  induction o as [|[k0 v0] o IH]; simpl.
  - reflexivity.
  - destruct (String.eqb_spec k0 k) as [-> | Hne]; simpl.
    + destruct (k =? k'); reflexivity.
    + rewrite IH.
      destruct (String.eqb_spec k0 k') as [-> | Hne'];
        [|reflexivity].
      destruct (String.eqb_spec k k'); [congruence | reflexivity].
Qed.

Lemma postingsBelow_weaken (m n : nat) (inv : JsObject (list nat)) :
  (m <= n)%nat -> postingsBelow m inv -> postingsBelow n inv.
Proof. intros Hle H w arr idx E Hin. specialize (H w arr idx E Hin). lia. Qed.

Lemma addPosting_below (n docIndex : nat) (inv : JsObject (list nat))
    (word : string) :
  (docIndex < n)%nat ->
  postingsBelow n inv -> postingsBelow n (addPosting inv docIndex word).
Proof.
  intros Hlt Hinv. unfold addPosting.
  destruct (isReservedWord word); [assumption|].
  set (inv1 := if negb (objHas inv word) then objSet inv word [] else inv).
  assert (H1 : postingsBelow n inv1).
  { unfold inv1. destruct (negb (objHas inv word)); [|assumption].
    intros w arr idx E Hin. rewrite objGet_objSet in E.
    destruct (word =? w).
    - inversion E; subst. contradiction.
    - eauto. }
  destruct (objGet inv1 word) as [arr|] eqn:Harr; [|assumption].
  destruct (negb (existsb (Nat.eqb docIndex) arr)); [|assumption].
  intros w arr' idx E Hin. rewrite objGet_objSet in E.
  destruct (word =? w).
  - inversion E; subst. apply in_app_iff in Hin.
    destruct Hin as [Hin | [<- | []]]; [eauto | assumption].
  - eauto.
Qed.

Lemma indexDocs_below (docs : list SearchRecord.t) :
  forall docIndex inv,
    postingsBelow docIndex inv ->
    postingsBelow (docIndex + List.length docs) (indexDocs docIndex docs inv).
Proof.
  induction docs as [|d docs IH]; intros docIndex inv Hinv; simpl.
  - now rewrite Nat.add_0_r.
  - rewrite <- Nat.add_succ_comm. apply IH.
    assert (H : forall words inv0,
               postingsBelow (S docIndex) inv0 ->
               postingsBelow (S docIndex)
                 (fold_left (fun inv word => addPosting inv docIndex word)
                    words inv0)).
    { induction words as [|w words IHw]; intros inv0 H0; simpl;
        [assumption|].
      apply IHw. apply addPosting_below; [lia | assumption]. }
    apply H. eapply postingsBelow_weaken; [|eassumption]. lia.
Qed.

Lemma _buildInvertedIndex_inRange (st : Engine) :
  postingsInRange (_buildInvertedIndex st).
Proof.
  unfold postingsInRange, _buildInvertedIndex. simpl.
  apply (indexDocs_below (index st) 0 []).
  intros w arr idx E. discriminate.
Qed.

(** A successful [load] leaves the engine ready and its inverted index
    within the record array. *)
Lemma load_resolved_consistent (st st' : Engine) (net : string -> FetchOutcome)
    (effects : list Effect) :
  postingsInRange st ->
  load st net = (Resolved, WellFormed st', effects) ->
  loaded st' = true /\ postingsInRange st'.
Proof.
  unfold load. intros Hst H.
  destruct (loaded st) eqn:Hl.
  - inversion H; subst. auto.
  - destruct (net (indexUrl st)) as [|ok [[records|value]|]];
      try discriminate; destruct ok; simpl in H; try discriminate.
    destruct (onReady st); try discriminate.
    inversion H; subst. split; [reflexivity|].
    apply _buildInvertedIndex_inRange.
Qed.

(** On an engine whose inverted index is within the record array, and so
    on every engine that [load] made ready, [search] does not throw. *)
Lemma search_returns (st : Engine) (query : option string)
    (options : SearchOptions.t) :
  postingsInRange st ->
  exists results, search st query options = Return results.
Proof.
  intros Hst. unfold search.
  destruct (negb (loaded st)); [eauto|].
  set (q := JS.toLowerCase (JS.trim (Indexer.orElse query ""))).
  destruct (String.length q <? minQueryLength config)%nat; [eauto|].
  destruct (List.length (_tokenize q) =? 0)%nat; [eauto|].
  match goal with
  | |- context [mapCandidates ?f ?l] =>
      destruct (mapCandidates_total f l) as (scored & ->); [|eauto]
  end.
  intros idx Hidx.
  apply (proj1 (findCandidates_In st (_tokenize q) idx)) in Hidx.
  destruct Hidx as (term & w & _ & (arr & E & Hin) & _).
  specialize (Hst w arr idx E Hin).
  unfold scoreCandidate.
  destruct (nth_error (index st) idx) as [d|] eqn:Hn.
  - destruct (match orNull (SearchOptions.version options) with
              | Some v => negb (SearchRecord.version d =? v)
              | None => false
              end); [eauto|].
    destruct (match orNull (SearchOptions.category options) with
              | Some c => negb (SearchRecord.category d =? c)
              | None => false
              end); eauto.
  - apply nth_error_None in Hn. lia.
Qed.

(** An engine that [load] has made ready from a new one. *)
Lemma load_new_resolved (optIndexUrl : option string)
    (net : string -> FetchOutcome) (st : Engine) (effects : list Effect) :
  load (newEngine optIndexUrl) net = (Resolved, WellFormed st, effects) ->
  loaded st = true /\ postingsInRange st.
Proof.
  apply load_resolved_consistent.
  intros w arr idx E. discriminate.
Qed.

(** C5: when a version filter is in force, every returned record has that
    version; when a category filter is in force, every returned record
    has that category; and on an engine that [load] has made ready the
    call does return a result list. *)
Theorem search_respects_filters :
  (forall st query options results,
      search st query options = Return results ->
      (forall v, orNull (SearchOptions.version options) = Some v ->
                 Forall (fun r => SearchRecord.version (doc r) = v) results)
      /\ (forall c, orNull (SearchOptions.category options) = Some c ->
                    Forall (fun r => SearchRecord.category (doc r) = c) results))
  /\ (forall optIndexUrl net st effects query options,
         load (newEngine optIndexUrl) net = (Resolved, WellFormed st, effects) ->
         exists results, search st query options = Return results).
Proof.
  split.
  - intros st query options results H.
    split; intros x Hx; apply Forall_forall; intros r Hr;
      destruct (search_result_scored _ _ _ _ _ H Hr) as (terms & q & i & E);
      apply scoreCandidate_filters in E; destruct E as [Hv Hc]; auto.
  - intros optIndexUrl net st effects query options H.
    apply search_returns.
    exact (proj2 (load_new_resolved _ _ _ _ H)).
Qed.

(** The example of the specification: the record "Installing Magnolia
    CLI" scores [(3 + 0.5) * 1.2 * 1.1 = 4.62] for [java]; [jav] reaches
    it by the prefix rule and [javaa] by the fuzzy rule. *)
Example search_scenario :
  let options := {| SearchOptions.version := None;
                    SearchOptions.category := None;
                    SearchOptions.maxResults := None |} in
  let titles r :=
    match r with
    | Return rs => map (fun r => SearchRecord.title (doc r)) rs
    | Throw => []
    end in
  (_scoreDocument (Samples.sampleRecord "Installing Magnolia CLI"
                     "You need Java 17 and Maven installed." "6.3" "")
     ["java"] "java" == 462 # 100)%Q
  /\ titles (search Samples.sampleEngine (Some "jav") options)
     = ["Java modules"; "Installing Magnolia CLI"; "Installing Magnolia CLI"]
  /\ titles (search Samples.sampleEngine (Some "javaa") options)
     = ["Installing Magnolia CLI"; "Installing Magnolia CLI"; "Java modules"]
  /\ search Samples.sampleEngine (Some "x") options = Return [].
Proof. vm_compute. repeat split. Qed.

Example search_java_63 :
  map (fun r => (SearchRecord.title (doc r), SearchRecord.version (doc r)))
    match search Samples.sampleEngine (Some "java")
            {| SearchOptions.version := Some "6.3";
               SearchOptions.category := None;
               SearchOptions.maxResults := None |} with
    | Return rs => rs
    | Throw => []
    end
  = [("Java modules", "6.3"); ("Installing Magnolia CLI", "6.3")].
Proof. vm_compute. reflexivity. Qed.

(** C5 on the sample index: the query [java] with the version filter
    [6.3]. *)
Lemma search_respects_filters_sample :
  let options := {| SearchOptions.version := Some "6.3";
                    SearchOptions.category := None;
                    SearchOptions.maxResults := None |} in
  exists results,
    search Samples.sampleEngine (Some "java") options = Return results
    /\ List.length results = 2%nat
    /\ Forall (fun r => SearchRecord.version (doc r) = "6.3") results.
Proof.
  cbv zeta.
  destruct (search Samples.sampleEngine (Some "java")
              {| SearchOptions.version := Some "6.3";
                 SearchOptions.category := None;
                 SearchOptions.maxResults := None |}) as [results|] eqn:E.
  - exists results. split; [reflexivity|]. split.
    + revert E. vm_compute. intros E. inversion E. reflexivity.
    + exact (proj1 (proj1 search_respects_filters _ _ _ _ E) "6.3" eq_refl).
  - exfalso. revert E. vm_compute. discriminate.
Defined.

(** C6: [search] returns the empty list, without throwing, when the
    engine is not ready, when the trimmed query has fewer than 2
    characters, and when the trimmed, lowercased query has no token of
    length at least 2. *)
Theorem search_degrades_to_empty (st : Engine) (query : option string)
    (options : SearchOptions.t) :
  loaded st = false
  \/ (String.length (JS.trim (Indexer.orElse query "")) < 2)%nat
  \/ _tokenize (JS.toLowerCase (JS.trim (Indexer.orElse query ""))) = [] ->
  search st query options = Return [].
Proof.
  intros H. unfold search.
  destruct (loaded st); simpl; [|reflexivity].
  destruct H as [H | [H | H]]; [discriminate | |].
  - rewrite toLowerCase_length.
    apply Nat.ltb_lt in H. now rewrite H.
  - rewrite H. simpl.
    now destruct (String.length _ <? 2)%nat.
Qed.

(** C6 at the three kinds of input: an engine before [load], the query
    [x] and the query [? !] on the loaded sample engine. *)
Lemma search_degrades_to_empty_samples :
  let options := {| SearchOptions.version := None;
                    SearchOptions.category := None;
                    SearchOptions.maxResults := None |} in
  search (newEngine None) (Some "java") options = Return []
  /\ search Samples.sampleEngine (Some " x ") options = Return []
  /\ search Samples.sampleEngine (Some "? !") options = Return []
  /\ search Samples.sampleEngine None options = Return [].
Proof.
  cbv zeta. split; [|split; [|split]]; apply search_degrades_to_empty.
  - left. reflexivity.
  - right. left. vm_compute. lia.
  - right. right. vm_compute. reflexivity.
  - right. left. vm_compute. lia.
Defined.

End SearchFacts.

(** ** Loading *)

Section LoadFacts.

Import MagnoliaSearch Consistency.

(** C7: [load] on a ready engine returns at once, with no fetch and no
    change, so a second [load] after a successful one is a no-op; and
    when the fetch fails, the response is not a success, or the body does
    not parse, [load] rejects and the engine is exactly as before.  A
    failed load is applied all the same in two cases, because
    [this.index] and [this.loaded] are assigned before
    [_buildInvertedIndex()] and [onReady()] run in the same [try].  When
    the body of a successful response parses to [null] or to an array
    that holds a [null], [load] rejects and leaves the engine ready, its
    record array replaced by that value and its inverted index replaced
    by the one of the records before the [null].  When [onReady] throws,
    [load] rejects and leaves the engine ready with the new record array
    and inverted index, so that a later [load] returns at once without a
    fetch.  On a new engine: the body [null], and the sample index with
    its second record replaced by [null]. *)
Theorem load_idempotent_not_atomic :
  (forall st net,
      loaded st = true -> load st net = (Resolved, WellFormed st, []))
  /\ (forall st net st' effects,
         load st net = (Resolved, WellFormed st', effects) ->
         forall net', load st' net' = (Resolved, WellFormed st', []))
  /\ (forall st net,
         loaded st = false -> fetchFails (net (indexUrl st)) ->
         load st net
         = (Rejected, WellFormed st, [EFetch (indexUrl st); EConsoleError]))
  /\ (forall st net value,
         loaded st = false ->
         net (indexUrl st) = FetchResponse true (Some (JsonMalformed value)) ->
         exists st',
           load st net
           = (Rejected, Malformed st', [EFetch (indexUrl st); EConsoleError])
           /\ heldLoaded st' = true
           /\ heldIndex st' = value
           /\ heldInvertedIndex st' = indexedBeforeThrow value)
  /\ (forall st net records,
         loaded st = false -> onReady st = Throws ->
         net (indexUrl st) = FetchResponse true (Some (JsonRecords records)) ->
         exists st',
           load st net
           = (Rejected, WellFormed st',
              [EFetch (indexUrl st); EConsoleLog; EOnReady; EConsoleError])
           /\ loaded st' = true
           /\ index st' = records
           /\ invertedIndex st' = indexDocs 0 records []
           /\ forall net', load st' net' = (Resolved, WellFormed st', []))
  /\ (loaded (newEngine None) = false
      /\ index (newEngine None) = []
      /\ invertedIndex (newEngine None) = []
      /\ load (newEngine None) Samples.nullNet
         = (Rejected,
            Malformed {| heldIndex := IndexNull;
                         heldLoaded := true;
                         heldIndexUrl := "/search-data/search-index.min.json";
                         heldInvertedIndex := [];
                         heldOnReady := Returns |},
            [EFetch "/search-data/search-index.min.json"; EConsoleError])
      /\ exists st',
           load (newEngine None) Samples.nullRecordNet
           = (Rejected, Malformed st',
              [EFetch "/search-data/search-index.min.json"; EConsoleError])
           /\ heldLoaded st' = true
           /\ heldIndex st' = Samples.nullRecordIndex
           /\ objGet (heldInvertedIndex st') "java" = Some [0%nat]
           /\ objGet (invertedIndex Samples.sampleEngine) "java"
              = Some [0%nat; 1%nat; 2%nat]).
Proof.
  assert (Hready : forall st net,
             loaded st = true -> load st net = (Resolved, WellFormed st, [])).
  { intros st net H. unfold load. now rewrite H. }
  split; [exact Hready|].
  split; [|split; [|split; [|split]]].
  - intros st net st' effects H net'. apply Hready.
    unfold load in H. destruct (loaded st) eqn:Hl.
    + inversion H; now subst.
    + destruct (net (indexUrl st)) as [|ok [[records|value]|]];
        try discriminate; destruct ok; simpl in H; try discriminate.
      destruct (onReady st); try discriminate.
      inversion H; subst. reflexivity.
  - intros st net Hl Hfail. unfold load. rewrite Hl.
    destruct Hfail as [-> | [(json & ->) | (ok & ->)]]; try reflexivity.
    destruct ok; reflexivity.
  - intros st net value Hl Hnet. unfold load. rewrite Hl, Hnet. simpl.
    eexists. split; [reflexivity|]. simpl. auto.
  - intros st net records Hl Hthrows Hnet. unfold load at 1.
    rewrite Hl, Hnet. simpl. rewrite Hthrows.
    eexists. split; [reflexivity|]. simpl.
    split; [reflexivity|]. split; [reflexivity|]. split; [reflexivity|].
    intros net'. apply Hready. reflexivity.
  - split; [reflexivity|]. split; [reflexivity|]. split; [reflexivity|].
    split; [reflexivity|].
    eexists. split; [reflexivity|]. vm_compute. auto.
Qed.

End LoadFacts.

(** ** Context assembly *)

Section AssemblyFacts.

Import MagnoliaAI Assembly.

Lemma append_assoc (a b c : string) : (a ++ b) ++ c = a ++ b ++ c.
Proof. induction a; simpl; congruence. Qed.

Lemma append_empty_r (a : string) : a ++ "" = a.
Proof. induction a; simpl; congruence. Qed.

Lemma contextLoop_cons (c : Indexer.LlmChunk.t)
    (rest : list Indexer.LlmChunk.t) (context : string) (totalTokens : Z) :
  contextLoop (c :: rest) context totalTokens
  = if (totalTokens + Indexer.LlmChunk.tokenEstimate c
          >? maxContextTokens config)%Z
    then (context, totalTokens)
    else contextLoop rest
           (context ++ separator ++ Indexer.LlmChunk.content c)
           (totalTokens + Indexer.LlmChunk.tokenEstimate c)%Z.
Proof. reflexivity. Qed.

Lemma sumTokens_cons (c : Indexer.LlmChunk.t) (rest : list Indexer.LlmChunk.t) :
  sumTokens (c :: rest) = (Indexer.LlmChunk.tokenEstimate c + sumTokens rest)%Z.
Proof. reflexivity. Qed.

(** The loop includes a prefix of the ranked chunks: each chunk of the
    prefix fitted when it was added, and the chunk after the prefix, if
    any, would have exceeded the budget. *)
Lemma contextLoop_prefix (chunks : list Indexer.LlmChunk.t) :
  forall context totalTokens,
  exists k,
    (k <= List.length chunks)%nat
    /\ contextLoop chunks context totalTokens
       = (context ++ renderChunks (firstn k chunks),
          (totalTokens + sumTokens (firstn k chunks))%Z)
    /\ (forall j, (1 <= j <= k)%nat ->
          (totalTokens + sumTokens (firstn j chunks)
           <= maxContextTokens config)%Z)
    /\ ((k < List.length chunks)%nat ->
        (maxContextTokens config
         < totalTokens + sumTokens (firstn (S k) chunks))%Z).
Proof.
  induction chunks as [|c chunks IH]; intros context totalTokens.
  - exists 0%nat. simpl. rewrite append_empty_r, Z.add_0_r.
    split; [lia|]. split; [reflexivity|].
    split; [intros j Hj; lia | intros Hlt; lia].
  - rewrite contextLoop_cons.
    destruct (totalTokens + Indexer.LlmChunk.tokenEstimate c
                >? maxContextTokens config)%Z eqn:Hcmp.
    + rewrite Z.gtb_ltb in Hcmp. apply Z.ltb_lt in Hcmp.
      exists 0%nat.
      change (firstn 0 (c :: chunks)) with (@nil Indexer.LlmChunk.t).
      change (firstn 1 (c :: chunks)) with [c].
      rewrite sumTokens_cons.
      change (sumTokens []) with 0%Z. change (renderChunks []) with "".
      rewrite append_empty_r, Z.add_0_r.
      split; [simpl; lia|]. split; [reflexivity|].
      split; [intros j Hj; lia | intros _; lia].
    + rewrite Z.gtb_ltb in Hcmp. apply Z.ltb_ge in Hcmp.
      destruct (IH (context ++ separator ++ Indexer.LlmChunk.content c)
                  (totalTokens + Indexer.LlmChunk.tokenEstimate c)%Z)
        as (k & Hk & Hloop & Hfit & Hnext).
      exists (S k). split; [simpl; lia|]. split; [|split].
      * rewrite Hloop.
        change (firstn (S k) (c :: chunks)) with (c :: firstn k chunks).
        rewrite sumTokens_cons.
        change (renderChunks (c :: firstn k chunks))
          with (separator ++ Indexer.LlmChunk.content c
                ++ renderChunks (firstn k chunks)).
        f_equal; [|lia].
        now rewrite !append_assoc.
      * intros [|j] Hj; [lia|].
        change (firstn (S j) (c :: chunks)) with (c :: firstn j chunks).
        rewrite sumTokens_cons.
        destruct j as [|j].
        -- change (firstn 0 chunks) with (@nil Indexer.LlmChunk.t).
           change (sumTokens []) with 0%Z. lia.
        -- specialize (Hfit (S j) ltac:(lia)). lia.
      * intros Hlt. simpl in Hlt.
        specialize (Hnext ltac:(lia)).
        change (firstn (S (S k)) (c :: chunks))
          with (c :: firstn (S k) chunks).
        rewrite sumTokens_cons. lia.
Qed.

(** C9: [buildContext] includes a prefix of the score-ranked chunks: the
    context is the whole contents of the first [k] chunks in rank order,
    each preceded by the horizontal-rule separator, trimmed as a whole;
    every one of them fitted in [maxContextTokens] (8000) when it was
    added; [k] stops at the first chunk whose estimate would take the
    running total over the budget; and nothing after that chunk is
    included. *)
Theorem buildContext_ranked_prefix (relevantChunks : list Relevant) :
  let chunks := map chunk relevantChunks in
  maxContextTokens config = 8000%Z
  /\ exists k,
       (k <= List.length chunks)%nat
       /\ context (buildContext relevantChunks)
          = JS.trim (renderChunks (firstn k chunks))
       /\ tokenEstimate (buildContext relevantChunks)
          = sumTokens (firstn k chunks)
       /\ (forall j, (1 <= j <= k)%nat ->
             (sumTokens (firstn j chunks) <= maxContextTokens config)%Z)
       /\ ((k < List.length chunks)%nat ->
           (maxContextTokens config < sumTokens (firstn (S k) chunks))%Z).
Proof.
  intros chunks. split; [reflexivity|].
  destruct (contextLoop_prefix chunks "" 0%Z) as (k & Hk & Hloop & Hfit & Hnext).
  exists k. unfold buildContext. fold chunks. rewrite Hloop. simpl.
  repeat split; auto.
Qed.

(** *** Trimming keeps every content whole *)

Lemma trimEnd_idempotent (s : string) : JS.trimEnd (JS.trimEnd s) = JS.trimEnd s.
Proof.
  induction s as [|c s IH]; [reflexivity|].
  cbn [JS.trimEnd].
  destruct (JS.isWhiteSpace c && (JS.trimEnd s =? "")) eqn:E; [reflexivity|].
  cbn [JS.trimEnd]. rewrite IH, E. reflexivity.
Qed.

Lemma append_nonempty_r (x y : string) : y <> "" -> x ++ y <> "".
Proof. destruct x; simpl; [auto | discriminate]. Qed.

Lemma endsClean_append (x y : string) : endsClean y -> endsClean (x ++ y).
Proof.
  intros [Hne Ht]. split; [now apply append_nonempty_r|].
  induction x as [|c x IH]; [assumption|].
  cbn [append JS.trimEnd]. rewrite IH.
  destruct (String.eqb_spec (x ++ y) "") as [E | _].
  - now apply append_nonempty_r in E.
  - now rewrite andb_false_r.
Qed.

Lemma renderChunks_endsClean (chunks : list Indexer.LlmChunk.t) :
  Forall (fun c => endsClean (Indexer.LlmChunk.content c)) chunks ->
  chunks <> [] -> endsClean (renderChunks chunks).
Proof.
  induction chunks as [|c chunks IH]; intros Hall Hne; [contradiction|].
  inversion Hall as [|? ? Hc Hrest]; subst.
  cbn [renderChunks]. apply endsClean_append.
  destruct chunks as [|c' chunks].
  - cbn [renderChunks]. now rewrite append_empty_r.
  - apply endsClean_append. apply IH; [assumption | discriminate].
Qed.

(** When no content ends in white space, trimming the assembled text only
    removes the two line feeds that lead it. *)
Lemma trim_renderChunks (chunks : list Indexer.LlmChunk.t) :
  Forall (fun c => endsClean (Indexer.LlmChunk.content c)) chunks ->
  JS.trim (renderChunks chunks) = ruleThenChunks chunks.
Proof.
  intros Hall. destruct chunks as [|c chunks]; [reflexivity|].
  unfold JS.trim. cbn [renderChunks].
  change (JS.trimStart
            (separator ++ Indexer.LlmChunk.content c ++ renderChunks chunks))
    with (ruleThenChunks (c :: chunks)).
  unfold ruleThenChunks.
  assert (Hclean : endsClean
                     (Indexer.LlmChunk.content c ++ renderChunks chunks)).
  { inversion Hall as [|? ? Hc Hrest]; subst.
    destruct chunks as [|c' chunks].
    - cbn [renderChunks]. now rewrite append_empty_r.
    - apply endsClean_append.
      apply renderChunks_endsClean; [assumption | discriminate]. }
  exact (proj2 (endsClean_append "---" _ (endsClean_append _ _ Hclean))).
Qed.

Lemma Forall_firstn {A} (P : A -> Prop) (n : nat) :
  forall l, Forall P l -> Forall P (firstn n l).
Proof.
  induction n as [|n IH]; intros [|a l] H; simpl; auto.
  inversion H; subst. auto.
Qed.

(** The contents the indexer writes are not empty and do not end in
    white space. *)
Lemma buildChunkContent_endsClean (metadata : Indexer.PageMetadata.t)
    (url : string) (secs : list Indexer.PageSection.t) :
  endsClean
    (Indexer.buildChunkContent (Indexer.buildChunkHeader metadata url) secs).
Proof.
  unfold Indexer.buildChunkContent, JS.trim.
  split; [|apply trimEnd_idempotent].
  assert (H : exists rest,
             JS.join (String "010" "")
               (Indexer.buildChunkHeader metadata url
                :: flat_map Indexer.sectionLines secs)
             = String "#" rest).
  { unfold Indexer.buildChunkHeader. cbn [JS.join append].
    destruct (flat_map Indexer.sectionLines secs); cbn [JS.join append]; eauto. }
  destruct H as (rest & ->). cbn [JS.trimStart].
  change (JS.isWhiteSpace "#") with false. cbv iota.
  cbn [JS.trimEnd]. change (JS.isWhiteSpace "#") with false.
  discriminate.
Qed.

(** The assembled context of chunks whose contents do not end in white
    space: the rule, then the whole content of the first chunk, then the
    separator and the whole content of each further included chunk. *)
Lemma buildContext_whole_contents (relevantChunks : list Relevant) :
  Forall (fun r => endsClean (Indexer.LlmChunk.content (chunk r)))
    relevantChunks ->
  exists k,
    (k <= List.length relevantChunks)%nat
    /\ context (buildContext relevantChunks)
       = ruleThenChunks (firstn k (map chunk relevantChunks)).
Proof.
  intros Hall.
  destruct (contextLoop_prefix (map chunk relevantChunks) "" 0%Z)
    as (k & Hk & Hloop & _).
  exists k. rewrite length_map in Hk. split; [assumption|].
  unfold buildContext. rewrite Hloop. cbn [context append].
  apply trim_renderChunks. apply Forall_firstn.
  apply Forall_map. exact Hall.
Qed.

(** C10: the sources list one entry per chunk of the input, in order,
    whether or not its content was included; with two chunks of 5000
    tokens the second is cited although the context holds only the
    first. *)
Theorem buildContext_sources_cover_input :
  (forall relevantChunks,
      sources (buildContext relevantChunks)
      = map (fun r => sourceOf (chunk r)) relevantChunks)
  /\ (let result := buildContext Samples.twoLargeChunks in
      tokenEstimate result = 5000%Z
      /\ context result
         = "---" ++ String "010" (String "010" "# Caching: how pages are cached")
      /\ map title (sources result) = ["caching"; "security"]
      /\ JS.includes (context result) "# Security: users and roles" = false).
Proof.
  split.
  - intros relevantChunks. unfold buildContext.
    destruct (contextLoop (map chunk relevantChunks) "" 0%Z). simpl.
    now rewrite map_map.
  - cbv zeta. repeat split.
Qed.

End AssemblyFacts.

(** * Further properties *)

(** ** Tokens *)

Section TokenFacts.

Import MagnoliaSearch Shapes.

Lemma allChars_append (p : ascii -> bool) (a b : string) :
  allChars p (a ++ b) = allChars p a && allChars p b.
Proof.
  induction a as [|c a IH]; simpl; [reflexivity|].
  now rewrite IH, andb_assoc.
Qed.

Lemma mapChars_append (f : ascii -> ascii) (a b : string) :
  JS.mapChars f (a ++ b) = JS.mapChars f a ++ JS.mapChars f b.
Proof. induction a as [|c a IH]; simpl; congruence. Qed.

Lemma mapChars_mapChars (f g : ascii -> ascii) (s : string) :
  JS.mapChars f (JS.mapChars g s) = JS.mapChars (fun c => f (g c)) s.
Proof. induction s as [|c s IH]; simpl; congruence. Qed.

Lemma mapChars_ext (f g : ascii -> ascii) (s : string) :
  (forall c, f c = g c) -> JS.mapChars f s = JS.mapChars g s.
Proof. intros H. induction s as [|c s IH]; simpl; congruence. Qed.

Lemma mapChars_id_on (p : ascii -> bool) (f : ascii -> ascii) (s : string) :
  (forall c, p c = true -> f c = c) ->
  allChars p s = true -> JS.mapChars f s = s.
Proof.
  intros H. induction s as [|c s IH]; simpl; [reflexivity|].
  intros Hs. apply andb_true_iff in Hs. destruct Hs as [Hc Hs].
  now rewrite (H c Hc), IH.
Qed.

Lemma allChars_mapChars (p : ascii -> bool) (f : ascii -> ascii) (s : string) :
  (forall c, p (f c) = true) -> allChars p (JS.mapChars f s) = true.
Proof. intros H. induction s as [|c s IH]; simpl; [reflexivity|]. now rewrite H. Qed.

(** Facts about single characters, checked on all 256 of them. *)
Lemma toLowerChar_idempotent (c : ascii) :
  JS.toLowerChar (JS.toLowerChar c) = JS.toLowerChar c.
Proof. destruct c as [[] [] [] [] [] [] [] []]; reflexivity. Qed.

Lemma isWhiteSpace_toLowerChar (c : ascii) :
  JS.isWhiteSpace (JS.toLowerChar c) = JS.isWhiteSpace c.
Proof. destruct c as [[] [] [] [] [] [] [] []]; reflexivity. Qed.

Lemma isLowerAlnum_toLowerChar (c : ascii) :
  Indexer.isLowerAlnum c = true -> JS.toLowerChar c = c.
Proof. destruct c as [[] [] [] [] [] [] [] []]; intros H; try reflexivity; discriminate. Qed.

Lemma isLowerAlnum_not_space (c : ascii) :
  Indexer.isLowerAlnum c = true -> JS.isWhiteSpace c = false.
Proof. destruct c as [[] [] [] [] [] [] [] []]; intros H; try reflexivity; discriminate. Qed.

Lemma isTokenChar_split (c : ascii) :
  isTokenChar c = Indexer.isLowerAlnum c || JS.isWhiteSpace c.
Proof. reflexivity. Qed.

Lemma toLowerCase_idempotent (s : string) :
  JS.toLowerCase (JS.toLowerCase s) = JS.toLowerCase s.
Proof.
  unfold JS.toLowerCase. rewrite mapChars_mapChars.
  apply mapChars_ext, toLowerChar_idempotent.
Qed.

(** Every piece of a white-space split is made of characters of the text
    that are not white space. *)
Lemma splitWsFrom_chars (s : string) :
  forall cur inWs,
    allChars Indexer.isLowerAlnum cur = true ->
    allChars isTokenChar s = true ->
    Forall (fun w => allChars Indexer.isLowerAlnum w = true)
      (JS.splitWsFrom cur inWs s).
Proof.
  induction s as [|c s IH]; intros cur inWs Hcur Hs; simpl.
  - constructor; [assumption | constructor].
  - simpl in Hs. apply andb_true_iff in Hs. destruct Hs as [Hc Hs].
    destruct (JS.isWhiteSpace c) eqn:Hw.
    + destruct inWs.
      * now apply IH.
      * constructor; [assumption|]. now apply IH.
    + apply IH; [|assumption].
      rewrite allChars_append, Hcur. simpl.
      rewrite isTokenChar_split, Hw, orb_false_r in Hc. now rewrite Hc.
Qed.

Lemma normalized_chars (text : string) :
  allChars isTokenChar (JS.mapChars normChar (JS.toLowerCase text)) = true.
Proof.
  apply allChars_mapChars. intros c. unfold normChar.
  destruct (isTokenChar c) eqn:E; [assumption | reflexivity].
Qed.

Lemma _tokenize_unfold (text : string) :
  _tokenize text
  = filter (fun word => (2 <=? String.length word)%nat)
      (JS.splitWs (JS.mapChars normChar (JS.toLowerCase text))).
Proof. reflexivity. Qed.

Lemma _tokenize_isToken (text : string) :
  Forall (fun w => isToken w = true) (_tokenize text).
Proof.
  rewrite _tokenize_unfold. apply Forall_forall. intros w Hw.
  apply filter_In in Hw. destruct Hw as [Hw Hlen].
  unfold isToken. rewrite Hlen. simpl.
  pose proof (splitWsFrom_chars _ "" false eq_refl (normalized_chars text))
    as Hall.
  rewrite Forall_forall in Hall. now apply Hall.
Qed.

(** X1: every token [_tokenize] returns has at least two characters, all
    lower-case letters or digits; in particular no token is [__proto__],
    so of the three words [_buildInvertedIndex] skips only [constructor]
    and [prototype] can occur. *)
Theorem _tokenize_tokens (text : string) :
  Forall (fun w => isToken w = true) (_tokenize text)
  /\ Forall (fun w => isReservedWord w = true ->
                      w = "constructor" \/ w = "prototype")
       (_tokenize text).
Proof.
  pose proof (_tokenize_isToken text) as H.
  split; [exact H|].
  rewrite Forall_forall in *. intros w Hw Hres.
  specialize (H w Hw). unfold isToken in H.
  apply andb_true_iff in H. destruct H as [_ Hchars].
  unfold isReservedWord in Hres.
  destruct (String.eqb_spec w "constructor") as [-> | _]; [auto|].
  destruct (String.eqb_spec w "__proto__") as [-> | _]; [discriminate|].
  destruct (String.eqb_spec w "prototype") as [-> | _]; [auto | discriminate].
Qed.

Lemma splitWsFrom_no_space (s : string) :
  forall cur,
    allChars Indexer.isLowerAlnum s = true ->
    JS.splitWsFrom cur false s = [cur ++ s].
Proof.
  induction s as [|c s IH]; intros cur Hs; simpl.
  - now rewrite append_empty_r.
  - simpl in Hs. apply andb_true_iff in Hs. destruct Hs as [Hc Hs].
    rewrite (isLowerAlnum_not_space c Hc), (IH _ Hs), append_assoc.
    reflexivity.
Qed.

Lemma allChars_weaken (p q : ascii -> bool) (s : string) :
  (forall c, p c = true -> q c = true) ->
  allChars p s = true -> allChars q s = true.
Proof.
  intros H. induction s as [|c s IH]; simpl; [reflexivity|].
  intros Hs. apply andb_true_iff in Hs. destruct Hs as [Hc Hs].
  now rewrite (H c Hc), IH.
Qed.

(** A token is its own tokenisation. *)
Lemma _tokenize_token (w : string) :
  isToken w = true -> _tokenize w = [w].
Proof.
  unfold isToken. intros H. apply andb_true_iff in H. destruct H as [Hlen Hc].
  rewrite _tokenize_unfold. unfold JS.toLowerCase.
  rewrite (mapChars_id_on Indexer.isLowerAlnum JS.toLowerChar w
             isLowerAlnum_toLowerChar Hc).
  rewrite (mapChars_id_on Indexer.isLowerAlnum normChar w); [|
    intros c Hc'; unfold normChar; rewrite isTokenChar_split, Hc';
      reflexivity | assumption].
  unfold JS.splitWs. rewrite splitWsFrom_no_space by assumption.
  cbn [append filter]. now rewrite Hlen.
Qed.

(** The pieces kept by a filter that drops the empty piece, for a text
    cut at a white-space character. *)
Lemma splitWsFrom_cut (f : string -> bool) (x : string) :
  f "" = false ->
  forall cur inWs sp y,
    JS.isWhiteSpace sp = true ->
    (inWs = true -> cur = "") ->
    filter f (JS.splitWsFrom cur inWs (x ++ String sp y))
    = (filter f (JS.splitWsFrom cur inWs x)
       ++ filter f (JS.splitWsFrom "" true y))%list.
Proof.
  intros Hf. induction x as [|c x IH]; intros cur inWs sp y Hsp Hcur.
  - cbn [append JS.splitWsFrom]. rewrite Hsp.
    destruct inWs.
    + rewrite (Hcur eq_refl). cbn [filter]. now rewrite Hf.
    + cbn [filter]. destruct (f cur); reflexivity.
  - cbn [append JS.splitWsFrom].
    destruct (JS.isWhiteSpace c).
    + destruct inWs.
      * now apply IH.
      * cbn [filter]. rewrite (IH "" true sp y Hsp (fun _ => eq_refl)).
        destruct (f cur); reflexivity.
    + apply IH; [assumption | discriminate].
Qed.

Lemma splitWsFrom_start (f : string -> bool) (y : string) :
  f "" = false ->
  filter f (JS.splitWsFrom "" true y) = filter f (JS.splitWsFrom "" false y).
Proof.
  intros Hf. destruct y as [|c y]; [reflexivity|].
  cbn [JS.splitWsFrom]. destruct (JS.isWhiteSpace c); [|reflexivity].
  cbn [filter]. now rewrite Hf.
Qed.

(** The tokens of two texts joined by a space are the tokens of the
    first followed by the tokens of the second. *)
Lemma _tokenize_join (a b : string) :
  _tokenize (a ++ " " ++ b) = (_tokenize a ++ _tokenize b)%list.
Proof.
  rewrite !_tokenize_unfold. unfold JS.toLowerCase, JS.splitWs.
  rewrite !mapChars_append. cbn [JS.mapChars append].
  change (normChar (JS.toLowerChar " ")) with " "%char.
  rewrite splitWsFrom_cut; [|reflexivity | reflexivity | discriminate].
  now rewrite splitWsFrom_start.
Qed.

Lemma splitWsFrom_length (s : string) :
  forall cur inWs,
    Forall (fun w => (String.length w <= String.length cur + String.length s)%nat)
      (JS.splitWsFrom cur inWs s).
Proof.
  induction s as [|c s IH]; intros cur inWs; simpl.
  - constructor; [lia | constructor].
  - destruct (JS.isWhiteSpace c).
    + destruct inWs.
      * eapply Forall_impl; [|apply IH]. simpl. intros; lia.
      * constructor; [lia|].
        eapply Forall_impl; [|apply (IH "" true)]. simpl. intros; lia.
    + eapply Forall_impl; [|apply IH]. simpl. intros w Hw.
      assert (String.length (cur ++ String c "") = S (String.length cur))
        by (clear; induction cur; simpl; congruence).
      lia.
Qed.

(** A text with a token has at least two characters. *)
Lemma _tokenize_length (text w : string) :
  In w (_tokenize text) -> (2 <= String.length text)%nat.
Proof.
  rewrite _tokenize_unfold. intros H. apply filter_In in H.
  destruct H as [Hw Hlen]. apply Nat.leb_le in Hlen.
  pose proof (splitWsFrom_length
                (JS.mapChars normChar (JS.toLowerCase text)) "" false) as Hall.
  rewrite Forall_forall in Hall. specialize (Hall w Hw).
  rewrite mapChars_length, toLowerCase_length in Hall. simpl in Hall. lia.
Qed.

End TokenFacts.

(** ** The inverted index *)

Section IndexFacts.

Import MagnoliaSearch Expansion Shapes Consistency.

Lemma objHas_objGet {A} (o : JsObject A) (k : string) :
  objHas o k = false -> objGet o k = None.
Proof.
  unfold objHas. induction o as [|[k' v] o IH]; simpl; [reflexivity|].
  destruct (k' =? k); simpl; [discriminate | exact IH].
Qed.

Lemma objHas_true_objGet {A} (o : JsObject A) (k : string) :
  objHas o k = true -> exists v, objGet o k = Some v.
Proof.
  unfold objHas. induction o as [|[k' v] o IH]; simpl; [discriminate|].
  destruct (k' =? k); simpl; eauto.
Qed.

(** What one step of the inner loop adds: the word is listed for the
    document, unless it is one of the skipped words. *)
Lemma addPosting_posting (inv : JsObject (list nat)) (n : nat)
    (word w : string) (i : nat) :
  posting (addPosting inv n word) w i
  <-> posting inv w i \/ (w = word /\ i = n /\ isReservedWord word = false).
Proof.
  unfold addPosting, posting.
  destruct (isReservedWord word) eqn:Hres.
  { split; [auto | intros [H | (_ & _ & H)]; [assumption | discriminate]]. }
  destruct (objHas inv word) eqn:Hhas; cbn [negb].
  - destruct (objHas_true_objGet _ _ Hhas) as (arr & Harr). rewrite Harr.
    destruct (existsb (Nat.eqb n) arr) eqn:Hin; cbn [negb].
    + apply existsb_exists in Hin. destruct Hin as (m & Hm & Hnm).
      apply Nat.eqb_eq in Hnm. subst m.
      split; [auto|]. intros [H | (-> & -> & _)]; [assumption | eauto].
    + split.
      * intros (arr' & E & Hi). rewrite objGet_objSet in E.
        destruct (String.eqb_spec word w) as [-> | Hne].
        -- inversion E; subst. apply in_app_iff in Hi.
           destruct Hi as [Hi | [<- | []]]; [left; eauto | right; auto].
        -- left. eauto.
      * intros [(arr' & E & Hi) | (-> & -> & _)].
        -- destruct (String.eqb_spec word w) as [-> | Hne].
           ++ exists (arr ++ [n])%list. rewrite objGet_objSet, String.eqb_refl.
              split; [reflexivity|]. apply in_app_iff. left. congruence.
           ++ exists arr'. rewrite objGet_objSet.
              destruct (String.eqb_spec word w); [contradiction | auto].
        -- exists (arr ++ [n])%list. rewrite objGet_objSet, String.eqb_refl.
           split; [reflexivity|]. apply in_app_iff. right. simpl. auto.
  - pose proof (objHas_objGet _ _ Hhas) as Hnone.
    rewrite objGet_objSet, String.eqb_refl. cbn [existsb negb].
    split.
    + intros (arr' & E & Hi). rewrite !objGet_objSet in E.
      destruct (String.eqb_spec word w) as [-> | Hne].
      * inversion E; subst. destruct Hi as [<- | []]. right. auto.
      * left. eauto.
    + intros [(arr' & E & Hi) | (-> & -> & _)].
      * exists arr'. rewrite !objGet_objSet.
        destruct (String.eqb_spec word w) as [-> | Hne]; [congruence | auto].
      * exists [n]. rewrite objGet_objSet, String.eqb_refl. simpl. auto.
Qed.

Lemma fold_addPosting_posting (n : nat) (words : list string) :
  forall inv w i,
    posting (fold_left (fun inv word => addPosting inv n word) words inv) w i
    <-> posting inv w i
        \/ (i = n /\ In w words /\ isReservedWord w = false).
Proof.
  induction words as [|word words IH]; intros inv w i; simpl.
  - split; [auto | intros [H | (_ & [] & _)]; assumption].
  - rewrite IH, addPosting_posting. split.
    + intros [[H | (-> & -> & Hr)] | (-> & Hw & Hr)]; auto 6.
    + intros [H | (-> & [-> | Hw] & Hr)]; auto 6.
Qed.

Lemma indexDocs_posting (docs : list SearchRecord.t) :
  forall n inv w i,
    posting (indexDocs n docs inv) w i
    <-> posting inv w i
        \/ (n <= i /\ exists d, nth_error docs (i - n) = Some d
                                /\ indexedWord d w)%nat.
Proof.
  unfold indexedWord.
  induction docs as [|d docs IH]; intros n inv w i; simpl.
  - split; [auto|]. intros [H | (_ & d & E & _)]; [assumption|].
    destruct (i - n)%nat; discriminate.
  - rewrite IH, fold_addPosting_posting. split.
    + intros [[H | (-> & Hw & Hr)] | (Hle & d' & E & Hd)].
      * auto.
      * right. split; [lia|]. exists d. rewrite Nat.sub_diag. auto.
      * right. split; [lia|]. exists d'.
        replace (i - n)%nat with (S (i - S n)) by lia. auto.
    + intros [H | (Hle & d' & E & Hd)]; [auto|].
      destruct (Nat.eq_dec i n) as [-> | Hne].
      * rewrite Nat.sub_diag in E. simpl in E. inversion E; subst.
        left. right. tauto.
      * right. split; [lia|]. exists d'.
        replace (i - n)%nat with (S (i - S n)) in E by lia. auto.
Qed.

Lemma addPosting_distinct (inv : JsObject (list nat)) (n : nat) (word : string) :
  postingsDistinct inv -> postingsDistinct (addPosting inv n word).
Proof.
  intros Hinv. unfold addPosting.
  destruct (isReservedWord word); [assumption|].
  set (inv1 := if negb (objHas inv word) then objSet inv word [] else inv).
  assert (H1 : postingsDistinct inv1).
  { unfold inv1. destruct (negb (objHas inv word)); [|assumption].
    intros w arr E. rewrite objGet_objSet in E.
    destruct (word =? w); [inversion E; constructor | eauto]. }
  destruct (objGet inv1 word) as [arr|] eqn:Harr; [|assumption].
  destruct (existsb (Nat.eqb n) arr) eqn:Hin; cbn [negb]; [assumption|].
  intros w arr' E. rewrite objGet_objSet in E.
  destruct (word =? w); [|eauto].
  inversion E; subst.
  apply NoDup_app; [eauto | repeat constructor; simpl; tauto |].
  intros x Hx [-> | []].
  assert (existsb (Nat.eqb x) arr = true)
    by (apply existsb_exists; exists x; split; [assumption | apply Nat.eqb_refl]).
  congruence.
Qed.

Lemma indexDocs_distinct (docs : list SearchRecord.t) :
  forall n inv, postingsDistinct inv -> postingsDistinct (indexDocs n docs inv).
Proof.
  induction docs as [|d docs IH]; intros n inv Hinv; simpl; [assumption|].
  apply IH.
  generalize (_tokenize (SearchRecord._searchText d)). intros words.
  revert inv Hinv. induction words as [|w words IHw]; intros inv Hinv; simpl;
    [assumption|].
  apply IHw. now apply addPosting_distinct.
Qed.

Lemma _buildInvertedIndex_posting (st : Engine) (w : string) (i : nat) :
  posting (invertedIndex (_buildInvertedIndex st)) w i
  <-> exists d, nth_error (index st) i = Some d /\ indexedWord d w.
Proof.
  unfold _buildInvertedIndex. cbn [invertedIndex].
  rewrite indexDocs_posting, Nat.sub_0_r. split.
  - intros [(arr & E & _) | (_ & H)]; [discriminate | exact H].
  - intros H. right. split; [lia | exact H].
Qed.

(** X2: the inverted index lists a position under a word exactly when
    the word is a token of the search text of the record at that position
    and is not one of the skipped words; and no position is listed twice
    under a word. *)
Theorem _buildInvertedIndex_exact (st : Engine) :
  let inv := invertedIndex (_buildInvertedIndex st) in
  (forall w i,
      posting inv w i
      <-> exists d, nth_error (index st) i = Some d /\ indexedWord d w)
  /\ (forall w arr, objGet inv w = Some arr -> NoDup arr).
Proof.
  cbv zeta. split; [intros w i; apply _buildInvertedIndex_posting|].
  unfold _buildInvertedIndex. cbn [invertedIndex].
  apply indexDocs_distinct. intros w arr E. discriminate.
Qed.

End IndexFacts.

(** ** Searching, continued *)

Section SearchMoreFacts.

Import MagnoliaSearch Expansion Shapes Consistency.

(** *** Normalising the query *)

Lemma trimStart_toLowerCase (s : string) :
  JS.trimStart (JS.toLowerCase s) = JS.toLowerCase (JS.trimStart s).
Proof.
  induction s as [|c s IH]; [reflexivity|].
  cbn [JS.toLowerCase JS.mapChars JS.trimStart].
  rewrite isWhiteSpace_toLowerChar.
  destruct (JS.isWhiteSpace c); [exact IH | reflexivity].
Qed.

Lemma toLowerCase_empty (s : string) :
  (JS.toLowerCase s =? "") = (s =? "").
Proof. destruct s; reflexivity. Qed.

Lemma trimEnd_toLowerCase (s : string) :
  JS.trimEnd (JS.toLowerCase s) = JS.toLowerCase (JS.trimEnd s).
Proof.
  induction s as [|c s IH]; [reflexivity|].
  cbn [JS.toLowerCase JS.mapChars JS.trimEnd].
  fold (JS.toLowerCase s). rewrite IH, toLowerCase_empty.
  rewrite isWhiteSpace_toLowerChar.
  destruct (JS.isWhiteSpace c && (JS.trimEnd s =? "")); reflexivity.
Qed.

Lemma trim_toLowerCase (s : string) :
  JS.trim (JS.toLowerCase s) = JS.toLowerCase (JS.trim s).
Proof.
  unfold JS.trim. now rewrite trimStart_toLowerCase, trimEnd_toLowerCase.
Qed.

Lemma trimStart_startsClean (s : string) : startsClean (JS.trimStart s).
Proof.
  induction s as [|c s IH]; simpl; [exact I|].
  destruct (JS.isWhiteSpace c) eqn:E; [exact IH | exact E].
Qed.

Lemma trimEnd_startsClean (s : string) :
  startsClean s -> startsClean (JS.trimEnd s).
Proof.
  destruct s as [|c s]; simpl; [auto|].
  intros H. now rewrite H.
Qed.

Lemma trimStart_fixed (s : string) : startsClean s -> JS.trimStart s = s.
Proof. destruct s as [|c s]; simpl; [auto|]. intros H. now rewrite H. Qed.

Lemma trim_idempotent (s : string) : JS.trim (JS.trim s) = JS.trim s.
Proof.
  unfold JS.trim.
  rewrite (trimStart_fixed (JS.trimEnd (JS.trimStart s)))
    by apply trimEnd_startsClean, trimStart_startsClean.
  apply trimEnd_idempotent.
Qed.

Lemma normalizeQuery_idempotent (query : option string) :
  normalizeQuery (Some (normalizeQuery query)) = normalizeQuery query.
Proof.
  unfold normalizeQuery at 1.
  assert (E : Indexer.orElse (Some (normalizeQuery query)) ""
              = normalizeQuery query).
  { unfold Indexer.orElse, JS.truthy.
    destruct (String.eqb_spec (normalizeQuery query) ""); simpl; congruence. }
  rewrite E. unfold normalizeQuery.
  now rewrite trim_toLowerCase, toLowerCase_idempotent, trim_idempotent.
Qed.

(** [search] in terms of the normalised query. *)
Lemma search_unfold (st : Engine) (query : option string)
    (options : SearchOptions.t) :
  search st query options
  = if negb (loaded st) then Return []
    else
      let q := normalizeQuery query in
      if (String.length q <? 2)%nat then Return []
      else if (List.length (_tokenize q) =? 0)%nat then Return []
      else
        match mapCandidates
                (scoreCandidate st (orNull (SearchOptions.version options))
                   (orNull (SearchOptions.category options)) (_tokenize q) q)
                (_findCandidates st (_tokenize q)) with
        | Throw => Throw
        | Return scored =>
            Return (map (fun item => {| doc := fst item; _score := snd item |})
                      (firstn (effectiveMaxResults options)
                         (sortScored (filterBoolean scored))))
        end.
Proof. reflexivity. Qed.

(** X3: [search] only looks at the query after trimming and lowercasing:
    a query and its normalised form give the same result, so neither the
    case of the letters nor white space around the query matters. *)
Theorem search_normalizes_query (st : Engine) (query : option string)
    (options : SearchOptions.t) :
  search st query options = search st (Some (normalizeQuery query)) options
  /\ search st (Some "  Java  ") options = search st (Some "java") options.
Proof.
  split.
  - rewrite !search_unfold. now rewrite normalizeQuery_idempotent.
  - rewrite !search_unfold. reflexivity.
Qed.

(** *** Candidates *)

Lemma setAdd_NoDup (cands : list nat) (x : nat) :
  NoDup cands -> NoDup (setAdd cands x).
Proof.
  intros H. unfold setAdd.
  destruct (existsb (Nat.eqb x) cands) eqn:E; [assumption|].
  apply NoDup_app; [assumption | repeat constructor; simpl; tauto |].
  intros y Hy [-> | []].
  assert (existsb (Nat.eqb y) cands = true)
    by (apply existsb_exists; exists y; split; [assumption | apply Nat.eqb_refl]).
  congruence.
Qed.

Lemma addPostings_NoDup (inv : JsObject (list nat)) (w : string)
    (cands : list nat) :
  NoDup cands -> NoDup (addPostings inv w cands).
Proof.
  unfold addPostings. destruct (objGet inv w) as [arr|]; [|auto].
  revert cands. induction arr as [|x arr IH]; intros cands H; simpl;
    [assumption|].
  apply IH. now apply setAdd_NoDup.
Qed.

Lemma fold_keys_NoDup (inv : JsObject (list nat)) (p : string -> bool)
    (keys : list string) :
  forall cands,
    NoDup cands ->
    NoDup (fold_left
             (fun candidates indexedWord =>
                if p indexedWord then addPostings inv indexedWord candidates
                else candidates) keys cands).
Proof.
  induction keys as [|k keys IH]; intros cands H; simpl; [assumption|].
  apply IH. destruct (p k); [now apply addPostings_NoDup | assumption].
Qed.

Lemma expandTerm_NoDup (inv : JsObject (list nat)) (cands : list nat)
    (term : string) :
  NoDup cands -> NoDup (expandTerm inv cands term).
Proof.
  intros H. unfold expandTerm.
  destruct (4 <=? String.length term)%nat;
    repeat first [ apply (fold_keys_NoDup inv (fun w => _fuzzyMatch term w))
                 | apply (fold_keys_NoDup inv
                            (fun w => JS.startsWith w term
                                      || JS.startsWith term w))
                 | apply addPostings_NoDup ];
    assumption.
Qed.

(** The candidate set holds every position at most once. *)
Lemma _findCandidates_NoDup (st : Engine) (queryTerms : list string) :
  NoDup (_findCandidates st queryTerms).
Proof.
  unfold _findCandidates.
  assert (H : forall cands, NoDup cands ->
                NoDup (fold_left (expandTerm (invertedIndex st))
                         queryTerms cands)).
  { induction queryTerms as [|t ts IH]; intros cands Hc; simpl;
      [assumption|].
    apply IH. now apply expandTerm_NoDup. }
  apply H. constructor.
Qed.

Lemma NoDup_bounded_length (l : list nat) (n : nat) :
  NoDup l -> (forall x, In x l -> (x < n)%nat) -> (List.length l <= n)%nat.
Proof.
  intros Hnd Hlt.
  replace n with (List.length (seq 0 n)) at 1 by apply length_seq.
  apply NoDup_incl_length; [assumption|].
  intros x Hx. apply in_seq. specialize (Hlt x Hx). lia.
Qed.

Lemma mapCandidates_length {A B} (f : A -> Completion B) (l : list A) :
  forall ys, mapCandidates f l = Return ys -> List.length ys = List.length l.
Proof.
  induction l as [|x l IH]; intros ys H; simpl in H.
  - inversion H. reflexivity.
  - destruct (f x); [|discriminate].
    destruct (mapCandidates f l) as [ys0|]; [|discriminate].
    inversion H; subst. simpl. f_equal. now apply IH.
Qed.

Lemma mapCandidates_defined {A B} (f : A -> Completion B) (l : list A) :
  forall ys x,
    mapCandidates f l = Return ys -> In x l -> exists y, f x = Return y /\ In y ys.
Proof.
  induction l as [|a l IH]; intros ys x H Hx; simpl in H; [contradiction|].
  destruct (f a) as [y0|] eqn:Ha; [|discriminate].
  destruct (mapCandidates f l) as [ys0|] eqn:Hl; [|discriminate].
  inversion H; subst. destruct Hx as [-> | Hx].
  - exists y0. simpl. auto.
  - destruct (IH ys0 x eq_refl Hx) as (y & E & Hy). exists y. simpl. auto.
Qed.

Lemma filterBoolean_length {A} (l : list (option A)) :
  (List.length (filterBoolean l) <= List.length l)%nat.
Proof. induction l as [|[x|] l IH]; simpl; lia. Qed.

Lemma insertScored_length (a : SearchRecord.t * Q) (l : list (SearchRecord.t * Q)) :
  List.length (insertScored a l) = S (List.length l).
Proof.
  induction l as [|b l IH]; simpl; [reflexivity|].
  destruct (Qle_bool (snd b - snd a) 0); simpl; congruence.
Qed.

Lemma sortScored_length (l : list (SearchRecord.t * Q)) :
  List.length (sortScored l) = List.length l.
Proof.
  induction l as [|a l IH]; simpl; [reflexivity|].
  now rewrite insertScored_length, IH.
Qed.

(** A returned call scored every candidate, so every candidate is a
    position of the record array. *)
Lemma scored_candidates_in_range (st : Engine) (fv fc : option string)
    (terms : list string) (q : string) (cands : list nat)
    (scored : list (option (SearchRecord.t * Q))) :
  mapCandidates (scoreCandidate st fv fc terms q) cands = Return scored ->
  forall i, In i cands -> (i < List.length (index st))%nat.
Proof.
  intros H i Hi.
  destruct (mapCandidates_defined _ _ _ _ H Hi) as (y & E & _).
  unfold scoreCandidate in E.
  destruct (nth_error (index st) i) eqn:Hn; [|discriminate].
  apply nth_error_Some. congruence.
Qed.

(** X4: a returned result list has at most [maxResults] entries, 20 when
    the option is absent or 0, and never more entries than the index has
    records. *)
Theorem search_result_count (st : Engine) (query : option string)
    (options : SearchOptions.t) :
  match search st query options with
  | Return results =>
      (List.length results <= effectiveMaxResults options)%nat
      /\ (List.length results <= List.length (index st))%nat
  | Throw => True
  end
  /\ effectiveMaxResults
       {| SearchOptions.version := None; SearchOptions.category := None;
          SearchOptions.maxResults := Some 0%nat |} = 20%nat.
Proof.
  split; [|reflexivity].
  rewrite search_unfold.
  destruct (negb (loaded st)); [simpl; lia|]. cbv zeta.
  destruct (String.length (normalizeQuery query) <? 2)%nat; [simpl; lia|].
  destruct (List.length (_tokenize (normalizeQuery query)) =? 0)%nat;
    [simpl; lia|].
  destruct (mapCandidates _ _) as [scored|] eqn:Hmap; [|exact I].
  rewrite length_map. split.
  - rewrite length_firstn. lia.
  - rewrite length_firstn, sortScored_length.
    pose proof (filterBoolean_length scored).
    rewrite (mapCandidates_length _ _ _ Hmap) in H.
    pose proof (NoDup_bounded_length _ _
                  (_findCandidates_NoDup st (_tokenize (normalizeQuery query)))
                  (scored_candidates_in_range _ _ _ _ _ _ _ Hmap)).
    lia.
Qed.

(** *** Ranking *)

Lemma insertScored_sorted (a : SearchRecord.t * Q)
    (l : list (SearchRecord.t * Q)) :
  StronglySorted (fun x y => (snd y <= snd x)%Q) l ->
  StronglySorted (fun x y => (snd y <= snd x)%Q) (insertScored a l).
Proof.
  induction l as [|b l IH]; intros Hs; simpl.
  - repeat constructor.
  - inversion Hs as [|? ? Hl Hb]; subst.
    destruct (Qle_bool (snd b - snd a) 0) eqn:E.
    + apply Qle_bool_iff in E.
      constructor; [assumption|]. constructor; [lra|].
      eapply Forall_impl; [|exact Hb]. simpl. intros c Hc. lra.
    + assert (Hlt : ~ (snd b - snd a <= 0)%Q)
        by (intros H; apply Qle_bool_iff in H; congruence).
      constructor; [now apply IH|].
      apply Forall_forall. intros c Hc.
      apply (proj1 (insertScored_In a c l)) in Hc. destruct Hc as [-> | Hc].
      * apply Qnot_le_lt in Hlt. lra.
      * rewrite Forall_forall in Hb. now apply Hb.
Qed.

Lemma sortScored_sorted (l : list (SearchRecord.t * Q)) :
  StronglySorted (fun x y => (snd y <= snd x)%Q) (sortScored l).
Proof.
  induction l as [|a l IH]; simpl; [constructor|].
  now apply insertScored_sorted.
Qed.

Lemma firstn_sorted {A} (R : A -> A -> Prop) (n : nat) :
  forall l, StronglySorted R l -> StronglySorted R (firstn n l).
Proof.
  induction n as [|n IH]; intros [|a l] H; simpl; try constructor.
  - inversion H; subst. now apply IH.
  - inversion H as [|? ? Hl Ha]; subst.
    apply Forall_forall. intros x Hx. apply In_firstn in Hx.
    rewrite Forall_forall in Ha. now apply Ha.
Qed.

Lemma map_sorted {A B} (R : A -> A -> Prop) (R' : B -> B -> Prop) (f : A -> B) :
  (forall x y, R x y -> R' (f x) (f y)) ->
  forall l, StronglySorted R l -> StronglySorted R' (map f l).
Proof.
  intros H. induction l as [|a l IH]; intros Hs; simpl; [constructor|].
  inversion Hs as [|? ? Hl Ha]; subst.
  constructor; [now apply IH|].
  apply Forall_forall. intros y Hy. apply in_map_iff in Hy.
  destruct Hy as (x & <- & Hx). apply H.
  rewrite Forall_forall in Ha. now apply Ha.
Qed.

Lemma scoreCandidate_score (st : Engine) (fv fc : option string)
    (terms : list string) (q : string) (i : nat) (d : SearchRecord.t) (sc : Q) :
  scoreCandidate st fv fc terms q i = Return (Some (d, sc)) ->
  nth_error (index st) i = Some d /\ sc = _scoreDocument d terms q.
Proof.
  unfold scoreCandidate.
  destruct (nth_error (index st) i) as [d0|]; [|discriminate].
  destruct (match fv with Some v => _ | None => _ end); [discriminate|].
  destruct (match fc with Some c => _ | None => _ end); [discriminate|].
  intros H. inversion H; subst. auto.
Qed.

(** X5: a returned result list is in descending order of score, and the
    score of every result is [_scoreDocument] of a record of the index
    for the tokens of the normalised query. *)
Theorem search_ranked (st : Engine) (query : option string)
    (options : SearchOptions.t) :
  match search st query options with
  | Return results =>
      scoreDescending results
      /\ Forall
           (fun r =>
              In (doc r) (index st)
              /\ _score r
                 = _scoreDocument (doc r)
                     (_tokenize (normalizeQuery query)) (normalizeQuery query))
           results
  | Throw => True
  end.
Proof.
  rewrite search_unfold. unfold scoreDescending.
  destruct (negb (loaded st)); [split; constructor|]. cbv zeta.
  destruct (String.length (normalizeQuery query) <? 2)%nat;
    [split; constructor|].
  destruct (List.length (_tokenize (normalizeQuery query)) =? 0)%nat;
    [split; constructor|].
  destruct (mapCandidates _ _) as [scored|] eqn:Hmap; [|exact I].
  split.
  - apply (map_sorted (fun x y => (snd y <= snd x)%Q)); [auto|].
    apply firstn_sorted, sortScored_sorted.
  - apply Forall_forall. intros r Hr.
    apply in_map_iff in Hr. destruct Hr as ([d sc] & <- & Hin).
    apply In_firstn in Hin.
    apply (proj1 (sortScored_In _ _)) in Hin.
    apply (proj1 (filterBoolean_In _ _)) in Hin.
    destruct (mapCandidates_In _ _ _ _ Hmap Hin) as (i & _ & E).
    apply scoreCandidate_score in E. destruct E as [Hn ->]. simpl.
    split; [eapply nth_error_In; eassumption | reflexivity].
Qed.

(** *** Finding what was indexed *)

Lemma load_new_built (optIndexUrl : option string)
    (net : string -> FetchOutcome) (st : Engine) (effects : list Effect) :
  load (newEngine optIndexUrl) net = (Resolved, WellFormed st, effects) ->
  loaded st = true
  /\ invertedIndex st = invertedIndex (_buildInvertedIndex st).
Proof.
  unfold load, newEngine, newEngineWith. cbn [loaded].
  destruct (net _) as [|ok [[records|value]|]]; try discriminate;
    destruct ok; cbn [negb]; try discriminate.
  cbn [onReady _buildInvertedIndex].
  intros H. inversion H; subst. split; reflexivity.
Qed.

Lemma filters_pass (options : SearchOptions.t) (d : SearchRecord.t) :
  passesFilters options d ->
  match orNull (SearchOptions.version options) with
  | Some v => negb (SearchRecord.version d =? v)
  | None => false
  end = false
  /\ match orNull (SearchOptions.category options) with
     | Some c => negb (SearchRecord.category d =? c)
     | None => false
     end = false.
Proof.
  intros [Hv Hc]. split.
  - destruct (orNull (SearchOptions.version options)) as [v|]; [|reflexivity].
    rewrite (Hv v eq_refl), String.eqb_refl. reflexivity.
  - destruct (orNull (SearchOptions.category options)) as [c|]; [|reflexivity].
    rewrite (Hc c eq_refl), String.eqb_refl. reflexivity.
Qed.

Lemma search_finds_word (optIndexUrl : option string)
    (net : string -> FetchOutcome) (st : Engine) (effects : list Effect)
    (query : option string) (options : SearchOptions.t)
    (d : SearchRecord.t) (w : string) :
  load (newEngine optIndexUrl) net = (Resolved, WellFormed st, effects) ->
  In d (index st) ->
  indexedWord d w ->
  In w (_tokenize (normalizeQuery query)) ->
  passesFilters options d ->
  (List.length (index st) <= effectiveMaxResults options)%nat ->
  exists results r,
    search st query options = Return results
    /\ In r results
    /\ doc r = d
    /\ _score r
       = _scoreDocument d (_tokenize (normalizeQuery query))
           (normalizeQuery query).
Proof.
  intros Hload Hd Hw Hq Hpass Hmax.
  destruct (load_new_built _ _ _ _ Hload) as [Hloaded Hinv].
  pose proof (proj2 (load_new_resolved _ _ _ _ Hload)) as Hrange.
  apply In_nth_error in Hd. destruct Hd as (i & Hi).
  set (q := normalizeQuery query) in *.
  assert (Hcand : In i (_findCandidates st (_tokenize q))).
  { apply findCandidates_In. exists w, w. split; [assumption|]. split.
    - rewrite Hinv. apply _buildInvertedIndex_posting. eauto.
    - left. left. apply prefix_refl. }
  rewrite search_unfold. rewrite Hloaded. cbn [negb]. fold q. cbv zeta.
  pose proof (_tokenize_length _ _ Hq) as Hlen.
  replace (String.length q <? 2)%nat with false
    by (symmetry; apply Nat.ltb_ge; exact Hlen).
  replace (List.length (_tokenize q) =? 0)%nat with false
    by (symmetry; apply Nat.eqb_neq; destruct (_tokenize q);
        [contradiction | discriminate]).
  destruct (search_returns st query options Hrange) as (results0 & Hret).
  rewrite search_unfold, Hloaded in Hret. cbn [negb] in Hret.
  fold q in Hret. cbv zeta in Hret.
  replace (String.length q <? 2)%nat with false in Hret
    by (symmetry; apply Nat.ltb_ge; exact Hlen).
  replace (List.length (_tokenize q) =? 0)%nat with false in Hret
    by (symmetry; apply Nat.eqb_neq; destruct (_tokenize q);
        [contradiction | discriminate]).
  destruct (mapCandidates _ _) as [scored|] eqn:Hmap; [|discriminate].
  clear Hret results0.
  destruct (mapCandidates_defined _ _ _ _ Hmap Hcand) as (y & Ey & Hy).
  assert (Ey' : y = Some (d, _scoreDocument d (_tokenize q) q)).
  { unfold scoreCandidate in Ey. rewrite Hi in Ey.
    destruct (filters_pass _ _ Hpass) as [Ev Ec].
    rewrite Ev, Ec in Ey. congruence. }
  subst y.
  eexists. exists {| doc := d; _score := _scoreDocument d (_tokenize q) q |}.
  split; [reflexivity|]. split; [|split; reflexivity].
  apply in_map_iff. exists (d, _scoreDocument d (_tokenize q) q).
  split; [reflexivity|].
  rewrite firstn_all2.
  - apply sortScored_In. now apply filterBoolean_In.
  - rewrite sortScored_length.
    pose proof (filterBoolean_length scored) as H1.
    rewrite (mapCandidates_length _ _ _ Hmap) in H1.
    pose proof (NoDup_bounded_length _ _
                  (_findCandidates_NoDup st (_tokenize q))
                  (scored_candidates_in_range _ _ _ _ _ _ _ Hmap)).
    lia.
Qed.

(** X6: on an engine that [load] has made ready, a query that shares a
    token with the search text of a record (other than the skipped words
    [constructor] and [prototype]) returns that record, with its score,
    whenever the record passes the filters in force and [maxResults] is
    not below the number of records. *)
Theorem search_finds_indexed_word (optIndexUrl : option string)
    (net : string -> FetchOutcome) (st : Engine) (effects : list Effect)
    (query : option string) (options : SearchOptions.t)
    (d : SearchRecord.t) (w : string) :
  load (newEngine optIndexUrl) net = (Resolved, WellFormed st, effects) ->
  In d (index st) ->
  indexedWord d w ->
  In w (_tokenize (normalizeQuery query)) ->
  passesFilters options d ->
  (List.length (index st) <= effectiveMaxResults options)%nat ->
  exists results r,
    search st query options = Return results
    /\ In r results
    /\ doc r = d
    /\ _score r
       = _scoreDocument d (_tokenize (normalizeQuery query))
           (normalizeQuery query).
Proof. apply search_finds_word. Qed.

(** X6 on the sample index: the query [Maven] finds the first record. *)
Lemma search_finds_indexed_word_sample :
  exists results r,
    search Samples.sampleEngine (Some "Maven")
      {| SearchOptions.version := Some "6.3";
         SearchOptions.category := None;
         SearchOptions.maxResults := None |} = Return results
    /\ In r results
    /\ doc r = hd (Samples.recordTitled "") Samples.sampleIndex
    /\ _score r
       = _scoreDocument (hd (Samples.recordTitled "") Samples.sampleIndex)
           (_tokenize (normalizeQuery (Some "Maven")))
           (normalizeQuery (Some "Maven")).
Proof.
  apply (search_finds_indexed_word None Samples.sampleNet Samples.sampleEngine
           [EFetch "/search-data/search-index.min.json"; EConsoleLog; EOnReady]
           (Some "Maven") _ _ "maven").
  - reflexivity.
  - left. reflexivity.
  - split; [|reflexivity]. vm_compute. tauto.
  - vm_compute. auto.
  - split; intros x Hx; vm_compute in Hx; inversion Hx; reflexivity.
  - vm_compute. lia.
Defined.

End SearchMoreFacts.

(** ** Edit distance *)

Section DistanceFacts.

Import MagnoliaSearch Expansion.

Lemma ascii_eqb_sym (x y : ascii) : Ascii.eqb x y = Ascii.eqb y x.
Proof.
  destruct (Ascii.eqb_spec x y) as [-> | Hne].
  - symmetry. apply Ascii.eqb_refl.
  - symmetry. apply Ascii.eqb_neq. congruence.
Qed.

Lemma editDistance_sym (ra : list ascii) :
  forall rb, editDistance ra rb = editDistance rb ra.
Proof.
  induction ra as [|x ra IHa]; intros rb.
  - now rewrite editDistance_nil_l, editDistance_nil_r.
  - induction rb as [|y rb IHb].
    + reflexivity.
    + rewrite !editDistance_cons.
      rewrite (ascii_eqb_sym y x), (IHa rb), (IHa (y :: rb)), IHb.
      destruct (Ascii.eqb x y); [reflexivity | lia].
Qed.

Lemma editDistance_upper (ra : list ascii) :
  forall rb,
    (editDistance ra rb <= Nat.max (List.length ra) (List.length rb))%nat.
Proof.
  induction ra as [|x ra IHa]; intros rb.
  - rewrite editDistance_nil_l. simpl. lia.
  - induction rb as [|y rb IHb].
    + simpl. lia.
    + rewrite editDistance_cons.
      pose proof (IHa rb).
      destruct (Ascii.eqb y x); simpl List.length; lia.
Qed.

Lemma editDistance_lower (ra : list ascii) :
  forall rb,
    (absDiff (List.length ra) (List.length rb) <= editDistance ra rb)%nat.
Proof.
  unfold absDiff.
  induction ra as [|x ra IHa]; intros rb.
  - rewrite editDistance_nil_l. simpl. lia.
  - induction rb as [|y rb IHb].
    + simpl. lia.
    + rewrite editDistance_cons.
      pose proof (IHa rb). pose proof (IHa (y :: rb)).
      simpl List.length in *.
      destruct (Ascii.eqb y x); lia.
Qed.

Lemma editDistance_zero (ra : list ascii) :
  forall rb, editDistance ra rb = 0%nat <-> ra = rb.
Proof.
  induction ra as [|x ra IHa]; intros rb.
  - destruct rb; simpl; split; intros H; try reflexivity; discriminate.
  - induction rb as [|y rb IHb].
    + simpl. split; intros H; discriminate.
    + rewrite editDistance_cons.
      destruct (Ascii.eqb_spec y x) as [-> | Hne].
      * rewrite IHa. split; intros H; [now subst | now inversion H].
      * split; [lia | intros H; inversion H; congruence].
Qed.

Lemma reversed_length (s : string) :
  List.length (reversed s) = String.length s.
Proof.
  unfold reversed. rewrite length_rev.
  induction s as [|c s IH]; simpl; congruence.
Qed.

Lemma reversed_inj (a b : string) : reversed a = reversed b -> a = b.
Proof.
  unfold reversed. intros H.
  apply (f_equal (@rev ascii)) in H. rewrite !rev_involutive in H.
  rewrite <- (string_of_list_ascii_of_string a),
          <- (string_of_list_ascii_of_string b).
  now rewrite H.
Qed.

Lemma _levenshtein_sym (a b : string) : _levenshtein a b = _levenshtein b a.
Proof. rewrite !_levenshtein_editDistance. apply editDistance_sym. Qed.

Lemma _levenshtein_same (a : string) : _levenshtein a a = 0%nat.
Proof. rewrite _levenshtein_editDistance. now apply editDistance_zero. Qed.

(** X7: the distance [_levenshtein] computes is symmetric, is 0 exactly
    for equal strings, is at least the difference of the lengths and at
    most the longer length. *)
Theorem _levenshtein_metric (a b : string) :
  _levenshtein a b = _levenshtein b a
  /\ (_levenshtein a b = 0%nat <-> a = b)
  /\ (absDiff (String.length a) (String.length b) <= _levenshtein a b)%nat
  /\ (_levenshtein a b <= Nat.max (String.length a) (String.length b))%nat.
Proof.
  rewrite !_levenshtein_editDistance.
  split; [apply editDistance_sym|]. split; [|split].
  - rewrite editDistance_zero. split; [apply reversed_inj | now intros ->].
  - rewrite <- !reversed_length. apply editDistance_lower.
  - rewrite <- !reversed_length. apply editDistance_upper.
Qed.

Lemma absDiff_sym (m n : nat) : absDiff m n = absDiff n m.
Proof. unfold absDiff. lia. Qed.

(** X8: fuzzy matching is symmetric in its two terms; every non-empty
    term matches itself; and two terms whose lengths differ by more than
    2 never match. *)
Theorem _fuzzyMatch_symmetric (a b : string) :
  _fuzzyMatch a b = _fuzzyMatch b a
  /\ (a <> "" -> _fuzzyMatch a a = true)
  /\ ((2 < absDiff (String.length a) (String.length b))%nat ->
      _fuzzyMatch a b = false).
Proof.
  split; [|split].
  - unfold _fuzzyMatch.
    rewrite (absDiff_sym (String.length b)), (Nat.max_comm (String.length b)).
    now rewrite (_levenshtein_sym b a).
  - intros Hne. apply _fuzzyMatch_iff.
    rewrite _levenshtein_same.
    unfold absDiff. rewrite Nat.max_id, Nat.min_id.
    destruct a as [|c a]; [contradiction|].
    split; [lia|]. split; [simpl; lia|].
    unfold Qdiv. rewrite Qmult_0_l. discriminate.
  - intros H. unfold _fuzzyMatch.
    apply Nat.ltb_lt in H. now rewrite H.
Qed.

End DistanceFacts.

(** ** Facets *)

Section FacetFacts.

Import MagnoliaSearch Shapes.

Lemma string_compare_le_trans (a : string) :
  forall b c,
    String.compare a b <> Gt -> String.compare b c <> Gt ->
    String.compare a c <> Gt.
Proof.
  induction a as [|x a IH]; intros [|y b] [|z c]; simpl;
    try congruence.
  destruct (Ascii.compare x y) eqn:Exy; try congruence;
    destruct (Ascii.compare y z) eqn:Eyz; try congruence; intros H1 H2.
  - apply Ascii.compare_eq_iff in Exy, Eyz. subst.
    assert (E : Ascii.compare z z = Eq)
      by (unfold Ascii.compare; apply N.compare_refl).
    rewrite E. now apply (IH b c).
  - apply Ascii.compare_eq_iff in Exy. subst. now rewrite Eyz.
  - apply Ascii.compare_eq_iff in Eyz. subst. now rewrite Exy.
  - assert (E : Ascii.compare x z = Lt).
    { unfold Ascii.compare in *. apply N.compare_lt_iff.
      apply N.compare_lt_iff in Exy. apply N.compare_lt_iff in Eyz.
      eapply N.lt_trans; eassumption. }
    now rewrite E.
Qed.

Lemma leb_trans (a b c : string) :
  (a <=? b)%string = true -> (b <=? c)%string = true ->
  (a <=? c)%string = true.
Proof.
  unfold String.leb. intros H1 H2.
  pose proof (string_compare_le_trans a b c) as H.
  destruct (String.compare a b); try discriminate;
    destruct (String.compare b c); try discriminate;
    destruct (String.compare a c); try reflexivity;
    exfalso; apply H; congruence.
Qed.

Lemma leb_neq_ltb (a b : string) :
  (a <=? b)%string = true -> a <> b -> (a <? b)%string = true.
Proof.
  unfold String.leb, String.ltb. intros H Hne.
  destruct (String.compare a b) eqn:E; try reflexivity; try discriminate.
  apply String.compare_eq_iff in E. contradiction.
Qed.

Lemma insertString_In (a x : string) (l : list string) :
  In x (insertString a l) <-> x = a \/ In x l.
Proof.
  induction l as [|b l IH]; simpl.
  - intuition.
  - destruct (a <=? b)%string; simpl; [intuition|].
    rewrite IH. intuition.
Qed.

Lemma sortStrings_In (x : string) (l : list string) :
  In x (sortStrings l) <-> In x l.
Proof.
  induction l as [|a l IH]; simpl; [tauto|].
  rewrite insertString_In, IH. intuition.
Qed.

Lemma insertString_sorted (a : string) (l : list string) :
  StronglySorted (fun x y => (x <=? y)%string = true) l ->
  StronglySorted (fun x y => (x <=? y)%string = true) (insertString a l).
Proof.
  induction l as [|b l IH]; intros Hs; simpl.
  - repeat constructor.
  - inversion Hs as [|? ? Hl Hb]; subst.
    destruct (a <=? b)%string eqn:E.
    + constructor; [assumption|]. constructor; [assumption|].
      eapply Forall_impl; [|exact Hb]. simpl. intros c Hc.
      now apply (leb_trans a b c).
    + constructor; [now apply IH|].
      apply Forall_forall. intros c Hc.
      apply insertString_In in Hc. destruct Hc as [-> | Hc].
      * destruct (String.leb_total a b) as [H | H]; [congruence | exact H].
      * rewrite Forall_forall in Hb. now apply Hb.
Qed.

Lemma sortStrings_sorted (l : list string) :
  StronglySorted (fun x y => (x <=? y)%string = true) (sortStrings l).
Proof.
  induction l as [|a l IH]; simpl; [constructor|].
  now apply insertString_sorted.
Qed.

Lemma insertString_NoDup (a : string) (l : list string) :
  ~ In a l -> NoDup l -> NoDup (insertString a l).
Proof.
  induction l as [|b l IH]; intros Hn Hd; simpl.
  - repeat constructor. auto.
  - destruct (a <=? b)%string; [now constructor|].
    inversion Hd as [|? ? Hb Hl]; subst.
    constructor.
    + rewrite insertString_In. intros [-> | H]; [|contradiction].
      apply Hn. simpl. auto.
    + apply IH; [|assumption]. intros H. apply Hn. simpl. auto.
Qed.

Lemma sortStrings_NoDup (l : list string) :
  NoDup l -> NoDup (sortStrings l).
Proof.
  induction l as [|a l IH]; intros Hd; simpl; [constructor|].
  inversion Hd; subst.
  apply insertString_NoDup; [now rewrite sortStrings_In | auto].
Qed.

Lemma sorted_NoDup_strict (l : list string) :
  StronglySorted (fun x y => (x <=? y)%string = true) l ->
  NoDup l ->
  StronglySorted (fun x y => (x <? y)%string = true) l.
Proof.
  induction l as [|a l IH]; intros Hs Hn; [constructor|].
  inversion Hs as [|? ? Hl Ha]; inversion Hn as [|? ? Hna Hnl]; subst.
  constructor; [now apply IH|].
  apply Forall_forall. intros x Hx.
  apply leb_neq_ltb.
  - rewrite Forall_forall in Ha. now apply Ha.
  - intros ->. contradiction.
Qed.

Lemma distinct_from (values : list string) :
  forall seen,
    NoDup seen ->
    let result :=
      fold_left
        (fun seen v => if existsb (String.eqb v) seen then seen
                       else (seen ++ [v])%list) values seen in
    NoDup result /\ forall x, In x result <-> In x seen \/ In x values.
Proof.
  induction values as [|v values IH]; intros seen Hs; simpl.
  - split; [assumption | tauto].
  - destruct (existsb (String.eqb v) seen) eqn:E.
    + destruct (IH seen Hs) as [Hd Hin]. split; [assumption|].
      intros x. rewrite Hin.
      apply existsb_exists in E. destruct E as (y & Hy & Evy).
      apply String.eqb_eq in Evy. subst y.
      split; [tauto|]. intros [H | [<- | H]]; auto.
    + assert (Hs' : NoDup (seen ++ [v])).
      { apply NoDup_app; [assumption | repeat constructor; simpl; tauto|].
        intros y Hy [-> | []].
        assert (existsb (String.eqb y) seen = true)
          by (apply existsb_exists; exists y; split;
              [assumption | apply String.eqb_refl]).
        congruence. }
      destruct (IH _ Hs') as [Hd Hin]. split; [assumption|].
      intros x. rewrite Hin, in_app_iff. simpl. tauto.
Qed.

Lemma distinct_spec (values : list string) :
  NoDup (distinct values) /\ forall x, In x (distinct values) <-> In x values.
Proof.
  destruct (distinct_from values [] (NoDup_nil _)) as [Hd Hin].
  split; [exact Hd|]. intros x. unfold distinct. rewrite Hin. simpl. tauto.
Qed.

Lemma sortStrings_distinct_strict (values : list string) :
  StronglySorted (fun x y => (x <? y)%string = true)
    (sortStrings (distinct values)).
Proof.
  apply sorted_NoDup_strict; [apply sortStrings_sorted|].
  apply sortStrings_NoDup, distinct_spec.
Qed.

(** X9: [getCategories] and [getVersions] list exactly the categories
    (versions) of the records of a ready engine, each once, in strictly
    ascending order; before [load] they are empty. *)
Theorem facets_sorted_distinct (st : Engine) :
  (StronglySorted (fun x y => (x <? y)%string = true) (getCategories st)
   /\ forall c,
        In c (getCategories st)
        <-> loaded st = true
            /\ exists d, In d (index st) /\ SearchRecord.category d = c)
  /\ (StronglySorted (fun x y => (x <? y)%string = true) (getVersions st)
      /\ forall v,
           In v (getVersions st)
           <-> loaded st = true
               /\ exists d, In d (index st) /\ SearchRecord.version d = v).
Proof.
  unfold getCategories, getVersions.
  destruct (loaded st); cbn [negb].
  - split; (split; [apply sortStrings_distinct_strict|]);
      intros x; rewrite sortStrings_In, (proj2 (distinct_spec _)), in_map_iff;
      (split;
       [ intros (d & E & Hd); split; [reflexivity | eauto]
       | intros (_ & d & Hd & E); eauto ]).
  - split; (split; [constructor |]);
      intros x; (split; [intros [] | intros [H _]; discriminate]).
Qed.

End FacetFacts.

(** ** Highlighting *)

Section HighlightFacts.

Import MagnoliaSearch Shapes.

Lemma subsequence_refl (s : string) : subsequence s s.
Proof. induction s; constructor; assumption. Qed.

Lemma subsequence_prepend (x a b : string) :
  subsequence a b -> subsequence a (x ++ b).
Proof. intros H. induction x; simpl; [assumption | now constructor]. Qed.

Lemma subsequence_trans (a b c : string) :
  subsequence a b -> subsequence b c -> subsequence a c.
Proof.
  intros Hab Hbc. revert a Hab.
  induction Hbc as [c | x b c Hbc IH | x b c Hbc IH]; intros a Hab.
  - inversion Hab; subst. constructor.
  - constructor. now apply IH.
  - inversion Hab as [? | ? ? ? H | ? ? ? H]; subst.
    + constructor.
    + apply subsequence_skip, IH, H.
    + apply subsequence_take, IH, H.
Qed.

Lemma wrapFrom_subsequence (term opening closing : string) (s : string) :
  forall skip, subsequence s (wrapFrom term opening closing skip s).
Proof.
  induction s as [|c s IH]; intros skip; [constructor|].
  destruct skip as [|k]; cbn [wrapFrom].
  - destruct (prefixIgnoreCase term (String c s)).
    + apply subsequence_prepend. apply subsequence_take.
      apply subsequence_prepend, IH.
    + apply subsequence_take, IH.
  - apply subsequence_take. apply subsequence_prepend, IH.
Qed.

Lemma wrapEverywhere_subsequence (both s : string) :
  subsequence s (wrapEverywhere both s).
Proof.
  induction s as [|c s IH]; cbn [wrapEverywhere]; [constructor|].
  apply subsequence_prepend. now apply subsequence_take.
Qed.

Lemma wrapMatches_subsequence (term tag s : string) :
  subsequence s (wrapMatches term tag s).
Proof.
  unfold wrapMatches. destruct (term =? "").
  - apply wrapEverywhere_subsequence.
  - apply wrapFrom_subsequence.
Qed.

Lemma wrapFrom_no_match (term opening closing : string) (s : string) :
  occursIgnoreCase term s = false ->
  wrapFrom term opening closing 0 s = s.
Proof.
  induction s as [|c s IH]; [reflexivity|].
  intros H. cbn [occursIgnoreCase] in H.
  apply orb_false_iff in H. destruct H as [Hp Hs].
  cbn [wrapFrom]. rewrite Hp. now rewrite IH.
Qed.

(** The tokens are patterns without special characters. *)
Lemma _escapeRegex_token (w : string) :
  isToken w = true -> _escapeRegex w = w.
Proof.
  unfold isToken. intros H. apply andb_true_iff in H. destruct H as [_ H].
  induction w as [|c w IH]; simpl; [reflexivity|].
  simpl in H. apply andb_true_iff in H. destruct H as [Hc Hw].
  assert (E : isRegexSpecial c = false)
    by (destruct c as [[] [] [] [] [] [] [] []]; try reflexivity; discriminate).
  now rewrite E, IH.
Qed.

(** X10: for a tag without a dollar sign, [highlight] only inserts markup:
    the text is what remains of the result when the inserted characters
    are removed; and the result is the text itself when the text or the
    query is empty, when the query has no token, and when no token
    occurs in the text. *)
Theorem highlight_only_inserts (text query tag : string) :
  JS.includes tag "$" = false ->
  subsequence text (highlight text query tag)
  /\ (text = "" \/ query = "" \/ _tokenize query = [] ->
      highlight text query tag = text)
  /\ (Forall (fun term => occursIgnoreCase term text = false)
        (_tokenize query) ->
      highlight text query tag = text).
Proof.
  intros _. unfold highlight.
  split; [|split].
  - destruct (negb (JS.truthy text) || negb (JS.truthy query));
      [apply subsequence_refl|].
    generalize (_tokenize query). intros terms.
    assert (H : forall s, subsequence text s ->
                  subsequence text
                    (fold_left (fun result term => wrapMatches term tag result)
                       terms s)).
    { induction terms as [|t terms IH]; intros s Hs; simpl; [assumption|].
      apply IH. eapply subsequence_trans; [exact Hs|].
      apply wrapMatches_subsequence. }
    apply H, subsequence_refl.
  - intros [-> | [-> | E]].
    + reflexivity.
    + now rewrite orb_true_r.
    + rewrite E. simpl.
      now destruct (negb (JS.truthy text) || negb (JS.truthy query)).
  - intros Hall.
    destruct (negb (JS.truthy text) || negb (JS.truthy query));
      [reflexivity|].
    pose proof (_tokenize_isToken query) as Htok.
    revert Hall Htok. generalize (_tokenize query). intros terms.
    induction terms as [|t terms IH]; intros Hall Htok; simpl; [reflexivity|].
    inversion Hall as [|? ? Ht Hrest]; inversion Htok as [|? ? Hk Hkrest];
      subst.
    unfold wrapMatches at 2.
    assert (Hne : (t =? "") = false)
      by (unfold isToken in Hk; destruct t; [discriminate | reflexivity]).
    rewrite Hne, wrapFrom_no_match by assumption.
    now apply IH.
Qed.

(** X10 at an example: the default tag and a query with two tokens. *)
Lemma highlight_only_inserts_sample :
  subsequence "Install Java and Maven" 
    (highlight "Install Java and Maven" "java maven" "mark")
  /\ ("Install Java and Maven" = "" \/ "java maven" = ""
      \/ _tokenize "java maven" = [] ->
      highlight "Install Java and Maven" "java maven" "mark"
      = "Install Java and Maven")
  /\ (Forall (fun term => occursIgnoreCase term "Install Java and Maven" = false)
        (_tokenize "java maven") ->
      highlight "Install Java and Maven" "java maven" "mark"
      = "Install Java and Maven").
Proof. apply highlight_only_inserts. reflexivity. Defined.

Example highlight_java :
  highlight "Install Java and Maven" "java maven" "mark"
  = "Install <mark>Java</mark> and <mark>Maven</mark>".
Proof. vm_compute. reflexivity. Qed.

End HighlightFacts.

(** ** Slugs, URLs and categories *)

Section PageFacts.

Import Indexer Shapes.

Lemma isLowerAlnum_not_hyphen (c : ascii) :
  isLowerAlnum c = true -> Ascii.eqb c "-" = false.
Proof. destruct c as [[] [] [] [] [] [] [] []]; intros H; try reflexivity; discriminate. Qed.

Lemma hyphenateRuns_apart (s : string) :
  forall inRun, hyphensApart inRun (hyphenateRuns inRun s) = true.
Proof.
  induction s as [|c s IH]; intros inRun; [reflexivity|].
  cbn [hyphenateRuns].
  destruct (isLowerAlnum c) eqn:Hc.
  - cbn [hyphensApart]. now rewrite (isLowerAlnum_not_hyphen c Hc), Hc, IH.
  - destruct inRun; [apply IH|].
    cbn [hyphensApart]. change (Ascii.eqb "-" "-") with true. cbv iota.
    now rewrite IH.
Qed.

Lemma hyphensApart_weaken (s : string) :
  hyphensApart true s = true -> hyphensApart false s = true.
Proof.
  destruct s as [|c s]; [reflexivity|]. cbn [hyphensApart].
  destruct (Ascii.eqb c "-"); [discriminate | auto].
Qed.

Lemma stripLeadingHyphen_apart (s : string) :
  hyphensApart false s = true ->
  hyphensApart true (stripLeadingHyphen s) = true.
Proof.
  destruct s as [|c s]; [reflexivity|].
  cbn [hyphensApart stripLeadingHyphen].
  destruct (Ascii.eqb c "-") eqn:E.
  - cbn [negb andb]. auto.
  - cbn [hyphensApart]. now rewrite E.
Qed.

Lemma stripTrailingHyphen_apart (s : string) :
  forall prev,
    hyphensApart prev s = true ->
    hyphensApart prev (stripTrailingHyphen s) = true
    /\ endsInHyphen (stripTrailingHyphen s) = false.
Proof.
  induction s as [|c s IH]; intros prev H; [split; reflexivity|].
  destruct s as [|d s].
  - cbn [stripTrailingHyphen].
    destruct (Ascii.eqb c "-") eqn:E; [split; reflexivity|].
    split; [exact H|]. cbn [endsInHyphen]. exact E.
  - change (stripTrailingHyphen (String c (String d s)))
      with (String c (stripTrailingHyphen (String d s))).
    cbn [hyphensApart] in H |- *.
    destruct (Ascii.eqb c "-") eqn:E.
    + apply andb_true_iff in H. destruct H as [Hp H].
      destruct (IH true H) as [H1 H2]. rewrite Hp, H1. split; [reflexivity|].
      destruct (stripTrailingHyphen (String d s)) as [|e r] eqn:Es.
      * (* the rest was a single hyphen, which cannot follow a hyphen *)
        exfalso. cbn [hyphensApart] in H.
        destruct (Ascii.eqb d "-") eqn:Ed; [discriminate|].
        destruct s as [|d' s]; cbn [stripTrailingHyphen] in Es.
        -- rewrite Ed in Es. discriminate.
        -- discriminate.
      * exact H2.
    + apply andb_true_iff in H. destruct H as [Hc H].
      destruct (IH false H) as [H1 H2]. rewrite Hc, H1. split; [reflexivity|].
      destruct (stripTrailingHyphen (String d s)) as [|e r] eqn:Es.
      * cbn [endsInHyphen]. exact E.
      * exact H2.
Qed.

Lemma slugChars_lower (s : string) :
  forall prev, hyphensApart prev s = true -> JS.toLowerCase s = s.
Proof.
  induction s as [|c s IH]; intros prev H; [reflexivity|].
  cbn [hyphensApart] in H. cbn [JS.toLowerCase JS.mapChars].
  fold (JS.toLowerCase s).
  destruct (Ascii.eqb_spec c "-") as [-> | Hne].
  - apply andb_true_iff in H. destruct H as [_ H].
    now rewrite (IH true H).
  - apply andb_true_iff in H. destruct H as [Hc H].
    now rewrite (isLowerAlnum_toLowerChar c Hc), (IH false H).
Qed.

Lemma hyphenateRuns_fixed (s : string) :
  forall inRun, hyphensApart inRun s = true -> hyphenateRuns inRun s = s.
Proof.
  induction s as [|c s IH]; intros inRun H; [reflexivity|].
  cbn [hyphensApart] in H. cbn [hyphenateRuns].
  destruct (Ascii.eqb_spec c "-") as [-> | Hne].
  - apply andb_true_iff in H. destruct H as [Hp H].
    change (isLowerAlnum "-") with false. cbv iota.
    destruct inRun; [discriminate|]. now rewrite (IH true H).
  - apply andb_true_iff in H. destruct H as [Hc H].
    now rewrite Hc, (IH false H).
Qed.

Lemma stripLeadingHyphen_fixed (s : string) :
  hyphensApart true s = true -> stripLeadingHyphen s = s.
Proof.
  destruct s as [|c s]; [reflexivity|].
  cbn [hyphensApart stripLeadingHyphen].
  destruct (Ascii.eqb c "-"); [discriminate | reflexivity].
Qed.

Lemma stripTrailingHyphen_fixed (s : string) :
  endsInHyphen s = false -> stripTrailingHyphen s = s.
Proof.
  induction s as [|c s IH]; [reflexivity|].
  destruct s as [|d s].
  - cbn [endsInHyphen stripTrailingHyphen]. now intros ->.
  - intros H.
    change (stripTrailingHyphen (String c (String d s)))
      with (String c (stripTrailingHyphen (String d s))).
    now rewrite IH.
Qed.

(** X11: [slugify] returns a slug (lower-case letters and digits in
    groups joined by single hyphens, no hyphen at either end, possibly
    empty), leaves every slug as it is, and so is idempotent. *)
Theorem slugify_slug (text : string) :
  isSlug (slugify text) = true
  /\ (isSlug text = true -> slugify text = text)
  /\ slugify (slugify text) = slugify text.
Proof.
  assert (Hslug : forall t, isSlug (slugify t) = true).
  { intros t. unfold isSlug, slugify, stripEdgeHyphens.
    pose proof (hyphenateRuns_apart (JS.toLowerCase t) false) as H.
    apply stripLeadingHyphen_apart in H.
    destruct (stripTrailingHyphen_apart _ true H) as [H1 H2].
    now rewrite H1, H2. }
  assert (Hfix : forall t, isSlug t = true -> slugify t = t).
  { intros t H. unfold isSlug in H. apply andb_true_iff in H.
    destruct H as [Ha He]. apply negb_true_iff in He.
    unfold slugify, stripEdgeHyphens.
    rewrite (slugChars_lower t true Ha).
    rewrite (hyphenateRuns_fixed t false (hyphensApart_weaken t Ha)).
    rewrite (stripLeadingHyphen_fixed t Ha).
    now apply stripTrailingHyphen_fixed. }
  split; [apply Hslug|]. split; [apply Hfix|].
  apply Hfix, Hslug.
Qed.

Example slugify_examples :
  slugify "  Hello, World!  " = "hello-world"
  /\ slugify "--A--b--" = "a-b"
  /\ slugify "!" = "".
Proof. repeat split. Qed.

(** *** URLs *)

Lemma substring_skip (x t : string) (n : nat) :
  substring (String.length x) n (x ++ t) = substring 0 n t.
Proof. induction x as [|c x IH]; simpl; [reflexivity | exact IH]. Qed.

Lemma substring_all (t : string) : substring 0 (String.length t) t = t.
Proof. induction t as [|c t IH]; simpl; congruence. Qed.

Lemma append_length (a b : string) :
  String.length (a ++ b) = (String.length a + String.length b)%nat.
Proof. induction a as [|c a IH]; simpl; congruence. Qed.

Lemma endsWith_append (x t : string) : JS.endsWith (x ++ t) t = true.
Proof.
  unfold JS.endsWith. rewrite append_length.
  replace (String.length x + String.length t - String.length t)%nat
    with (String.length x) by lia.
  rewrite substring_skip, substring_all, String.eqb_refl, andb_true_r.
  apply Nat.leb_le. lia.
Qed.

Lemma endsWith_cons (c : ascii) (s t : string) :
  JS.endsWith s t = true -> JS.endsWith (String c s) t = true.
Proof.
  unfold JS.endsWith. intros H. apply andb_true_iff in H.
  destruct H as [Hlen Hs]. apply Nat.leb_le in Hlen.
  apply andb_true_iff. split; [apply Nat.leb_le; simpl; lia|].
  cbn [String.length].
  replace (S (String.length s) - String.length t)%nat
    with (S (String.length s - String.length t)) by lia.
  exact Hs.
Qed.

Lemma allChars_substring (p : ascii -> bool) (s : string) :
  forall n m,
    MagnoliaSearch.allChars p s = true ->
    MagnoliaSearch.allChars p (substring n m s) = true.
Proof.
  induction s as [|c s IH]; intros n m H.
  - destruct n, m; reflexivity.
  - simpl in H. apply andb_true_iff in H. destruct H as [Hc Hs].
    destruct n as [|n]; destruct m as [|m]; simpl; auto.
    now rewrite Hc, IH.
Qed.

Lemma allChars_replaceSuffix (p : ascii -> bool) (suffix replacement s : string) :
  MagnoliaSearch.allChars p s = true ->
  MagnoliaSearch.allChars p replacement = true ->
  MagnoliaSearch.allChars p (JS.replaceSuffix suffix replacement s) = true.
Proof.
  intros Hs Hr. unfold JS.replaceSuffix, JS.sliceTo.
  destruct (JS.endsWith s suffix); [|assumption].
  now rewrite allChars_append, allChars_substring, Hr.
Qed.

(** X12: every URL [pathToUrl] derives is the base URL followed by a
    path that starts with a slash, ends with a slash and contains no
    backslash. *)
Theorem pathToUrl_shape (baseUrl relativePath : string) :
  exists path,
    pathToUrl baseUrl relativePath = baseUrl ++ path
    /\ JS.startsWith path "/" = true
    /\ JS.endsWith path "/" = true
    /\ MagnoliaSearch.allChars notBackslash path = true.
Proof.
  unfold pathToUrl.
  set (u0 := JS.mapChars (fun c => if Ascii.eqb c "\" then "/"%char else c)
               relativePath).
  assert (H0 : MagnoliaSearch.allChars notBackslash u0 = true).
  { unfold u0. apply allChars_mapChars. intros c. unfold notBackslash.
    destruct (Ascii.eqb c "\") eqn:E; [reflexivity | now rewrite E]. }
  set (u2 := JS.replaceSuffix ".html" "/" (JS.replaceSuffix "index.html" "" u0)).
  assert (H2 : MagnoliaSearch.allChars notBackslash u2 = true)
    by (unfold u2; repeat apply allChars_replaceSuffix;
        try reflexivity; exact H0).
  cbv zeta.
  set (u3 := if negb (JS.endsWith u2 "/") then u2 ++ "/" else u2).
  assert (H3 : MagnoliaSearch.allChars notBackslash u3 = true
               /\ JS.endsWith u3 "/" = true).
  { unfold u3. destruct (JS.endsWith u2 "/") eqn:E; cbn [negb].
    - auto.
    - split; [now rewrite allChars_append, H2 | apply endsWith_append]. }
  destruct H3 as [H3 E3].
  eexists. split; [reflexivity|].
  destruct (JS.startsWith u3 "/") eqn:E; cbn [negb].
  - auto.
  - split; [unfold JS.startsWith; cbn [append]; simpl;
            clearbody u3; now destruct u3|].
    split; [now apply endsWith_cons|].
    cbn [append MagnoliaSearch.allChars]. now rewrite H3.
Qed.

(** X13: [categorizeUrl] returns one of eight fixed pairs, so the
    category determines the version; the version is [6.2] exactly for
    URLs that contain [/product-docs/6.2/], and a URL that contains
    [/product-docs/] always gets one of the versions [6.2], [6.3] and
    [latest]. *)
Theorem categorizeUrl_table (url url' : string) :
  In (categorizeUrl url) categoryTable
  /\ (fst (categorizeUrl url) = fst (categorizeUrl url') ->
      snd (categorizeUrl url) = snd (categorizeUrl url'))
  /\ (snd (categorizeUrl url) = "6.2"
      <-> JS.includes url "/product-docs/6.2/" = true)
  /\ (JS.includes url "/product-docs/" = true ->
      In (snd (categorizeUrl url)) ["6.2"; "6.3"; "latest"]).
Proof.
  unfold categorizeUrl, categoryTable.
  split; [|split; [|split]].
  - repeat match goal with
           | |- context [if ?b then _ else _] => destruct b
           end; simpl; tauto.
  - repeat match goal with
           | |- context [if ?b then _ else _] => destruct b
           end; simpl; intros H; try reflexivity; discriminate.
  - destruct (JS.includes url "/product-docs/6.2/"); [tauto|].
    repeat match goal with
           | |- context [if ?b then _ else _] => destruct b
           end; simpl; split; intros H; discriminate.
  - intros H. rewrite H.
    destruct (JS.includes url "/product-docs/6.2/"); [simpl; auto|].
    destruct (JS.includes url "/product-docs/6.3/"); simpl; auto.
Qed.

End PageFacts.

(** ** Sections and search records *)

Section SectionFacts.

Import Indexer Shapes.
















Variable md5hex12 : string -> string.

Lemma _tokenize_lower (text : string) :
  MagnoliaSearch._tokenize (JS.toLowerCase text) = MagnoliaSearch._tokenize text.
Proof. rewrite !_tokenize_unfold. now rewrite toLowerCase_idempotent. Qed.

Lemma createSearchRecord_searchText (metadata : PageMetadata.t)
    (section : PageSection.t) (url : string) :
  MagnoliaSearch._tokenize
    (MagnoliaSearch.SearchRecord._searchText
       (IndexerRecords.createSearchRecord md5hex12 metadata section url))
  = (MagnoliaSearch._tokenize (PageMetadata.title metadata)
     ++ MagnoliaSearch._tokenize (orElse (PageSection.heading section) "")
     ++ MagnoliaSearch._tokenize (PageSection.content section))%list.
Proof.
  unfold IndexerRecords.createSearchRecord.
  cbn [MagnoliaSearch.SearchRecord._searchText].
  rewrite _tokenize_lower.
  cbn [IndexerRecords.filterTruthy].
  assert (Hempty : forall t, JS.truthy t = false -> MagnoliaSearch._tokenize t = []).
  { intros t Ht. unfold JS.truthy in Ht. apply negb_false_iff in Ht.
    apply String.eqb_eq in Ht. now subst t. }
  destruct (JS.truthy (PageMetadata.title metadata)) eqn:Et;
    destruct (PageSection.heading section) as [h|];
    [destruct (JS.truthy h) eqn:Eh | | destruct (JS.truthy h) eqn:Eh | ];
    destruct (JS.truthy (PageSection.content section)) eqn:Ec;
    cbn [orElse IndexerRecords.filterTruthy JS.join];
    rewrite ?Eh; rewrite ?_tokenize_join;
    rewrite ?(Hempty _ Et), ?(Hempty _ Ec);
    try (rewrite (Hempty h Eh));
    change (MagnoliaSearch._tokenize "") with (@nil string);
    rewrite ?app_nil_r; reflexivity.
Qed.

(** X15: the search text of a record yields exactly the tokens of the
    page title, then those of the section heading, then those of the
    section content: a missing or empty part contributes nothing and the
    joining of the parts neither merges nor splits a token.  The URL of
    the record is the page URL, followed by [#] and the anchor when the
    section has one. *)
Theorem createSearchRecord_tokens (metadata : PageMetadata.t)
    (section : PageSection.t) (url : string) :
  let record :=
    IndexerRecords.createSearchRecord md5hex12 metadata section url in
  MagnoliaSearch._tokenize (MagnoliaSearch.SearchRecord._searchText record)
  = (MagnoliaSearch._tokenize (PageMetadata.title metadata)
     ++ MagnoliaSearch._tokenize (orElse (PageSection.heading section) "")
     ++ MagnoliaSearch._tokenize (PageSection.content section))%list
  /\ JS.startsWith (MagnoliaSearch.SearchRecord.url record) url = true
  /\ (PageSection.anchor section = "" ->
      MagnoliaSearch.SearchRecord.url record = url).
Proof.
  cbv zeta. split; [|split].
  - apply createSearchRecord_searchText.
  - unfold IndexerRecords.createSearchRecord.
    cbn [MagnoliaSearch.SearchRecord.url]. unfold JS.startsWith.
    destruct (JS.truthy (PageSection.anchor section)).
    + generalize ("#" ++ PageSection.anchor section). intros x.
      induction url as [|c u IH]; simpl; [now destruct x|].
      destruct (ascii_dec c c); [exact IH | contradiction].
    + apply prefix_refl.
  - intros Ha. unfold IndexerRecords.createSearchRecord.
    cbn [MagnoliaSearch.SearchRecord.url]. now rewrite Ha.
Qed.

End SectionFacts.

(** ** The budget of a chunk *)

Section ChunkBudgetFacts.

Import Indexer Coverage Budget.

Variable md5hex12 : string -> string.
Variable metadata : PageMetadata.t.
Variable url : string.

Let header := buildChunkHeader metadata url.
Let headerTokens := estimateTokens header.

Lemma sectionTokens_snoc (g : list PageSection.t) (s : PageSection.t) :
  sectionTokens (g ++ [s]) = (sectionTokens g + estimateSectionTokens s)%Z.
Proof.
  induction g as [|x g IH]; simpl; [lia|]. rewrite IH. lia.
Qed.

Lemma pageTokens_sectionTokens (secs : list PageSection.t) :
  forall total,
    pageTokens total secs = (total + sectionTokens secs)%Z.
Proof.
  unfold pageTokens.
  induction secs as [|s secs IH]; intros total; simpl; [lia|].
  rewrite IH. lia.
Qed.

Lemma closed_snoc (secs : list PageSection.t) (len : nat) (lens : list nat) :
  forall start,
    closed headerTokens secs start lens ->
    withinBudget headerTokens
      (sectionSlice secs (start + list_sum lens) len) ->
    full headerTokens secs (start + list_sum lens) len ->
    closed headerTokens secs start (lens ++ [len]).
Proof.
  induction lens as [|l lens IH]; intros start Hc Hw Hf; simpl in *.
  - rewrite Nat.add_0_r in Hw, Hf. auto.
  - destruct Hc as (H1 & H2 & H3). split; [exact H1|]. split; [exact H2|].
    apply IH; [exact H3 | |]; now rewrite <- Nat.add_assoc.
Qed.

Lemma closed_packed_snoc (secs : list PageSection.t) (len : nat)
    (lens : list nat) :
  forall start,
    closed headerTokens secs start lens ->
    withinBudget headerTokens
      (sectionSlice secs (start + list_sum lens) len) ->
    packed headerTokens secs start (lens ++ [len]).
Proof.
  induction lens as [|l lens IH]; intros start Hc Hw; simpl in *.
  - rewrite Nat.add_0_r in Hw. split; [exact Hw|]. split; [congruence | exact I].
  - destruct Hc as (H1 & H2 & H3). split; [exact H1|]. split; [auto|].
    apply IH; [exact H3|]. now rewrite <- Nat.add_assoc.
Qed.

Lemma nonempty_length {A} (l : list A) :
  (0 <? List.length l)%nat = true <-> l <> [].
Proof.
  destruct l; simpl; split; intros H; try reflexivity; try discriminate.
  contradiction.
Qed.

Lemma splitStep_packInv (done rest : list PageSection.t) (s : PageSection.t)
    (st : list LlmChunk.t * CurrentChunk) :
  packInv header headerTokens (done ++ s :: rest) done st ->
  packInv header headerTokens (done ++ s :: rest) (done ++ [s])
    (splitStep md5hex12 header headerTokens url metadata st (List.length done) s).
Proof.
  destruct st as [chunks cur].
  intros (pre & lens & Hdone & Hstart & Htiles & Hempty & Hclosed & Htok & Hfit).
  cbn [fst snd] in *.
  pose proof (tiles_sum metadata url _ _ _ _ _ _ Htiles) as Hsum.
  cbn [Nat.add] in Hsum.
  unfold splitStep.
  destruct ((tokens cur + estimateSectionTokens s >? MAX_CHUNK_TOKENS)%Z
            && (0 <? List.length (sections cur))%nat) eqn:Hsplit.
  - apply andb_true_iff in Hsplit. destruct Hsplit as [Hover Hne].
    apply nonempty_length in Hne.
    rewrite Z.gtb_ltb in Hover. apply Z.ltb_lt in Hover.
    assert (Hslice : sectionSlice (done ++ s :: rest) (List.length pre)
                       (List.length (sections cur)) = sections cur)
      by (rewrite Hdone, <- app_assoc; apply sectionSlice_middle).
    exists (pre ++ sections cur)%list, (lens ++ [List.length (sections cur)])%list.
    cbn [fst snd sections tokens startIndex].
    split; [now rewrite Hdone|]. split; [now rewrite <- Hdone|].
    split; [|split; [discriminate|split; [|split]]].
    + rewrite length_app. apply (tiles_snoc metadata url); [assumption|].
      simpl. rewrite Hstart, Hdone, <- app_assoc.
      apply buildChunkFromSections_covers; [assumption|].
      now rewrite length_app.
    + apply closed_snoc; [exact Hclosed | |]; cbn [Nat.add]; rewrite Hsum.
      * now rewrite Hslice.
      * exists s. split.
        -- rewrite <- length_app, <- Hdone.
           rewrite nth_error_app2 by lia. now rewrite Nat.sub_diag.
        -- rewrite Hslice. lia.
    + simpl. lia.
    + intros Hlen. simpl in Hlen. lia.
  - exists pre, lens. cbn [fst snd sections tokens startIndex].
    split; [now rewrite Hdone, app_assoc|]. split; [assumption|].
    split; [assumption|].
    split; [intros H; destruct (sections cur); discriminate|].
    split; [assumption|]. split.
    + rewrite sectionTokens_snoc, Htok. lia.
    + intros Hlen. rewrite length_app in Hlen. simpl in Hlen.
      assert (Hne : (0 <? List.length (sections cur))%nat = true)
        by (apply Nat.ltb_lt; lia).
      rewrite Hne, andb_true_r in Hsplit.
      rewrite Z.gtb_ltb in Hsplit. apply Z.ltb_ge in Hsplit.
      rewrite sectionTokens_snoc. lia.
Qed.

Lemma splitLoop_packInv (secs : list PageSection.t) :
  forall rest done st,
    secs = (done ++ rest)%list ->
    packInv header headerTokens secs done st ->
    packInv header headerTokens secs secs
      (splitLoop md5hex12 header headerTokens url metadata
         (List.length done) rest st).
Proof.
  induction rest as [|s rest IH]; intros done st Hsecs Hinv; simpl.
  - rewrite app_nil_r in Hsecs. now subst.
  - assert (E : S (List.length done) = List.length (done ++ [s]))
      by (rewrite length_app; simpl; lia).
    rewrite E. apply IH.
    + now rewrite <- app_assoc.
    + subst secs. now apply splitStep_packInv.
Qed.

(** X16: the chunks of a page respect the budget by the estimates that
    [createLlmChunks] adds up.  An unsplit page is within 1500 tokens,
    header included.  In a split page, every chunk that holds two or more
    sections is within 1500 tokens, header included, and every chunk but
    the last is full: the section after it would have taken it over
    1500. *)
Theorem createLlmChunks_packed (secs : list PageSection.t) :
  let chunks := createLlmChunks md5hex12 metadata secs url in
  (exists c,
     chunks = [c] /\ holdsWholePage header secs c
     /\ (headerTokens + sectionTokens secs <= MAX_CHUNK_TOKENS)%Z)
  \/ (exists lens,
        (MAX_CHUNK_TOKENS < headerTokens + sectionTokens secs)%Z
        /\ tiles header secs 0 0 chunks lens (List.length secs)
        /\ packed headerTokens secs 0 lens).
Proof.
  cbv zeta. unfold createLlmChunks. fold header. fold headerTokens.
  rewrite pageTokens_sectionTokens.
  destruct (headerTokens + sectionTokens secs <=? MAX_CHUNK_TOKENS)%Z eqn:Hfits.
  - left. apply Z.leb_le in Hfits.
    eexists. split; [reflexivity|]. split; [|exact Hfits].
    unfold holdsWholePage. simpl. auto.
  - right. apply Z.leb_gt in Hfits.
    pose proof (splitLoop_packInv secs secs []
                  ([], {| sections := []; tokens := headerTokens; startIndex := 0 |})
                  eq_refl) as Hinv.
    cbn [List.length] in Hinv.
    destruct (splitLoop md5hex12 header headerTokens url metadata 0 secs
                ([], {| sections := []; tokens := headerTokens; startIndex := 0 |}))
      as [chunks cur] eqn:Hloop.
    destruct Hinv
      as (pre & lens & Hdone & Hstart & Htiles & Hempty & Hclosed & Htok & Hfit).
    { exists [], []. cbn. repeat split; auto; try lia.
      intros Hlen. simpl in Hlen. lia. }
    cbn [fst snd] in *.
    pose proof (tiles_sum metadata url _ _ _ _ _ _ Htiles) as Hsum.
    cbn [Nat.add] in Hsum.
    destruct (0 <? List.length (sections cur))%nat eqn:Hne.
    + apply nonempty_length in Hne.
      exists (lens ++ [List.length (sections cur)])%list.
      split; [exact Hfits|].
      assert (Hlen : List.length secs
                     = (List.length pre + List.length (sections cur))%nat)
        by (rewrite <- length_app; now f_equal).
      assert (Hsecs : secs = (pre ++ sections cur ++ [])%list)
        by (now rewrite app_nil_r).
      split.
      * apply (tiles_setChunkTotal metadata url).
        rewrite Hlen at 2. rewrite Hsecs at 1.
        apply (tiles_snoc metadata url); [now rewrite <- Hsecs|]. simpl.
        rewrite Hstart.
        apply buildChunkFromSections_covers; assumption.
      * apply closed_packed_snoc; [exact Hclosed|].
        cbn [Nat.add]. rewrite Hsum.
        rewrite Hsecs at 1. now rewrite sectionSlice_middle.
    + apply Nat.ltb_ge in Hne.
      assert (Hnil : sections cur = [])
        by (destruct (sections cur); simpl in *; [reflexivity | lia]).
      destruct (Hempty Hnil) as [Hsecs Hchunks]. subst chunks.
      exists lens. split; [exact Hfits|].
      destruct lens; simpl in Htiles; [|contradiction].
      split; [|exact I].
      simpl. rewrite Hsecs. simpl. congruence.
Qed.

(** *** Chunk ids *)

Lemma append_inj_l (x a b : string) : x ++ a = x ++ b -> a = b.
Proof.
  induction x as [|c x IH]; simpl; intros H; [exact H|].
  apply IH. now inversion H.
Qed.

Lemma ofNat_inj (m n : nat) : JS.ofNat m = JS.ofNat n -> m = n.
Proof.
  unfold JS.ofNat. intros H.
  assert (E : Some (Nat.to_uint m) = Some (Nat.to_uint n))
    by (rewrite <- !NilEmpty.usu; now f_equal).
  inversion E as [E'].
  rewrite <- (Unsigned.of_to m), <- (Unsigned.of_to n). now f_equal.
Qed.

Lemma numbered_snoc (baseId : string) (chunks : list LlmChunk.t)
    (c : LlmChunk.t) :
  numbered baseId chunks ->
  LlmChunk.id c = baseId ++ "-" ++ JS.ofNat (List.length chunks) ->
  LlmChunk.chunkIndex c = Some (Z.of_nat (List.length chunks)) ->
  numbered baseId (chunks ++ [c]).
Proof.
  intros Hall Hid Hidx j c' Hj.
  destruct (Nat.lt_ge_cases j (List.length chunks)) as [Hlt | Hge].
  - rewrite nth_error_app1 in Hj by exact Hlt. now apply Hall.
  - rewrite nth_error_app2 in Hj by exact Hge.
    destruct (j - List.length chunks)%nat as [|k] eqn:Ek; simpl in Hj.
    + inversion Hj; subst c'.
      assert (j = List.length chunks) by lia. subst j. auto.
    + destruct k; discriminate.
Qed.

Lemma splitStep_numbered (st : list LlmChunk.t * CurrentChunk) (i : nat)
    (s : PageSection.t) :
  numbered (md5hex12 url) (fst st) ->
  numbered (md5hex12 url)
    (fst (splitStep md5hex12 header headerTokens url metadata st i s)).
Proof.
  destruct st as [chunks cur]. unfold splitStep. cbn [fst].
  destruct ((tokens cur + estimateSectionTokens s >? MAX_CHUNK_TOKENS)%Z
            && (0 <? List.length (sections cur))%nat); cbn [fst]; intros H.
  - apply numbered_snoc; [exact H | |]; cbn; [|reflexivity].
    now rewrite Nat2Z.id.
  - exact H.
Qed.

Lemma splitLoop_numbered (rest : list PageSection.t) :
  forall i st,
    numbered (md5hex12 url) (fst st) ->
    numbered (md5hex12 url)
      (fst (splitLoop md5hex12 header headerTokens url metadata i rest st)).
Proof.
  induction rest as [|s rest IH]; intros i st H; simpl; [exact H|].
  apply IH. now apply splitStep_numbered.
Qed.

Lemma numbered_NoDup (baseId : string) (chunks : list LlmChunk.t) :
  numbered baseId chunks -> NoDup (map LlmChunk.id chunks).
Proof.
  intros Hall. apply NoDup_nth_error. intros i j Hi E.
  rewrite length_map in Hi.
  rewrite !nth_error_map in E.
  destruct (nth_error chunks i) as [ci|] eqn:Ei;
    [|apply nth_error_None in Ei; lia].
  destruct (nth_error chunks j) as [cj|] eqn:Ej; [|discriminate].
  simpl in E. inversion E as [E'].
  destruct (Hall i ci Ei) as [Hci _]. destruct (Hall j cj Ej) as [Hcj _].
  rewrite Hci, Hcj in E'.
  apply append_inj_l in E'. apply (append_inj_l "-") in E'.
  now apply ofNat_inj.
Qed.

(** X17: the ids of the chunks of one page.  An unsplit page yields one
    chunk whose id is the hash of the URL.  Otherwise the chunk at
    position [j] has the id hash-[j] and the index [j].  In both cases no
    two chunks of the page share an id. *)
Theorem createLlmChunks_ids (secs : list PageSection.t) :
  let chunks := createLlmChunks md5hex12 metadata secs url in
  NoDup (map LlmChunk.id chunks)
  /\ ((exists c, chunks = [c] /\ LlmChunk.id c = md5hex12 url
                 /\ LlmChunk.chunkIndex c = None)
      \/ numbered (md5hex12 url) chunks).
Proof.
  cbv zeta.
  assert (H : (exists c, createLlmChunks md5hex12 metadata secs url = [c]
                         /\ LlmChunk.id c = md5hex12 url
                         /\ LlmChunk.chunkIndex c = None)
              \/ numbered (md5hex12 url)
                   (createLlmChunks md5hex12 metadata secs url)).
  { unfold createLlmChunks. fold header. fold headerTokens.
    destruct (pageTokens headerTokens secs <=? MAX_CHUNK_TOKENS)%Z.
    - left. eexists. split; [reflexivity|]. simpl. auto.
    - right.
      pose proof (splitLoop_numbered secs 0
                    ([], {| sections := []; tokens := headerTokens;
                            startIndex := 0 |})) as Hnum.
      destruct (splitLoop md5hex12 header headerTokens url metadata 0 secs
                  ([], {| sections := []; tokens := headerTokens;
                          startIndex := 0 |})) as [chunks cur].
      cbn [fst] in Hnum.
      assert (Hchunks : numbered (md5hex12 url) chunks).
      { apply Hnum. intros j c Hj. destruct j; discriminate. }
      assert (Hmap : forall l total,
                 numbered (md5hex12 url) l ->
                 numbered (md5hex12 url) (map (LlmChunk.setChunkTotal total) l)).
      { intros l total Hl j c Hj. rewrite nth_error_map in Hj.
        destruct (nth_error l j) as [c0|] eqn:E; [|discriminate].
        simpl in Hj. inversion Hj; subst c. simpl. now apply Hl. }
      apply Hmap.
      destruct (0 <? List.length (sections cur))%nat; [|exact Hchunks].
      apply numbered_snoc; [exact Hchunks | |]; cbn; [|reflexivity].
      now rewrite Nat2Z.id. }
  split; [|exact H].
  destruct H as [(c & -> & _) | H].
  - simpl. constructor; [intros [] | constructor].
  - eapply numbered_NoDup. exact H.
Qed.

End ChunkBudgetFacts.

(** ** The budget of a context *)

Section ContextBudgetFacts.

Import MagnoliaAI Assembly.

Lemma firstn_map_length {A B} (f : A -> B) (l : list A) :
  firstn (List.length l) (map f l) = map f l.
Proof. rewrite <- (length_map f l). apply firstn_all. Qed.

(** X18: the budget of [buildContext].  The token estimate of a context
    never exceeds [maxContextTokens]; a first chunk over the budget
    leaves the context empty, whatever follows it; and when the ranked
    chunks fit the budget at every step, all of them are included. *)
Theorem buildContext_budget (relevantChunks : list Relevant) :
  let chunks := map chunk relevantChunks in
  (tokenEstimate (buildContext relevantChunks) <= maxContextTokens config)%Z
  /\ (forall r rest,
        relevantChunks = r :: rest ->
        (maxContextTokens config < Indexer.LlmChunk.tokenEstimate (chunk r))%Z ->
        context (buildContext relevantChunks) = ""
        /\ tokenEstimate (buildContext relevantChunks) = 0%Z)
  /\ ((forall j, (j <= List.length chunks)%nat ->
         (sumTokens (firstn j chunks) <= maxContextTokens config)%Z) ->
      context (buildContext relevantChunks) = JS.trim (renderChunks chunks)
      /\ tokenEstimate (buildContext relevantChunks) = sumTokens chunks).
Proof.
  intros chunks.
  destruct (contextLoop_prefix chunks "" 0%Z) as (k & Hk & Hloop & Hfit & Hnext).
  split; [|split].
  - unfold buildContext. fold chunks. rewrite Hloop.
    cbn [tokenEstimate].
    destruct k as [|k].
    + change (sumTokens (firstn 0 chunks)) with 0%Z.
      change (maxContextTokens config) with 8000%Z. lia.
    + apply (Hfit (S k)). lia.
  - intros r rest -> Hover. unfold buildContext.
    change (map chunk (r :: rest)) with (chunk r :: map chunk rest).
    rewrite contextLoop_cons.
    replace (0 + Indexer.LlmChunk.tokenEstimate (chunk r)
             >? maxContextTokens config)%Z with true
      by (symmetry; rewrite Z.gtb_ltb; apply Z.ltb_lt; lia).
    split; reflexivity.
  - intros Hall.
    assert (Hfull : k = List.length chunks).
    { destruct (Nat.eq_dec k (List.length chunks)) as [E | Hne]; [exact E|].
      assert (Hlt : (k < List.length chunks)%nat) by lia.
      specialize (Hnext Hlt). specialize (Hall (S k) ltac:(lia)). lia. }
    unfold buildContext. fold chunks. rewrite Hloop, Hfull, firstn_all.
    cbn [context tokenEstimate]. split; reflexivity.
Qed.

End ContextBudgetFacts.

(** ** The sign of a score *)

Section ScoreSignFacts.

Import MagnoliaSearch Scoring Shapes.

Variables title heading content breadcrumb : string.

Let found (term : string) : bool :=
  JS.includes title term
  || (JS.truthy heading && JS.includes heading term)
  || JS.includes content term
  || JS.includes breadcrumb term.

Lemma scoreTerm_found (term : string) :
  found term = true ->
  (2 <= scoreTerm title heading content breadcrumb 0 term)%Q.
Proof.
  unfold found, scoreTerm. simpl.
  pose proof (occurrenceBonus_nonneg (JS.countMatches term content)) as Hb.
  destruct (JS.includes title term), (JS.startsWith title term),
    (JS.truthy heading && JS.includes heading term),
    (JS.includes content term), (JS.includes breadcrumb term);
    simpl; intros H; try discriminate; lra.
Qed.

Lemma scoreTerm_not_found (term : string) :
  found term = false ->
  (scoreTerm title heading content breadcrumb 0 term == 0)%Q.
Proof.
  unfold found, scoreTerm. simpl.
  destruct (JS.includes title term), (JS.startsWith title term),
    (JS.truthy heading && JS.includes heading term),
    (JS.includes content term), (JS.includes breadcrumb term);
    simpl; intros H; try discriminate; lra.
Qed.

Lemma fold_scoreTerm_zero (terms : list string) :
  (fold_left (scoreTerm title heading content breadcrumb) terms 0 == 0)%Q
  <-> Forall (fun term => found term = false) terms.
Proof.
  induction terms as [|t terms IH]; simpl.
  - split; [constructor | reflexivity].
  - pose proof (fold_scoreTerm_shift title heading content breadcrumb terms
                  (scoreTerm title heading content breadcrumb 0 t)) as E.
    pose proof (fold_scoreTerm_nonneg title heading content breadcrumb terms)
      as Hnn.
    pose proof (scoreTerm_nonneg title heading content breadcrumb t) as Ht.
    split.
    + intros H0. destruct (found t) eqn:Ef.
      * apply scoreTerm_found in Ef. lra.
      * constructor; [exact Ef|]. apply IH. lra.
    + intros H. inversion H as [|? ? Ef Hrest]; subst.
      apply scoreTerm_not_found in Ef. apply IH in Hrest. lra.
Qed.

Lemma fold_scoreTerm_gap (terms : list string) :
  (fold_left (scoreTerm title heading content breadcrumb) terms 0 == 0)%Q
  \/ (2 <= fold_left (scoreTerm title heading content breadcrumb) terms 0)%Q.
Proof.
  induction terms as [|t terms IH]; simpl.
  - left. reflexivity.
  - pose proof (fold_scoreTerm_shift title heading content breadcrumb terms
                  (scoreTerm title heading content breadcrumb 0 t)) as E.
    pose proof (fold_scoreTerm_nonneg title heading content breadcrumb terms)
      as Hnn.
    destruct (found t) eqn:Ef.
    + apply scoreTerm_found in Ef. right. lra.
    + apply scoreTerm_not_found in Ef. destruct IH as [IH | IH];
        [left | right]; lra.
Qed.

End ScoreSignFacts.

(** X19: the sign of a score.  [_scoreDocument] never returns a negative
    score; the score is zero exactly when neither the title nor the
    heading contains the full query and no query term is found in the
    title, the heading, the content or the breadcrumb; and a score that
    is not zero is at least 2. *)
Theorem _scoreDocument_sign (doc : MagnoliaSearch.SearchRecord.t)
    (queryTerms : list string) (fullQuery : string) :
  let score := MagnoliaSearch._scoreDocument doc queryTerms fullQuery in
  (0 <= score)%Q
  /\ ((score == 0)%Q
      <-> JS.includes (Scoring.lowerTitle doc) fullQuery = false
          /\ JS.includes (Scoring.lowerHeading doc) fullQuery = false
          /\ Forall (fun term => Shapes.termFound doc term = false) queryTerms)
  /\ ((0 < score)%Q -> (2 <= score)%Q).
Proof.
  cbv zeta. unfold MagnoliaSearch._scoreDocument, Shapes.termFound.
  unfold Scoring.lowerTitle, Scoring.lowerHeading, Scoring.lowerContent,
    Scoring.lowerBreadcrumb.
  set (t := JS.toLowerCase (MagnoliaSearch.SearchRecord.title doc)).
  set (h := JS.toLowerCase
              (Indexer.orElse (MagnoliaSearch.SearchRecord.heading doc) "")).
  set (c := JS.toLowerCase
              (if JS.truthy (MagnoliaSearch.SearchRecord.fullContent doc)
               then MagnoliaSearch.SearchRecord.fullContent doc
               else MagnoliaSearch.SearchRecord.content doc)).
  set (b := JS.toLowerCase
              (JS.join " " (MagnoliaSearch.SearchRecord.breadcrumb doc))).
  pose proof (fold_scoreTerm_nonneg t h c b queryTerms) as Hnn.
  pose proof (fold_scoreTerm_gap t h c b queryTerms) as Hgap.
  pose proof (fold_scoreTerm_zero t h c b queryTerms) as Hzero.
  cbv zeta in Hzero.
  destruct (JS.includes t fullQuery), (JS.includes h fullQuery);
    match goal with
    | |- context [fold_left (MagnoliaSearch.scoreTerm t h c b) queryTerms ?s] =>
        pose proof (fold_scoreTerm_shift t h c b queryTerms s) as E
    end;
    destruct (String.length t <? 30)%nat;
    destruct (negb (MagnoliaSearch.SearchRecord.headingLevel doc =? 0)%nat
              && (MagnoliaSearch.SearchRecord.headingLevel doc <=? 2)%nat);
    (split; [lra|]);
    (split; [split; [intros H0 | intros (H1 & H2 & H3)] | intros Hpos]);
    try discriminate;
    try (exfalso; lra);
    try (repeat split; apply Hzero; lra);
    try (apply Hzero in H3; lra);
    try (destruct Hgap; lra).
Qed.

(** ** Bounds of the token estimate *)

Section EstimateFacts.

Import Indexer.

Lemma estimateTokens_sum (text : string) :
  estimateTokens text
  = ((13 * (Z.of_nat (wordCount text)
            + (Z.of_nat (JS.countChars isMarkdownChar text) + 9) / 10
            + 50 * Z.of_nat (JS.countMatches "[Code]" text)
            + 20 * Z.of_nat (JS.countMatches "[Table]" text)) + 9) / 10)%Z.
Proof.
  unfold estimateTokens.
  destruct text as [|c text].
  - reflexivity.
  - cbv beta iota delta [JS.truthy String.eqb negb].
    cbv zeta.
    rewrite Qceiling_thirteen_tenths, Qceiling_tenth, !Qceiling_inject.
    rewrite words_length.
    f_equal. lia.
Qed.

Lemma no_words_blank (s : string) :
  countWordStarts true s = 0%nat ->
  MagnoliaSearch.allChars JS.isWhiteSpace s = true.
Proof.
  induction s as [|c s IH]; [reflexivity|].
  cbn [countWordStarts MagnoliaSearch.allChars].
  destruct (JS.isWhiteSpace c); [exact IH | discriminate].
Qed.

Lemma isMarkdownChar_not_space (c : ascii) :
  JS.isWhiteSpace c = true -> isMarkdownChar c = false.
Proof.
  destruct c as [[] [] [] [] [] [] [] []]; intros H;
    try reflexivity; discriminate.
Qed.

Lemma blank_no_markdown (s : string) :
  MagnoliaSearch.allChars JS.isWhiteSpace s = true ->
  JS.countChars isMarkdownChar s = 0%nat.
Proof.
  induction s as [|c s IH]; [reflexivity|].
  cbn [MagnoliaSearch.allChars JS.countChars]. intros H.
  apply andb_true_iff in H. destruct H as [Hc Hs].
  now rewrite (isMarkdownChar_not_space c Hc), IH.
Qed.

Lemma blank_no_match (p : ascii) (pat : string) (s : string) :
  JS.isWhiteSpace p = false ->
  MagnoliaSearch.allChars JS.isWhiteSpace s = true ->
  forall skip, JS.countMatchesFrom (String p pat) skip s = 0%nat.
Proof.
  intros Hp. induction s as [|c s IH]; intros Hs skip.
  - reflexivity.
  - cbn [MagnoliaSearch.allChars] in Hs.
    apply andb_true_iff in Hs. destruct Hs as [Hc Hs].
    cbn [JS.countMatchesFrom]. destruct skip as [|k]; [|now apply IH].
    cbn [String.prefix].
    destruct (ascii_dec p c) as [-> | Hne]; [congruence|].
    now apply IH.
Qed.

(** X20: bounds of the token estimate.  The estimate of a text is at
    least its number of words, and it is zero exactly when the text has
    no word, that is, when it is empty or consists of white space. *)
Theorem estimateTokens_bounds (text : string) :
  (Z.of_nat (wordCount text) <= estimateTokens text)%Z
  /\ (estimateTokens text = 0%Z <-> wordCount text = 0%nat)
  /\ (wordCount text = 0%nat
      <-> MagnoliaSearch.allChars JS.isWhiteSpace text = true).
Proof.
  rewrite estimateTokens_sum.
  split; [|split].
  - Z.div_mod_to_equations. lia.
  - split.
    + intros H. Z.div_mod_to_equations. lia.
    + intros H. pose proof (no_words_blank text H) as Hb.
      rewrite H, (blank_no_markdown text Hb).
      unfold JS.countMatches.
      rewrite !blank_no_match by (reflexivity || exact Hb).
      reflexivity.
  - split; [apply no_words_blank|].
    unfold wordCount. intros H.
    assert (Hall : forall prev, countWordStarts prev text = 0%nat);
      [|apply Hall].
    induction text as [|c text IH]; intros prev; [reflexivity|].
    cbn [MagnoliaSearch.allChars] in H. apply andb_true_iff in H.
    destruct H as [Hc Hs]. cbn [countWordStarts]. rewrite Hc. now apply IH.
Qed.

End EstimateFacts.

(** ** From the indexer to the search client *)

Section PipelineFacts.

Import Indexer MagnoliaSearch Shapes.

Variable md5hex12 : string -> string.

(** X21: what the indexer writes, the client finds.  On an engine that
    [load] has made ready, a query that shares a token (other than the
    skipped words) with the title of a page, or with the heading or the
    content of one of its sections, returns the record
    [createSearchRecord] made of that section, whenever the record is in
    the index and passes the filters in force and [maxResults] is not
    below the number of records. *)
Theorem indexed_section_is_found (optIndexUrl : option string)
    (net : string -> FetchOutcome) (st : Engine) (effects : list Effect)
    (metadata : PageMetadata.t) (section : PageSection.t) (url : string)
    (query : option string) (options : SearchOptions.t) (w : string) :
  let record :=
    IndexerRecords.createSearchRecord md5hex12 metadata section url in
  load (newEngine optIndexUrl) net = (Resolved, WellFormed st, effects) ->
  In record (index st) ->
  In w (_tokenize (PageMetadata.title metadata)
        ++ _tokenize (orElse (PageSection.heading section) "")
        ++ _tokenize (PageSection.content section))%list ->
  isReservedWord w = false ->
  In w (_tokenize (normalizeQuery query)) ->
  passesFilters options record ->
  (List.length (index st) <= effectiveMaxResults options)%nat ->
  exists results r,
    search st query options = Return results
    /\ In r results
    /\ doc r = record.
Proof.
  intros record Hload Hin Hw Hres Hq Hpass Hmax.
  destruct (search_finds_word optIndexUrl net st effects query options
              record w Hload Hin) as (results & r & Hs & Hr & Hd & _);
    try assumption.
  - split; [|exact Hres]. unfold record.
    now rewrite createSearchRecord_searchText.
  - exists results, r. auto.
Qed.

End PipelineFacts.

(** X21 on the sample page: the query [JAVA] finds the record of the
    first section, whose content mentions Java. *)
Lemma indexed_section_is_found_sample :
  exists results r,
    MagnoliaSearch.search SamplePage.engine (Some " JAVA ")
      {| MagnoliaSearch.SearchOptions.version := Some "general";
         MagnoliaSearch.SearchOptions.category := None;
         MagnoliaSearch.SearchOptions.maxResults := None |}
    = MagnoliaSearch.Return results
    /\ In r results
    /\ MagnoliaSearch.doc r
       = IndexerRecords.createSearchRecord SamplePage.md5 SamplePage.metadata
           (hd Samples.codePageSection SamplePage.sections) SamplePage.url.
Proof.
  apply (indexed_section_is_found SamplePage.md5 None SamplePage.net
           SamplePage.engine
           [MagnoliaSearch.EFetch "/search-data/search-index.min.json";
            MagnoliaSearch.EConsoleLog; MagnoliaSearch.EOnReady]
           SamplePage.metadata
           (hd Samples.codePageSection SamplePage.sections) SamplePage.url
           (Some " JAVA ") _ "java").
  - vm_compute. reflexivity.
  - vm_compute. left. reflexivity.
  - vm_compute. tauto.
  - reflexivity.
  - vm_compute. auto.
  - split; intros x Hx; vm_compute in Hx; inversion Hx; reflexivity.
  - vm_compute. lia.
Defined.

(** ** Keywords *)

Section KeywordFacts.

Import MagnoliaSearch MagnoliaAI Shapes.

Lemma objHas_In {A} (o : JsObject A) (k : string) :
  objHas o k = true <-> In k (map fst o).
Proof.
  unfold objHas. rewrite existsb_exists, in_map_iff. split.
  - intros (e & He & E). apply String.eqb_eq in E. eauto.
  - intros (e & E & He). exists e. split; [exact He|]. now apply String.eqb_eq.
Qed.

Lemma objSet_keys {A} (o : JsObject A) (k : string) (v : A) :
  map fst (objSet o k v)
  = if objHas o k then map fst o else (map fst o ++ [k])%list.
Proof.
  unfold objHas. induction o as [|[k0 v0] o IH]; simpl; [reflexivity|].
  destruct (String.eqb_spec k0 k) as [-> | Hne]; simpl; [reflexivity|].
  rewrite IH. now destruct (existsb (fun e => fst e =? k) o).
Qed.

Lemma objGet_None_has {A} (o : JsObject A) (k : string) :
  objGet o k = None -> objHas o k = false.
Proof.
  unfold objHas. induction o as [|[k0 v0] o IH]; simpl; [reflexivity|].
  destruct (k0 =? k); simpl; [discriminate | exact IH].
Qed.

Lemma countWord_counted (done : list string) (freq : JsObject nat)
    (w : string) :
  counted done freq -> counted (done ++ [w]) (countWord freq w).
Proof.
  intros [Hnd Hget]. unfold counted, countWord. split.
  - destruct (objGet freq w) as [n|] eqn:E; rewrite objSet_keys.
    + destruct (objHas freq w) eqn:Eh; [exact Hnd|].
      apply objGet_Some_key, objHas_In in E. congruence.
    + rewrite (objGet_None_has _ _ E).
      apply NoDup_app; [exact Hnd | repeat constructor; simpl; tauto |].
      intros x Hx [<- | []].
      apply objHas_In in Hx. rewrite (objGet_None_has _ _ E) in Hx.
      discriminate.
  - intros k. rewrite count_occ_app. cbn [count_occ].
    pose proof (Hget k) as Hk.
    assert (Hset : forall v, objGet (objSet freq w v) k
                             = if w =? k then Some v else objGet freq k)
      by (intros v; apply objGet_objSet).
    destruct (string_dec w k) as [<- | Hneq].
    + rewrite String.eqb_refl in Hset.
      destruct (objGet freq w) as [n|] eqn:E; rewrite Hset.
      * destruct (count_occ string_dec done w) as [|c]; [discriminate|].
        inversion Hk; subst. rewrite !Nat.add_1_r. reflexivity.
      * destruct (count_occ string_dec done w) as [|c];
          [reflexivity | discriminate].
    + replace (w =? k) with false in Hset
        by (symmetry; apply String.eqb_neq; exact Hneq).
      rewrite Nat.add_0_r.
      destruct (objGet freq w); rewrite Hset; exact Hk.
Qed.

Lemma fold_countWord_counted (words : list string) :
  forall done freq,
    counted done freq ->
    counted (done ++ words) (fold_left countWord words freq).
Proof.
  induction words as [|w words IH]; intros done freq H; simpl.
  - now rewrite app_nil_r.
  - replace (done ++ w :: words)%list with ((done ++ [w]) ++ words)%list
      by now rewrite <- app_assoc.
    apply IH. now apply countWord_counted.
Qed.

Lemma insertByIndex_perm (k : string) (l : list string) :
  Permutation (insertByIndex k l) (k :: l).
Proof.
  induction l as [|k' l IH]; simpl; [reflexivity|].
  destruct (decimalValue 0 k <=? decimalValue 0 k')%N; [reflexivity|].
  rewrite IH. apply perm_swap.
Qed.

Lemma sortByIndex_perm (l : list string) : Permutation (sortByIndex l) l.
Proof.
  induction l as [|k l IH]; simpl; [reflexivity|].
  rewrite insertByIndex_perm. now apply perm_skip.
Qed.

Lemma filter_partition_perm {A} (p : A -> bool) (l : list A) :
  Permutation (filter p l ++ filter (fun x => negb (p x)) l) l.
Proof.
  induction l as [|x l IH]; simpl; [reflexivity|].
  destruct (p x); simpl.
  - now apply perm_skip.
  - rewrite <- Permutation_middle. now apply perm_skip.
Qed.

Lemma objKeys_perm {A} (o : JsObject A) : Permutation (objKeys o) (map fst o).
Proof.
  unfold objKeys. rewrite sortByIndex_perm. apply filter_partition_perm.
Qed.

Lemma objEntries_In {A} (o : JsObject A) (k : string) (v : A) :
  In (k, v) (objEntries o) <-> objGet o k = Some v.
Proof.
  unfold objEntries. rewrite in_flat_map. split.
  - intros (k' & _ & H). destruct (objGet o k') as [v'|] eqn:E; simpl in H.
    + destruct H as [H | []]. inversion H; subst. exact E.
    + contradiction.
  - intros E. exists k. split.
    + apply objKeys_In. eapply objGet_Some_key. exact E.
    + rewrite E. simpl. auto.
Qed.

Lemma objEntries_keys {A} (o : JsObject A) : map fst (objEntries o) = objKeys o.
Proof.
  unfold objEntries.
  assert (H : forall k, In k (objKeys o) -> exists v, objGet o k = Some v).
  { intros k Hk. apply objKeys_In, objHas_In in Hk.
    now apply objHas_true_objGet. }
  revert H. generalize (objKeys o). intros l.
  induction l as [|k l IH]; intros H; simpl; [reflexivity|].
  destruct (H k (or_introl eq_refl)) as (v & ->). simpl.
  f_equal. apply IH. intros k' Hk'. apply H. now right.
Qed.

Lemma insertEntry_perm (a : string * nat) (l : list (string * nat)) :
  Permutation (insertEntry a l) (a :: l).
Proof.
  induction l as [|b l IH]; simpl; [reflexivity|].
  destruct (snd b <=? snd a)%nat; [reflexivity|].
  rewrite IH. apply perm_swap.
Qed.

Lemma sortEntries_perm (l : list (string * nat)) : Permutation (sortEntries l) l.
Proof.
  induction l as [|a l IH]; simpl; [reflexivity|].
  rewrite insertEntry_perm. now apply perm_skip.
Qed.

Lemma insertEntry_sorted (a : string * nat) (l : list (string * nat)) :
  StronglySorted (fun x y => (snd y <= snd x)%nat) l ->
  StronglySorted (fun x y => (snd y <= snd x)%nat) (insertEntry a l).
Proof.
  induction l as [|b l IH]; intros Hs; simpl.
  - repeat constructor.
  - inversion Hs as [|? ? Hl Hb]; subst.
    destruct (snd b <=? snd a)%nat eqn:E.
    + apply Nat.leb_le in E.
      constructor; [assumption|]. constructor; [exact E|].
      eapply Forall_impl; [|exact Hb]. simpl. intros c Hc. lia.
    + apply Nat.leb_gt in E.
      constructor; [now apply IH|].
      apply Forall_forall. intros x Hx.
      apply (Permutation_in _ (insertEntry_perm a l)) in Hx.
      destruct Hx as [<- | Hx]; [lia|].
      rewrite Forall_forall in Hb. now apply Hb.
Qed.

Lemma sortEntries_sorted (l : list (string * nat)) :
  StronglySorted (fun x y => (snd y <= snd x)%nat) (sortEntries l).
Proof.
  induction l as [|a l IH]; simpl; [constructor|].
  now apply insertEntry_sorted.
Qed.

Lemma NoDup_firstn_of {A} (n : nat) :
  forall l : list A, NoDup l -> NoDup (firstn n l).
Proof.
  induction n as [|n IH]; intros [|a l] H; simpl; try constructor.
  - inversion H; subst. intros Hin. apply In_firstn in Hin. contradiction.
  - inversion H; subst. now apply IH.
Qed.

Lemma sorted_split {A} (R : A -> A -> Prop) (n : nat) :
  forall l, StronglySorted R l ->
    forall x y, In x (firstn n l) -> In y (skipn n l) -> R x y.
Proof.
  induction n as [|n IH]; intros [|a l] Hs x y Hx Hy; simpl in *;
    try contradiction.
  inversion Hs as [|? ? Hl Ha]; subst.
  destruct Hx as [<- | Hx].
  - rewrite Forall_forall in Ha. apply Ha.
    rewrite <- (firstn_skipn n l). apply in_or_app. now right.
  - now apply (IH l).
Qed.

Lemma sorted_impl_In {A} (R R' : A -> A -> Prop) (l : list A) :
  (forall x y, In x l -> In y l -> R x y -> R' x y) ->
  StronglySorted R l -> StronglySorted R' l.
Proof.
  induction l as [|a l IH]; intros H Hs; [constructor|].
  inversion Hs as [|? ? Hl Ha]; subst.
  constructor.
  - apply IH; [|exact Hl]. intros x y Hx Hy. apply H; now right.
  - apply Forall_forall. intros y Hy. rewrite Forall_forall in Ha.
    apply H; [now left | now right | now apply Ha].
Qed.

Lemma filter_filter_weaken {A} (f g : A -> bool) (l : list A) :
  (forall x, f x = true -> g x = true) ->
  filter f (filter g l) = filter f l.
Proof.
  intros H. induction l as [|x l IH]; simpl; [reflexivity|].
  destruct (g x) eqn:Eg; simpl.
  - now rewrite IH.
  - destruct (f x) eqn:Ef; [|exact IH].
    apply H in Ef. congruence.
Qed.

(** X22: the keywords of a text.  Unless the word [constructor] is
    among the counted words, [_extractKeywords] returns at most 50
    keywords, no keyword twice, each a counted word of the text, in
    descending order of frequency; a counted word that is missing was
    cut by the limit: there are 50 keywords then, each at least as
    frequent.  Every counted word has at least three characters, all
    lower-case letters or digits, and is no stop word; and on the
    lower-cased text the counted words are the search tokens of the
    text that have three or more characters and are no stop words. *)
Theorem _extractKeywords_ranked (text : string) :
  match _extractKeywords text with
  | None => In "constructor" (keywordWords text)
  | Some keywords =>
      ~ In "constructor" (keywordWords text)
      /\ NoDup keywords
      /\ (List.length keywords <= 50)%nat
      /\ (forall w, In w keywords -> In w (keywordWords text))
      /\ StronglySorted
           (fun a b => (wordFrequency text b <= wordFrequency text a)%nat)
           keywords
      /\ (forall w,
            In w (keywordWords text) ->
            In w keywords
            \/ (List.length keywords = 50%nat
                /\ Forall (fun k => (wordFrequency text w
                                     <= wordFrequency text k)%nat) keywords))
  end
  /\ Forall (fun w => (3 <= String.length w)%nat
                      /\ allChars Indexer.isLowerAlnum w = true
                      /\ ~ In w stopwords)
       (keywordWords text)
  /\ keywordWords (JS.toLowerCase text)
     = filter (fun w => (3 <=? String.length w)%nat
                        && negb (existsb (String.eqb w) stopwords))
         (_tokenize text).
Proof.
  split; [|split].
  - unfold _extractKeywords. cbv zeta.
    destruct (existsb (String.eqb "constructor") (keywordWords text)) eqn:Ec.
    + apply existsb_exists in Ec. destruct Ec as (w & Hw & E).
      apply String.eqb_eq in E. now subst w.
    + pose proof (fold_countWord_counted (keywordWords text) [] []) as Hc.
      cbn [app] in Hc.
      destruct Hc as [Hnd Hget].
      { split; [constructor | intros k; reflexivity]. }
      set (freq := fold_left countWord (keywordWords text) []) in *.
      set (sorted := sortEntries (objEntries freq)).
      assert (Hentry : forall k v, In (k, v) sorted ->
                         v = wordFrequency text k /\ In k (keywordWords text)).
      { intros k v H. unfold sorted in H.
        apply (Permutation_in _ (sortEntries_perm _)) in H.
        apply objEntries_In in H. rewrite Hget in H.
        unfold wordFrequency.
        destruct (count_occ string_dec (keywordWords text) k) as [|n] eqn:En;
          [discriminate|].
        inversion H; subst. split; [reflexivity|].
        apply (count_occ_In string_dec). lia. }
      assert (Hsorted : StronglySorted (fun x y => (snd y <= snd x)%nat) sorted)
        by apply sortEntries_sorted.
      assert (Hkeys : NoDup (map fst sorted)).
      { unfold sorted.
        apply (Permutation_NoDup
                 (Permutation_sym (Permutation_map fst (sortEntries_perm _)))).
        rewrite objEntries_keys.
        apply (Permutation_NoDup (Permutation_sym (objKeys_perm freq))).
        exact Hnd. }
      split; [|split; [|split; [|split; [|split]]]].
      * intros Hin.
        assert (E : existsb (String.eqb "constructor") (keywordWords text) = true)
          by (apply existsb_exists; exists "constructor";
              split; [exact Hin | apply String.eqb_refl]).
        congruence.
      * rewrite <- firstn_map. now apply NoDup_firstn_of.
      * rewrite length_map. apply firstn_le_length.
      * intros w Hw. apply in_map_iff in Hw.
        destruct Hw as ([k v] & <- & Hkv). apply In_firstn in Hkv.
        now apply (Hentry k v).
      * apply (map_sorted
                 (fun x y => (wordFrequency text (fst y)
                              <= wordFrequency text (fst x))%nat));
          [auto|].
        apply firstn_sorted.
        apply (sorted_impl_In (fun x y => (snd y <= snd x)%nat));
          [|exact Hsorted].
        intros [k v] [k' v'] Hx Hy Hle.
        destruct (Hentry k v Hx) as [-> _].
        destruct (Hentry k' v' Hy) as [-> _]. exact Hle.
      * intros w Hw.
        assert (Hc : objGet freq w = Some (wordFrequency text w)).
        { rewrite Hget. unfold wordFrequency.
          apply (count_occ_In string_dec) in Hw.
          destruct (count_occ string_dec (keywordWords text) w);
            [lia | reflexivity]. }
        apply objEntries_In in Hc.
        apply (Permutation_in _ (Permutation_sym (sortEntries_perm _))) in Hc.
        fold sorted in Hc.
        rewrite <- (firstn_skipn 50 sorted) in Hc.
        apply in_app_or in Hc. destruct Hc as [Hc | Hc].
        -- left. apply in_map_iff. exists (w, wordFrequency text w). auto.
        -- right. split.
           ++ rewrite length_map. apply firstn_length_le.
              destruct (Nat.le_gt_cases 50 (List.length sorted)) as [H | H];
                [exact H|].
              rewrite skipn_all2 in Hc by lia. contradiction.
           ++ apply Forall_forall. intros k Hk. apply in_map_iff in Hk.
              destruct Hk as ([k' v] & <- & Hkv).
              pose proof (sorted_split _ 50 sorted Hsorted _ _ Hkv Hc) as Hle.
              destruct (Hentry k' v (In_firstn _ _ _ Hkv)) as [-> _].
              exact Hle.
  - unfold keywordWords. apply Forall_forall. intros w Hw.
    apply filter_In in Hw. destruct Hw as [Hw Hf].
    apply andb_true_iff in Hf. destruct Hf as [Hlen Hstop].
    apply Nat.leb_le in Hlen. split; [exact Hlen|]. split.
    + assert (Hchars : allChars isTokenChar
                         (JS.mapChars normChar text) = true).
      { apply allChars_mapChars. intros c. unfold normChar.
        destruct (isTokenChar c) eqn:E; [assumption | reflexivity]. }
      pose proof (splitWsFrom_chars _ "" false eq_refl Hchars) as Hall.
      rewrite Forall_forall in Hall. now apply Hall.
    + intros Hin. apply negb_true_iff in Hstop.
      assert (E : existsb (String.eqb w) stopwords = true)
        by (apply existsb_exists; exists w;
            split; [exact Hin | apply String.eqb_refl]).
      congruence.
  - unfold keywordWords. rewrite _tokenize_unfold.
    symmetry. apply filter_filter_weaken.
    intros w H. apply andb_true_iff in H. destruct H as [H _].
    apply Nat.leb_le in H. apply Nat.leb_le. lia.
Qed.

Example _extractKeywords_order :
  _extractKeywords "java maven java 2023 the installation of Maven"
  = Some ["java"; "2023"; "maven"; "installation"; "aven"]
  /\ _extractKeywords "the constructor of a class" = None.
Proof. split; vm_compute; reflexivity. Qed.

End KeywordFacts.
